(** * cygraph: StaticGraph and DynamicGraph (src/cygraph/graph.pyx)

    A shallow embedding of the two graph classes of [graph.pyx] and of the
    [Graph] base class they extend.  Methods are state transformers that
    keep the state reached when an exception is raised, because a Python
    method that raises leaves behind whatever it has already mutated. *)

From Stdlib Require Import ZArith SpecFloat.
From stdpp Require Import base option list gmap sets strings.

(** ** Weights: [np.float64] / C [double] *)

Abbreviation DTYPE_t := spec_float.

Definition isnan (w : DTYPE_t) : bool :=
  match w with S754_nan => true | _ => false end.

Definition nan : DTYPE_t := S754_nan.

(** A cell of a float64 matrix read as "no edge" ([None]) when it holds
    the sentinel NaN, as a weight otherwise. *)
Definition not_nan (w : DTYPE_t) : option DTYPE_t :=
  if isnan w then None else Some w.

(** The default weight [1.0], i.e. 2^52 * 2^-52. *)
Definition one : DTYPE_t := S754_finite false 4503599627370496 (-52).

#[global] Instance DTYPE_eq_dec : EqDecision DTYPE_t.
Proof. solve_decision. Defined.

Definition DTYPE_enc (w : DTYPE_t) : bool + (bool + (unit + bool * positive * Z)) :=
  match w with
  | S754_zero s => inl s
  | S754_infinity s => inr (inl s)
  | S754_nan => inr (inr (inl tt))
  | S754_finite s m e => inr (inr (inr (s, m, e)))
  end.

Definition DTYPE_dec (x : bool + (bool + (unit + bool * positive * Z))) : DTYPE_t :=
  match x with
  | inl s => S754_zero s
  | inr (inl s) => S754_infinity s
  | inr (inr (inl _)) => S754_nan
  | inr (inr (inr (s, m, e))) => S754_finite s m e
  end.

#[global] Instance DTYPE_countable : Countable DTYPE_t.
Proof. apply (inj_countable' DTYPE_enc DTYPE_dec). by intros []. Defined.

(** ** Exceptions, warnings and the method monad *)

(** What a [ValueError] of this file says. *)
Inductive message :=
  | NotInGraph        (* "... is not in graph." *)
  | AlreadyInGraph    (* "... is already in graph" *)
  | NoSuchEdge        (* "There is no edge ..." / "edge ... is not in graph." *)
  | NotInList         (* list.remove(x): x not in list *)
  | ShapeMismatch.    (* raised by np.append on arrays that do not fit *)

Inductive exn :=
  | ValueError (m : message)
  | KeyError
  | IndexError
  | AttributeError.

(** [warnings.warn("Attempting to remove edge that doesn't exist.")] *)
Inductive warning := RemoveMissingEdge.

Record run (S A : Type) := Run {
  final : S;                 (* the object after the call, raised or not *)
  warned : list warning;     (* warnings emitted by the call *)
  value : exn + A            (* the exception raised, or the value returned *)
}.
Arguments Run {S A}.
Arguments final {S A}.
Arguments warned {S A}.
Arguments value {S A}.

Definition M (S A : Type) : Type := S → run S A.

Definition ret {S A} (a : A) : M S A := λ s, Run s [] (inr a).
Definition raise {S A} (e : exn) : M S A := λ s, Run s [] (inl e).
Definition bind {S A B} (m : M S A) (k : A → M S B) : M S B :=
  λ s, match m s with
       | Run s' ws (inl e) => Run s' ws (inl e)
       | Run s' ws (inr a) =>
           match k a s' with
           | Run s'' ws' x => Run s'' (ws ++ ws') x
           end
       end.
Definition gets {S A} (f : S → A) : M S A := λ s, Run s [] (inr (f s)).
Definition modify {S} (f : S → S) : M S unit := λ s, Run (f s) [] (inr tt).
Definition warn {S} (w : warning) : M S unit := λ s, Run s [w] (inr tt).
(** A computation that can only fail, run inside a method. *)
Definition lift {S A} (x : exn + A) : M S A := λ s, Run s [] x.
(** A base-class method run on the part [get] of a subclass object. *)
Definition zoom {S T A} (get : S → T) (set : T → S → S) (m : M T A) : M S A :=
  λ s, match m (get s) with Run t' ws x => Run (set t' s) ws x end.

Notation "'let*' x ':=' m 'in' k" := (bind m (λ x, k))
  (at level 10, x name, m at level 100, k at level 200,
   format "'[v' 'let*'  x  ':='  m  'in' '/' k ']'").
Notation "m '>>' k" := (bind m (λ _, k))
  (at level 100, k at level 200, right associativity).

(** Computations that read but do not write: an exception or a value. *)
Notation "'let+' x ':=' m 'in' k" :=
  (match m with inl e => inl e | inr x => k end)
  (at level 10, x name, m at level 100, k at level 200,
   format "'[v' 'let+'  x  ':='  m  'in' '/' k ']'").

(** A loop with an accumulator, stopping at the first exception. *)
Fixpoint foldM {X B} (body : B → X → exn + B) (acc : B) (xs : list X) : exn + B :=
  match xs with
  | [] => inr acc
  | x :: xs' => let+ acc' := body acc x in foldM body acc' xs'
  end.

(** [for x in xs: body x], stopping at the first exception. *)
Fixpoint for_each {S X} (xs : list X) (body : X → M S unit) : M S unit :=
  match xs with
  | [] => ret tt
  | x :: xs' => body x >> for_each xs' body
  end.

(** ** Python lists *)

Section pylist.
Context {X : Type} `{EqDecision X}.

(** [l.index(x)]: the first position of [x]; [None] stands for the
    [ValueError] of Python. *)
Fixpoint index (x : X) (l : list X) : option nat :=
  match l with
  | [] => None
  | y :: l' => if decide (y = x) then Some 0 else S <$> index x l'
  end.

(** [l.remove(x)]: drops the first occurrence; [None] is [ValueError]. *)
Fixpoint remove (x : X) (l : list X) : option (list X) :=
  match l with
  | [] => None
  | y :: l' => if decide (y = x) then Some l' else (y ::.) <$> remove x l'
  end.

(** [x in l] *)
Definition contains (x : X) (l : list X) : bool := bool_decide (x ∈ l).
End pylist.

(** [l[i]], [IndexError] out of range (indices here are never negative). *)
Definition getitem {X} (l : list X) (i : nat) : exn + X :=
  match l !! i with Some x => inr x | None => inl IndexError end.

(** [l[i] = x] *)
Definition setitem {X} (l : list X) (i : nat) (x : X) : exn + list X :=
  if decide (i < length l) then inr (<[i := x]> l) else inl IndexError.

(** [l.pop(i)] where only the shortened list matters. *)
Definition pop {X} (l : list X) (i : nat) : exn + list X :=
  if decide (i < length l) then inr (delete i l) else inl IndexError.

(** [m[u][v]] on rows of cells: the row is fetched, then the cell. *)
Definition get2 {X} (m : list (list X)) (u v : nat) : exn + X :=
  let+ row := getitem m u in getitem row v.

(** [m[u][v] = x]: the row is fetched and changed in place. *)
Definition set2 {X} (m : list (list X)) (u v : nat) (x : X)
    : exn + list (list X) :=
  let+ row := getitem m u in
  let+ row' := setitem row v x in
  inr (<[u := row']> m).

(** ** The [Graph] base class *)

Module Graph.
Section Graph.
Context {V K A : Type} `{Countable V, Countable K}.

Record t := mk {
directed : bool;
vertices : list V;
_vertex_attributes : gmap V (gmap K A);
_edge_attributes : gmap (V * V) (gmap K A)
}.

Definition set_vertices (f : list V → list V) (g : t) : t :=
mk (directed g) (f (vertices g)) (_vertex_attributes g) (_edge_attributes g).
Definition set_vertex_attributes
  (f : gmap V (gmap K A) → gmap V (gmap K A)) (g : t) : t :=
mk (directed g) (vertices g) (f (_vertex_attributes g)) (_edge_attributes g).
Definition set_edge_attributes
  (f : gmap (V * V) (gmap K A) → gmap (V * V) (gmap K A)) (g : t) : t :=
mk (directed g) (vertices g) (_vertex_attributes g) (f (_edge_attributes g)).

(** [_get_vertex_int]: [self.vertices.index(vertex)], the [ValueError]
  re-raised as "... is not in graph." *)
Definition _get_vertex_int (vertex : V) : M t nat :=
let* vs := gets vertices in
match index vertex vs with
| Some i => ret i
| None => raise (ValueError NotInGraph)
end.

(** [self._vertex_attributes[vertex][key] = val], [KeyError] turned into
  [ValueError]. *)
Definition set_vertex_attribute (vertex : V) (key : K) (val : A) : M t unit :=
let* va := gets _vertex_attributes in
match va !! vertex with
| Some d => modify (set_vertex_attributes (<[vertex := <[key := val]> d]>))
| None => raise (ValueError NotInGraph)
end.

Definition get_vertex_attribute (vertex : V) (key : K) : M t A :=
let* va := gets _vertex_attributes in
match va !! vertex with
| None => raise (ValueError NotInGraph)
| Some vertex_attributes =>
    match vertex_attributes !! key with
    | Some a => ret a
    | None => raise KeyError
    end
end.

Definition has_vertex (vertex : V) : M t bool :=
let* vs := gets vertices in ret (contains vertex vs).

(** The edge is looked up as given and, on an undirected graph, reversed. *)
Definition set_edge_attribute (edge : V * V) (key : K) (val : A) : M t unit :=
let* ea := gets _edge_attributes in
match ea !! edge with
| Some d => modify (set_edge_attributes (<[edge := <[key := val]> d]>))
| None =>
    let* dir := gets directed in
    if dir then raise (ValueError NotInGraph)
    else match ea !! (edge.2, edge.1) with
         | Some d =>
             modify (set_edge_attributes
                       (<[(edge.2, edge.1) := <[key := val]> d]>))
         | None => raise (ValueError NotInGraph)
         end
end.

Definition get_edge_attribute (edge : V * V) (key : K) : M t A :=
let* ea := gets _edge_attributes in
let* dir := gets directed in
let* edge_attributes :=
  match ea !! edge with
  | Some d => ret d
  | None =>
      if dir then raise (ValueError NotInGraph)
      else match ea !! (edge.2, edge.1) with
           | Some d => ret d
           | None => raise (ValueError NotInGraph)
           end
  end in
match edge_attributes !! key with
| Some a => ret a
| None => raise KeyError
end.

(** What one call of [copy.deepcopy] makes of the vertices, attribute
  names and attribute values it meets.  The copy of an object that is
  compared by value (a number, a string, a tuple of such) is equal to
  the object; the copy of an object that is compared by identity is a
  new object, equal to no other.  Objects that differ have copies that
  differ. *)
Record memo := Memo {
copy_vertex : V → V;
copy_key : K → K;
copy_value : A → A;
copy_vertex_inj : Inj (=) (=) copy_vertex;
copy_key_inj : Inj (=) (=) copy_key
}.

(** The copies of the vertices are equal to the vertices. *)
Definition vertices_by_value (m : memo) : Prop :=
∀ v, copy_vertex m v = v.

(** [copy.deepcopy] of the attribute map of one vertex or edge. *)
Definition deepcopy_attributes (m : memo) (d : gmap K A) : gmap K A :=
kmap (copy_key m) (copy_value m <$> d).

(** [copy.deepcopy(graph._vertex_attributes)] *)
Definition deepcopy_vertex_attributes (m : memo)
  (va : gmap V (gmap K A)) : gmap V (gmap K A) :=
kmap (copy_vertex m) (deepcopy_attributes m <$> va).

(** [copy.deepcopy(graph._edge_attributes)]: the keys are pairs, copied
  with their two vertices. *)
Definition deepcopy_edge_attributes (m : memo)
  (ea : gmap (V * V) (gmap K A)) : gmap (V * V) (gmap K A) :=
kmap (prod_map (copy_vertex m) (copy_vertex m))
     (deepcopy_attributes m <$> ea).

(** The part of [Graph.__cinit__] run when a source graph is given: the
  two attribute stores are deep-copied, each by a call of its own
  ([mv], [me]); [directed] is copied and the vertex list is sliced,
  which keeps the vertex objects themselves. *)
Definition copy_of (mv me : memo) (graph : t) : t :=
mk (directed graph) (vertices graph)
   (deepcopy_vertex_attributes mv (_vertex_attributes graph))
   (deepcopy_edge_attributes me (_edge_attributes graph)).
End Graph.
Arguments t V K A {_ _ _ _}.
Arguments memo V K A : clear implicits.
End Graph.

(** ** Scans of the adjacency storage shared by both classes

    [get_children], [get_parents] and [edges] are written twice in the
    source, once per class, and differ only in how a cell is read and
    tested for "no edge" ([np.isnan] on the view, [is None] on the rows).
    [read u v] is that read: [inr None] for "no edge", [inr (Some w)] for an
    edge of weight [w], [inl IndexError] outside the storage. *)

Section scans.
Context {V : Type} `{Countable V}.
Variable read : nat → nat → exn + option DTYPE_t.
Variable vertices : list V.

(** [for u in range(len(self.vertices))] collecting [self.vertices[u]]
    for the cells [cell u] that hold an edge. *)
Definition neighbours (cell : nat → exn + option DTYPE_t) : exn + gset V :=
  foldM (λ (found : gset V) u,
           let+ c := cell u in
           match c with
           | Some _ => let+ x := getitem vertices u in inr ({[x]} ∪ found)
           | None => inr found
           end)
        ∅ (seq 0 (length vertices)).

(** The pairs [(u, v)] in the order of the two nested [range] loops. *)
Definition cells (n : nat) : list (nat * nat) :=
  flat_map (λ u, map (pair u) (seq 0 n)) (seq 0 n).

(** [edge_found] after [for existing_edge in edges]: an edge found so
    far joins the two vertices of [new_edge] the other way round. *)
Definition edge_found (new_edge : V * V * DTYPE_t)
    (edges : gset (V * V * DTYPE_t)) : Prop :=
  set_Exists (λ existing_edge : V * V * DTYPE_t,
                existing_edge.1.1 = new_edge.1.2
                ∧ existing_edge.1.2 = new_edge.1.1) edges.

#[global] Instance edge_found_dec new_edge edges :
  Decision (edge_found new_edge edges).
Proof. unfold edge_found. apply _. Defined.

(** One iteration of the inner loop of [edges]. *)
Definition edges_step (directed : bool) (edges : gset (V * V * DTYPE_t))
    (uv : nat * nat) : exn + gset (V * V * DTYPE_t) :=
  let+ edge_weight := read uv.1 uv.2 in
  match edge_weight with
  | None => inr edges
  | Some w =>
      let+ x := getitem vertices uv.1 in
      let+ y := getitem vertices uv.2 in
      let new_edge := (x, y, w) in
      if directed then inr ({[new_edge]} ∪ edges)
      else if bool_decide (edge_found new_edge edges) then inr edges
           else inr ({[new_edge]} ∪ edges)
  end.

Definition scan_edges (directed : bool) : exn + gset (V * V * DTYPE_t) :=
  foldM (edges_step directed) ∅ (cells (length vertices)).

(** The cell at the positions [c] holds the edge [t]. *)
Definition holds (c : nat * nat) (t : V * V * DTYPE_t) : Prop :=
  vertices !! c.1 = Some t.1.1 ∧ vertices !! c.2 = Some t.1.2
  ∧ read c.1 c.2 = inr (Some t.2).
End scans.

(** ** DynamicGraph: a list of rows of optional weights *)

Module DynamicGraph.
Section DynamicGraph.
Context {V K A : Type} `{Countable V, Countable K}.

Record t := mk {
base : Graph.t V K A;
_adjacency_matrix : list (list (option DTYPE_t))
}.

Definition directed (g : t) : bool := Graph.directed (base g).
Definition vertices (g : t) : list V := Graph.vertices (base g).
Definition vertex_attributes (g : t) := Graph._vertex_attributes (base g).
Definition edge_attributes (g : t) := Graph._edge_attributes (base g).

Definition set_base (f : Graph.t V K A → Graph.t V K A) (g : t) : t :=
mk (f (base g)) (_adjacency_matrix g).
Definition set_matrix
  (f : list (list (option DTYPE_t)) → list (list (option DTYPE_t)))
  (g : t) : t :=
mk (base g) (f (_adjacency_matrix g)).

(** A method inherited from [Graph]. *)
Definition super {B} (m : M (Graph.t V K A) B) : M t B :=
zoom base (λ b g, mk b (_adjacency_matrix g)) m.

(** [self._adjacency_matrix[u][v]] *)
Definition getcell (m : list (list (option DTYPE_t))) (u v : nat)
  : exn + option DTYPE_t :=
get2 m u v.

(** [self._adjacency_matrix[u][v] = x] *)
Definition setcell (u v : nat) (x : option DTYPE_t) : M t unit :=
let* m := gets _adjacency_matrix in
let* m' := lift (set2 m u v x) in
modify (set_matrix (λ _, m')).

(** [size] rows of [size] times [None]. *)
Definition no_edges (size : nat) : list (list (option DTYPE_t)) :=
replicate size (replicate size None).

(** [__cinit__] without a source graph. *)
Definition __cinit__ (directed : bool) (vertices : list V) : t :=
mk (Graph.mk directed vertices
      (foldl (λ va v, <[v := ∅]> va) ∅ vertices) ∅)
   (no_edges (length vertices)).

Definition add_edge (v1 v2 : V) (weight : DTYPE_t) : M t unit :=
let* u := super (Graph._get_vertex_int v1) in
let* v := super (Graph._get_vertex_int v2) in
modify (set_base (Graph.set_edge_attributes (<[(v1, v2) := ∅]>))) >>
setcell u v (Some weight) >>
let* dir := gets directed in
if negb dir then setcell v u (Some weight) else ret tt.

Definition remove_edge (v1 v2 : V) : M t unit :=
let* u := super (Graph._get_vertex_int v1) in
let* v := super (Graph._get_vertex_int v2) in
let* m := gets _adjacency_matrix in
let* c := lift (getcell m u v) in
match c with
| None => warn RemoveMissingEdge
| Some _ =>
    setcell u v None >>
    let* dir := gets directed in
    if negb dir then setcell v u None else ret tt
end.

Definition has_edge (v1 v2 : V) : M t bool :=
let* vs := gets vertices in
match index v1 vs, index v2 vs with
| Some u, Some v =>
    let* m := gets _adjacency_matrix in
    let* c := lift (getcell m u v) in
    ret (bool_decide (c ≠ None))
| _, _ => ret false
end.

Definition get_edge_weight (v1 v2 : V) : M t DTYPE_t :=
let* u := super (Graph._get_vertex_int v1) in
let* v := super (Graph._get_vertex_int v2) in
let* m := gets _adjacency_matrix in
let* weight := lift (getcell m u v) in
match weight with
| Some w => ret w
| None => raise (ValueError NoSuchEdge)
end.

Definition add_vertex (v : V) : M t unit :=
modify (set_base (Graph.set_vertex_attributes (<[v := ∅]>))) >>
let* vs := gets vertices in
if contains v vs then raise (ValueError AlreadyInGraph)
else
  let vertex_number := length vs in
  modify (set_base (Graph.set_vertices (.++ [v]))) >>
  (* Add new row. *)
  modify (set_matrix (.++ [replicate (vertex_number + 1) None])) >>
  (* Add new column: one more cell in every row but the new one. *)
  modify (set_matrix (λ m, ((.++ [None]) <$> take (length m - 1) m)
                             ++ drop (length m - 1) m)).

(** [row.pop(u)] on the row at position [i]. *)
Definition pop_in_row (u i : nat) : M t unit :=
let* m := gets _adjacency_matrix in
let* row := lift (getitem m i) in
let* row' := lift (pop row u) in
modify (set_matrix (<[i := row']>)).

Definition remove_vertex (v : V) : M t unit :=
let* u := super (Graph._get_vertex_int v) in
let* vs := gets vertices in
match remove v vs with
| None => raise (ValueError NotInList)
| Some vs' =>
    modify (set_base (Graph.set_vertices (λ _, vs'))) >>
    (* Delete row and column from adjacency matrix. *)
    let* m := gets _adjacency_matrix in
    let* m' := lift (pop m u) in
    modify (set_matrix (λ _, m')) >>
    for_each (seq 0 (length m')) (pop_in_row u)
end.

Definition get_children (v : V) : M t (gset V) :=
let* w := super (Graph._get_vertex_int v) in
let* vs := gets vertices in
let* m := gets _adjacency_matrix in
lift (neighbours vs (λ u, getcell m w u)).

Definition get_parents (v : V) : M t (gset V) :=
let* w := super (Graph._get_vertex_int v) in
let* vs := gets vertices in
let* m := gets _adjacency_matrix in
lift (neighbours vs (λ u, getcell m u w)).

(** The [edges] property. *)
Definition edges (g : t) : exn + gset (V * V * DTYPE_t) :=
scan_edges (getcell (_adjacency_matrix g)) (vertices g) (directed g).
(** [__cinit__] with a source graph of either class, given by its base
  part and by what its [edges] property returns.  [Graph.__cinit__]
  has copied the attribute stores (the deep copies being [mv] and
  [me]), [directed] and [vertices]; the edges are then added with the
  default weight. *)
Definition __cinit__from (mv me : Graph.memo V K A) (graph : Graph.t V K A)
  (graph_edges : exn + gset (V * V * DTYPE_t)) : exn + t :=
let self := mk (Graph.copy_of mv me graph)
               (no_edges (length (Graph.vertices graph))) in
let+ es := graph_edges in
let r := for_each (elements es)
                  (λ edge, add_edge edge.1.1 edge.1.2 one) self in
let+ _ := value r in inr (final r).

(** [self._edge_attributes[edge]] in [__copy__], where [edge] is the
  triple [(v1, v2, weight)] taken from [edges]: the keys of
  [_edge_attributes] are pairs, no triple is among them. *)
Definition edge_attributes_of_triple (g : t) (edge : V * V * DTYPE_t)
  : option (gmap K A) := None.

Definition __copy__ (self : t) : exn + t :=
let new_graph := __cinit__ (directed self) (vertices self) in
let+ es := edges self in
(* Add edges and edge attributes. *)
let r := for_each (elements es)
           (λ edge,
              add_edge edge.1.1 edge.1.2 edge.2 >>
              match edge_attributes_of_triple self edge with
              | None => raise KeyError
              | Some d =>
                  for_each (map_to_list d)
                    (λ kv, super (Graph.set_edge_attribute
                                    (edge.1.1, edge.1.2) kv.1 kv.2))
              end) new_graph in
let+ _ := value r in
(* Add vertex attributes: [set_vertex_attribtue] is not a method. *)
let r' := for_each (vertices self)
            (λ vertex,
               match vertex_attributes self !! vertex with
               | None => raise KeyError
               | Some d =>
                   for_each (map_to_list d) (λ _, raise AttributeError)
               end) (final r) in
let+ _ := value r' in inr (final r').
End DynamicGraph.
Arguments t V K A {_ _ _ _}.
End DynamicGraph.

(** ** numpy arrays of two dimensions *)

Record ndarray := NDArray {
  ncols : nat;                      (* shape[1] *)
  rows : list (list DTYPE_t)        (* shape[0] = length rows *)
}.

Definition nrows (a : ndarray) : nat := length (rows a).

(** [np.full((r, c), x)] *)
Definition np_full (r c : nat) (x : DTYPE_t) : ndarray :=
  NDArray c (replicate r (replicate c x)).

(** [np.append(a, b, axis=0)]: a new array, [ValueError] unless the row
    lengths agree. *)
Definition np_append0 (a b : ndarray) : exn + ndarray :=
  if decide (ncols a = ncols b) then inr (NDArray (ncols a) (rows a ++ rows b))
  else inl (ValueError ShapeMismatch).

(** [np.append(a, b, axis=1)]: a new array, [ValueError] unless the numbers
    of rows agree. *)
Definition np_append1 (a b : ndarray) : exn + ndarray :=
  if decide (nrows a = nrows b)
  then inr (NDArray (ncols a + ncols b) (zip_with app (rows a) (rows b)))
  else inl (ValueError ShapeMismatch).

(** [np.delete(a, u, axis=0)]: a new array without row [u]. *)
Definition np_delete0 (a : ndarray) (u : nat) : exn + ndarray :=
  if decide (u < nrows a) then inr (NDArray (ncols a) (delete u (rows a)))
  else inl IndexError.

(** [np.delete(a, u, axis=1)]: a new array without column [u]. *)
Definition np_delete1 (a : ndarray) (u : nat) : exn + ndarray :=
  if decide (u < ncols a)
  then inr (NDArray (ncols a - 1) (delete u <$> rows a))
  else inl IndexError.

(** [a[u][v]] through a bounds-checked view. *)
Definition view_get (a : ndarray) (u v : nat) : exn + DTYPE_t :=
  get2 (rows a) u v.

(** [a[u][v] = x] through a bounds-checked view. *)
Definition view_set (a : ndarray) (u v : nat) (x : DTYPE_t) : exn + ndarray :=
  let+ rows' := set2 (rows a) u v x in
  inr (NDArray (ncols a) rows').

(** ** StaticGraph: a numpy matrix read and written through a view *)

Module StaticGraph.
Section StaticGraph.
Context {V K A : Type} `{Countable V, Countable K}.

(** [_adjacency_matrix] is an array object and [_adjacency_matrix_view]
  a view of the array it was taken from; [__cinit__] takes the view
  from [_adjacency_matrix] itself, so the two share their cells until
  [_adjacency_matrix] is bound to another array. *)
Inductive matrix_ref :=
| SameAsView                    (* the array the view was taken from *)
| Reallocated (a : ndarray).    (* an array of its own *)

Record t := mk {
base : Graph.t V K A;
_adjacency_matrix : matrix_ref;
_adjacency_matrix_view : ndarray
}.

Definition directed (g : t) : bool := Graph.directed (base g).
Definition vertices (g : t) : list V := Graph.vertices (base g).
Definition vertex_attributes (g : t) := Graph._vertex_attributes (base g).
Definition edge_attributes (g : t) := Graph._edge_attributes (base g).

(** The cells of [self._adjacency_matrix]. *)
Definition matrix (g : t) : ndarray :=
match _adjacency_matrix g with
| SameAsView => _adjacency_matrix_view g
| Reallocated a => a
end.

Definition set_base (f : Graph.t V K A → Graph.t V K A) (g : t) : t :=
mk (f (base g)) (_adjacency_matrix g) (_adjacency_matrix_view g).
Definition set_matrix (a : ndarray) (g : t) : t :=
mk (base g) (Reallocated a) (_adjacency_matrix_view g).
Definition set_view (a : ndarray) (g : t) : t :=
mk (base g) (_adjacency_matrix g) a.

Definition super {B} (m : M (Graph.t V K A) B) : M t B :=
zoom base (λ b g, mk b (_adjacency_matrix g) (_adjacency_matrix_view g)) m.

(** [self._adjacency_matrix_view[u][v] = x] *)
Definition setcell (u v : nat) (x : DTYPE_t) : M t unit :=
let* a := gets _adjacency_matrix_view in
let* a' := lift (view_set a u v x) in
modify (set_view a').

(** A cell of the view with [np.isnan] applied: [None] for "no edge". *)
Definition getcell (a : ndarray) (u v : nat) : exn + option DTYPE_t :=
let+ w := view_get a u v in
inr (not_nan w).

(** [__cinit__] without a source graph. *)
Definition __cinit__ (directed : bool) (vertices : list V) : t :=
mk (Graph.mk directed vertices
      (foldl (λ va v, <[v := ∅]> va) ∅ vertices) ∅)
   SameAsView
   (np_full (length vertices) (length vertices) nan).

Definition add_edge (v1 v2 : V) (weight : DTYPE_t) : M t unit :=
let* u := super (Graph._get_vertex_int v1) in
let* v := super (Graph._get_vertex_int v2) in
modify (set_base (Graph.set_edge_attributes (<[(v1, v2) := ∅]>))) >>
setcell u v weight >>
let* dir := gets directed in
if negb dir then setcell v u weight else ret tt.

Definition remove_edge (v1 v2 : V) : M t unit :=
let* u := super (Graph._get_vertex_int v1) in
let* v := super (Graph._get_vertex_int v2) in
let* a := gets _adjacency_matrix_view in
let* w := lift (view_get a u v) in
if isnan w then warn RemoveMissingEdge
else
  setcell u v nan >>
  let* dir := gets directed in
  if negb dir then setcell v u nan else ret tt.

Definition has_edge (v1 v2 : V) : M t bool :=
let* vs := gets vertices in
match index v1 vs, index v2 vs with
| Some u, Some v =>
    let* a := gets _adjacency_matrix_view in
    let* w := lift (view_get a u v) in
    ret (negb (isnan w))
| _, _ => ret false
end.

Definition get_edge_weight (v1 v2 : V) : M t DTYPE_t :=
let* u := super (Graph._get_vertex_int v1) in
let* v := super (Graph._get_vertex_int v2) in
let* a := gets _adjacency_matrix_view in
let* weight := lift (view_get a u v) in
if negb (isnan weight) then ret weight
else raise (ValueError NoSuchEdge).

(** [_adjacency_matrix] is replaced by a grown copy; the view is not
  taken again. *)
Definition add_vertex (v : V) : M t unit :=
let* vs := gets vertices in
let vertex_number := length vs in
modify (set_base (Graph.set_vertex_attributes (<[v := ∅]>))) >>
if contains v vs then raise (ValueError AlreadyInGraph)
else
  modify (set_base (Graph.set_vertices (.++ [v]))) >>
  if decide (vertex_number = 0)
  then modify (set_matrix (np_full 1 1 nan))
  else
    (* Add new row. *)
    let new_row := np_full 1 vertex_number nan in
    let* a := gets matrix in
    let* a' := lift (np_append0 a new_row) in
    modify (set_matrix a') >>
    (* Add new column. *)
    let new_column := np_full (vertex_number + 1) 1 nan in
    let* a' := gets matrix in
    let* a'' := lift (np_append1 a' new_column) in
    modify (set_matrix a'').

(** The arrays returned by the two [np.delete] calls are dropped. *)
Definition remove_vertex (v : V) : M t unit :=
let* u := super (Graph._get_vertex_int v) in
let* vs := gets vertices in
match remove v vs with
| None => raise (ValueError NotInList)
| Some vs' =>
    modify (set_base (Graph.set_vertices (λ _, vs'))) >>
    let* a := gets matrix in
    let* _ := lift (np_delete1 a u) in   (* Delete column. *)
    let* _ := lift (np_delete0 a u) in   (* Delete row. *)
    ret tt
end.

Definition get_children (v : V) : M t (gset V) :=
let* w := super (Graph._get_vertex_int v) in
let* vs := gets vertices in
let* a := gets _adjacency_matrix_view in
lift (neighbours vs (λ u, getcell a w u)).

Definition get_parents (v : V) : M t (gset V) :=
let* w := super (Graph._get_vertex_int v) in
let* vs := gets vertices in
let* a := gets _adjacency_matrix_view in
lift (neighbours vs (λ u, getcell a u w)).

(** The [edges] property. *)
Definition edges (g : t) : exn + gset (V * V * DTYPE_t) :=
scan_edges (getcell (_adjacency_matrix_view g)) (vertices g) (directed g).

(** [__cinit__] with a source graph of either class (see
  [DynamicGraph.__cinit__from]). *)
Definition __cinit__from (mv me : Graph.memo V K A) (graph : Graph.t V K A)
  (graph_edges : exn + gset (V * V * DTYPE_t)) : exn + t :=
let size := length (Graph.vertices graph) in
let self := mk (Graph.copy_of mv me graph) SameAsView
               (np_full size size nan) in
let+ es := graph_edges in
let r := for_each (elements es)
                  (λ edge, add_edge edge.1.1 edge.1.2 one) self in
let+ _ := value r in inr (final r).

(** See [DynamicGraph.edge_attributes_of_triple]. *)
Definition edge_attributes_of_triple (g : t) (edge : V * V * DTYPE_t)
  : option (gmap K A) := None.

Definition __copy__ (self : t) : exn + t :=
let new_graph := __cinit__ (directed self) (vertices self) in
let+ es := edges self in
(* Add edges and edge attributes. *)
let r := for_each (elements es)
           (λ edge,
              add_edge edge.1.1 edge.1.2 edge.2 >>
              match edge_attributes_of_triple self edge with
              | None => raise KeyError
              | Some d =>
                  for_each (map_to_list d)
                    (λ kv, super (Graph.set_edge_attribute
                                    (edge.1.1, edge.1.2) kv.1 kv.2))
              end) new_graph in
let+ _ := value r in
(* Add vertex attributes: [set_vertex_attribtue] is not a method. *)
let r' := for_each (vertices self)
            (λ vertex,
               match vertex_attributes self !! vertex with
               | None => raise KeyError
               | Some d =>
                   for_each (map_to_list d) (λ _, raise AttributeError)
               end) (final r) in
let+ _ := value r' in inr (final r').
End StaticGraph.
Arguments t V K A {_ _ _ _}.
End StaticGraph.

(** ** A graph of either class

    Callers hold a [Graph] reference and the call goes to the method of
    the object's class. *)

Module AnyGraph.
Section AnyGraph.
Context {V K A : Type} `{Countable V, Countable K}.

Inductive t :=
| Static (g : StaticGraph.t V K A)
| Dynamic (g : DynamicGraph.t V K A).

Definition base (g : t) : Graph.t V K A :=
match g with
| Static s => StaticGraph.base s
| Dynamic d => DynamicGraph.base d
end.

Definition directed (g : t) : bool := Graph.directed (base g).
Definition vertices (g : t) : list V := Graph.vertices (base g).
Definition vertex_attributes (g : t) : gmap V (gmap K A) :=
Graph._vertex_attributes (base g).
Definition edge_attributes (g : t) : gmap (V * V) (gmap K A) :=
Graph._edge_attributes (base g).

(** The same graph with another base part. *)
Definition with_base (b : Graph.t V K A) (g : t) : t :=
match g with
| Static s =>
    Static (StaticGraph.mk b (StaticGraph._adjacency_matrix s)
              (StaticGraph._adjacency_matrix_view s))
| Dynamic d => Dynamic (DynamicGraph.mk b (DynamicGraph._adjacency_matrix d))
end.

(** The adjacency cell at positions [u], [v] as the queries of the class
  read it. *)
Definition cell (g : t) (u v : nat) : exn + option DTYPE_t :=
match g with
| Static s => StaticGraph.getcell (StaticGraph._adjacency_matrix_view s) u v
| Dynamic d => DynamicGraph.getcell (DynamicGraph._adjacency_matrix d) u v
end.

Definition dispatch {B} (ms : M (StaticGraph.t V K A) B)
  (md : M (DynamicGraph.t V K A) B) : M t B :=
λ g, match g with
     | Static s => match ms s with Run s' ws x => Run (Static s') ws x end
     | Dynamic d => match md d with Run d' ws x => Run (Dynamic d') ws x end
     end.

Definition add_vertex (v : V) : M t unit :=
dispatch (StaticGraph.add_vertex v) (DynamicGraph.add_vertex v).
Definition remove_vertex (v : V) : M t unit :=
dispatch (StaticGraph.remove_vertex v) (DynamicGraph.remove_vertex v).
Definition has_vertex (v : V) : M t bool :=
dispatch (StaticGraph.super (Graph.has_vertex v))
         (DynamicGraph.super (Graph.has_vertex v)).
Definition add_edge (v1 v2 : V) (weight : DTYPE_t) : M t unit :=
dispatch (StaticGraph.add_edge v1 v2 weight)
         (DynamicGraph.add_edge v1 v2 weight).
Definition remove_edge (v1 v2 : V) : M t unit :=
dispatch (StaticGraph.remove_edge v1 v2) (DynamicGraph.remove_edge v1 v2).
Definition has_edge (v1 v2 : V) : M t bool :=
dispatch (StaticGraph.has_edge v1 v2) (DynamicGraph.has_edge v1 v2).
Definition get_edge_weight (v1 v2 : V) : M t DTYPE_t :=
dispatch (StaticGraph.get_edge_weight v1 v2)
         (DynamicGraph.get_edge_weight v1 v2).
Definition get_children (v : V) : M t (gset V) :=
dispatch (StaticGraph.get_children v) (DynamicGraph.get_children v).
Definition get_parents (v : V) : M t (gset V) :=
dispatch (StaticGraph.get_parents v) (DynamicGraph.get_parents v).
Definition set_vertex_attribute (v : V) (key : K) (val : A) : M t unit :=
dispatch (StaticGraph.super (Graph.set_vertex_attribute v key val))
         (DynamicGraph.super (Graph.set_vertex_attribute v key val)).
Definition get_vertex_attribute (v : V) (key : K) : M t A :=
dispatch (StaticGraph.super (Graph.get_vertex_attribute v key))
         (DynamicGraph.super (Graph.get_vertex_attribute v key)).
Definition set_edge_attribute (edge : V * V) (key : K) (val : A) : M t unit :=
dispatch (StaticGraph.super (Graph.set_edge_attribute edge key val))
         (DynamicGraph.super (Graph.set_edge_attribute edge key val)).
Definition get_edge_attribute (edge : V * V) (key : K) : M t A :=
dispatch (StaticGraph.super (Graph.get_edge_attribute edge key))
         (DynamicGraph.super (Graph.get_edge_attribute edge key)).

Definition edges (g : t) : exn + gset (V * V * DTYPE_t) :=
match g with
| Static s => StaticGraph.edges s
| Dynamic d => DynamicGraph.edges d
end.

(** [copy.copy(g)] *)
Definition __copy__ (g : t) : exn + t :=
match g with
| Static s => let+ s' := StaticGraph.__copy__ s in inr (Static s')
| Dynamic d => let+ d' := DynamicGraph.__copy__ d in inr (Dynamic d')
end.

(** [StaticGraph(graph=g)] and [DynamicGraph(graph=g)], where the two
  calls of [copy.deepcopy] make the copies [mv] and [me]. *)
Definition static_of (mv me : Graph.memo V K A) (g : t) : exn + t :=
let+ s := StaticGraph.__cinit__from mv me (base g) (edges g) in
inr (Static s).
Definition dynamic_of (mv me : Graph.memo V K A) (g : t) : exn + t :=
let+ d := DynamicGraph.__cinit__from mv me (base g) (edges g) in
inr (Dynamic d).

(** The public operations, as data, and what a call answers. *)
Inductive op :=
| AddVertex (v : V)
| RemoveVertex (v : V)
| HasVertex (v : V)
| AddEdge (v1 v2 : V) (weight : DTYPE_t)
| RemoveEdge (v1 v2 : V)
| HasEdge (v1 v2 : V)
| GetEdgeWeight (v1 v2 : V)
| GetChildren (v : V)
| GetParents (v : V)
| SetVertexAttribute (v : V) (key : K) (val : A)
| GetVertexAttribute (v : V) (key : K)
| SetEdgeAttribute (edge : V * V) (key : K) (val : A)
| GetEdgeAttribute (edge : V * V) (key : K)
| Edges.

Inductive answer :=
| Done
| Truth (b : bool)
| Weight (w : DTYPE_t)
| VertexSet (vs : gset V)
| Attribute (a : A)
| EdgeSet (es : gset (V * V * DTYPE_t)).

Definition answering {B} (f : B → answer) (m : M t B) : M t answer :=
let* b := m in ret (f b).

Definition call (o : op) : M t answer :=
match o with
| AddVertex v => answering (λ _, Done) (add_vertex v)
| RemoveVertex v => answering (λ _, Done) (remove_vertex v)
| HasVertex v => answering Truth (has_vertex v)
| AddEdge v1 v2 w => answering (λ _, Done) (add_edge v1 v2 w)
| RemoveEdge v1 v2 => answering (λ _, Done) (remove_edge v1 v2)
| HasEdge v1 v2 => answering Truth (has_edge v1 v2)
| GetEdgeWeight v1 v2 => answering Weight (get_edge_weight v1 v2)
| GetChildren v => answering VertexSet (get_children v)
| GetParents v => answering VertexSet (get_parents v)
| SetVertexAttribute v key val =>
    answering (λ _, Done) (set_vertex_attribute v key val)
| GetVertexAttribute v key => answering Attribute (get_vertex_attribute v key)
| SetEdgeAttribute e key val =>
    answering (λ _, Done) (set_edge_attribute e key val)
| GetEdgeAttribute e key => answering Attribute (get_edge_attribute e key)
| Edges => let* g := gets id in answering EdgeSet (lift (edges g))
end.

(** The graphs a program can hold: built by a constructor or a copy,
  then changed by calls, whether they return or raise.  [ok] says
  which deep copies of the vertex attributes the constructors from a
  source graph may have made. *)
Inductive reachable_if (ok : Graph.memo V K A → Prop) : t → Prop :=
| reach_static directed vertices :
    reachable_if ok (Static (StaticGraph.__cinit__ directed vertices))
| reach_dynamic directed vertices :
    reachable_if ok (Dynamic (DynamicGraph.__cinit__ directed vertices))
| reach_static_of mv me g g' :
    ok mv → reachable_if ok g → static_of mv me g = inr g' →
    reachable_if ok g'
| reach_dynamic_of mv me g g' :
    ok mv → reachable_if ok g → dynamic_of mv me g = inr g' →
    reachable_if ok g'
| reach_copy g g' :
    reachable_if ok g → __copy__ g = inr g' → reachable_if ok g'
| reach_call g o :
    reachable_if ok g → reachable_if ok (final (call o g)).

(** With any deep copies. *)
Definition reachable : t → Prop := reachable_if (λ _, True).
End AnyGraph.
Arguments t V K A {_ _ _ _}.
Arguments op V K A : clear implicits.
Arguments answer V A {_ _}.
Arguments reach_static {V K A _ _ _ _ ok} directed vertices.
Arguments reach_dynamic {V K A _ _ _ _ ok} directed vertices.
Arguments reach_static_of {V K A _ _ _ _ ok} mv me g g'.
Arguments reach_dynamic_of {V K A _ _ _ _ ok} mv me g g'.
Arguments reach_copy {V K A _ _ _ _ ok} g g'.
Arguments reach_call {V K A _ _ _ _ ok} g o.
End AnyGraph.

(** ** The package's factory function *)

Module cygraph.
Section cygraph.
Context {V K A : Type} `{Countable V, Countable K}.

(** [StaticGraph(graph=graph_, directed=directed, vertices=vertices)];
  [mv] and [me] are the deep copies made when a source graph is
  given. *)
Definition StaticGraph (mv me : Graph.memo V K A)
  (graph_ : option (AnyGraph.t V K A))
  (directed : bool) (vertices : list V) : exn + AnyGraph.t V K A :=
match graph_ with
| Some g => AnyGraph.static_of mv me g
| None => inr (AnyGraph.Static (StaticGraph.__cinit__ directed vertices))
end.

(** [DynamicGraph(graph=graph_, directed=directed, vertices=vertices)] *)
Definition DynamicGraph (mv me : Graph.memo V K A)
  (graph_ : option (AnyGraph.t V K A))
  (directed : bool) (vertices : list V) : exn + AnyGraph.t V K A :=
match graph_ with
| Some g => AnyGraph.dynamic_of mv me g
| None => inr (AnyGraph.Dynamic (DynamicGraph.__cinit__ directed vertices))
end.

(** [cygraph.graph(static, graph_, directed, vertices)] *)
Definition graph (mv me : Graph.memo V K A)
  (static : bool) (graph_ : option (AnyGraph.t V K A))
  (directed : bool) (vertices : list V) : exn + AnyGraph.t V K A :=
if static then StaticGraph mv me graph_ directed vertices
else DynamicGraph mv me graph_ directed vertices.
End cygraph.
End cygraph.

(** ** Observations and well-formedness

    What the statements below say about a graph of either class. *)

(** Every row is as long as there are rows. *)
Definition square {X} (m : list (list X)) : Prop :=
  Forall (λ row, length row = length m) m.

(** Positions [u], [v] and [v], [u] read alike, failures included. *)
Definition symmetric {X} (m : list (list X)) : Prop :=
  ∀ u v, get2 m u v = get2 m v u.

(** The rows after [m[u][v] = x] when the assignment goes through. *)
Definition upd {X} (m : list (list X)) (u v : nat) (x : X) : list (list X) :=
  alter (<[v := x]>) u m.

(** Position [i] counted after position [u] has been deleted. *)
Definition skip (u i : nat) : nat := if decide (i < u) then i else S i.

(** [b'] has the vertices of [b] and attributes for the same vertices. *)
Definition same_keys {V K A : Type} `{Countable V, Countable K}
    (b b' : Graph.t V K A) : Prop :=
  Graph.directed b' = Graph.directed b
  ∧ Graph.vertices b' = Graph.vertices b
  ∧ dom (Graph._vertex_attributes b') = dom (Graph._vertex_attributes b).

Section observations.
Context {V K A : Type} `{Countable V, Countable K}.
Implicit Types g : AnyGraph.t V K A.

(** The adjacency storage the methods work on, each cell as the queries
    take it: the view of a [StaticGraph] with NaN read as "no edge", the
    rows of a [DynamicGraph]. *)
Definition storage g : list (list (option DTYPE_t)) :=
  match g with
  | AnyGraph.Static s =>
      (λ row : list DTYPE_t, not_nan <$> row)
        <$> rows (StaticGraph._adjacency_matrix_view s)
  | AnyGraph.Dynamic d => DynamicGraph._adjacency_matrix d
  end.

(** How the weight [w] written by [add_edge] reads afterwards. *)
Definition stored g (w : DTYPE_t) : option DTYPE_t :=
  match g with
  | AnyGraph.Static _ => not_nan w
  | AnyGraph.Dynamic _ => Some w
  end.

(** Whether the graph is a [StaticGraph]. *)
Definition is_static g : bool :=
  match g with
  | AnyGraph.Static _ => true
  | AnyGraph.Dynamic _ => false
  end.

(** The shape of the numpy array [_adjacency_matrix] of a [StaticGraph]. *)
Definition matrix_shape g : option (nat * nat) :=
  match g with
  | AnyGraph.Static s =>
      Some (nrows (StaticGraph.matrix s), ncols (StaticGraph.matrix s))
  | AnyGraph.Dynamic _ => None
  end.

(** The storage is square; the rows of a [DynamicGraph] are as many as
    the vertices; the array of a [StaticGraph] is square and has room
    for the vertices. *)
Definition wf g : Prop :=
  square (storage g) ∧
  match matrix_shape g with
  | Some (r, c) => r = c ∧ length (AnyGraph.vertices g) ≤ r
  | None => length (storage g) = length (AnyGraph.vertices g)
  end.

(** [g'] differs from [g] at most in the cells of the storage and in
    [edge_attributes]. *)
Definition same_vertices g g' : Prop :=
  matrix_shape g' = matrix_shape g
  ∧ AnyGraph.directed g' = AnyGraph.directed g
  ∧ AnyGraph.vertices g' = AnyGraph.vertices g
  ∧ AnyGraph.vertex_attributes g' = AnyGraph.vertex_attributes g.

(** [add_edge] can store weight [w] between positions [u] and [v]: in
    the view of a [StaticGraph] the positions must lie inside the view
    and [w] must not be the sentinel NaN. *)
Definition fits g (u v : nat) (w : DTYPE_t) : Prop :=
  match g with
  | AnyGraph.Static _ =>
      u < length (storage g) ∧ v < length (storage g) ∧ isnan w = false
  | AnyGraph.Dynamic _ => True
  end.

(** No cell of the storage holds an edge. *)
Definition no_edges g : Prop :=
  ∀ u v c, AnyGraph.cell g u v = inr c → c = None.

(** The vertex pairs of the edges [es] share no vertex with one another. *)
Fixpoint disjoint_pairs (es : list (V * V * DTYPE_t)) : Prop :=
  match es with
  | [] => True
  | e :: es' =>
      (∀ f, f ∈ es' →
            e.1.1 ≠ f.1.1 ∧ e.1.1 ≠ f.1.2 ∧ e.1.2 ≠ f.1.1 ∧ e.1.2 ≠ f.1.2)
      ∧ disjoint_pairs es'
  end.

(** [g.add_edge(v1, v2, w)] for each [(v1, v2, w)] of [es] in turn; the
    graph after the last call, or the exception of the first call that
    raises. *)
Fixpoint add_all (es : list (V * V * DTYPE_t)) g : exn + AnyGraph.t V K A :=
  match es with
  | [] => inr g
  | e :: es' =>
      let r := AnyGraph.add_edge e.1.1 e.1.2 e.2 g in
      let+ _ := value r in add_all es' (final r)
  end.

(** [add_edge] of the edge [e] writes the cell at positions [u], [v]. *)
Definition writes g (e : V * V * DTYPE_t) (u v : nat) : Prop :=
  (index e.1.1 (AnyGraph.vertices g) = Some u
   ∧ index e.1.2 (AnyGraph.vertices g) = Some v)
  ∨ (AnyGraph.directed g = false
     ∧ index e.1.1 (AnyGraph.vertices g) = Some v
     ∧ index e.1.2 (AnyGraph.vertices g) = Some u).

#[global] Instance writes_dec g (e : V * V * DTYPE_t) (u v : nat) :
  Decision (writes g e u v).
Proof. unfold writes. apply _. Defined.

(** The triples of [found] join vertices of [used] only. *)
Definition ends_in (used : gset V) (found : gset (V * V * DTYPE_t)) : Prop :=
  ∀ t, t ∈ found → t.1.1 ∈ used ∧ t.1.2 ∈ used.

(** [found'] is [found] and the edge of [a] and [b] with weight [w], in
    one of its two directions. *)
Definition one_more (a b : V) (w : DTYPE_t)
    (found found' : gset (V * V * DTYPE_t)) : Prop :=
  found' = {[(a, b, w)]} ∪ found ∨ found' = {[(b, a, w)]} ∪ found.

(** The cells of [m] that hold an edge join vertices of [used] only. *)
Definition tidy (vs : list V) (m : list (list (option DTYPE_t)))
    (used : gset V) : Prop :=
  ∀ i j w, get2 m i j = inr (Some w) →
           ∃ x y, vs !! i = Some x ∧ vs !! j = Some y
                  ∧ x ∈ used ∧ y ∈ used.



(** The graph after the calls [os]. *)
Definition after (os : list (AnyGraph.op V K A)) g : AnyGraph.t V K A :=
  foldl (λ g o, final (AnyGraph.call o g)) g os.



(** Every vertex has an entry in [vertex_attributes]. *)
Definition vertices_have_attributes g : Prop :=
  ∀ v, v ∈ AnyGraph.vertices g → v ∈ dom (AnyGraph.vertex_attributes g).

(** The keys of [vertex_attributes] are the vertices. *)
Definition keys_are_vertices g : Prop :=
  dom (AnyGraph.vertex_attributes g) = list_to_set (AnyGraph.vertices g).

(** What holds of the adjacency storage of every graph a program can
    hold. *)
Definition invariant g : Prop :=
  wf g ∧ (AnyGraph.directed g = false → symmetric (storage g)).
End observations.

(** ** Example graphs: integer vertices, attributes named by strings *)

Section examples.
Import AnyGraph.
Local Open Scope Z_scope.

Definition graph : Type := AnyGraph.t Z string Z.

(** Integers and strings are copied by [copy.deepcopy] as they are. *)
Definition atoms : Graph.memo Z string Z := Graph.Memo id id id _ _.
Definition static_graph (dir : bool) (vs : list Z) : graph :=
  Static (StaticGraph.__cinit__ dir vs).
Definition dynamic_graph (dir : bool) (vs : list Z) : graph :=
  Dynamic (DynamicGraph.__cinit__ dir vs).

(** The weight [2.5], i.e. 5 * 2^50 * 2^-51. *)
Definition two_and_a_half : DTYPE_t :=
  S754_finite false 5629499534213120 (-51).

(** Vertices [1], [2], [3] and the undirected edge [(1, 2)]. *)
Definition one_edge_of_three (new : bool → list Z → graph) : graph :=
  after [AddEdge 1 2 one] (new false [1; 2; 3]).

(** Vertices [1], [2] and the undirected edge [(1, 2)] of weight [w]. *)
Definition one_edge (new : bool → list Z → graph) (w : DTYPE_t) : graph :=
  after [AddEdge 1 2 w] (new false [1; 2]).

(** The same with the attribute ["k"] on the edge. *)
Definition one_labelled_edge (new : bool → list Z → graph) : graph :=
  after [AddEdge 1 2 two_and_a_half; SetEdgeAttribute (1, 2) "k" 7]
        (new false [1; 2]).

(** Vertices [1], [2] and the attribute ["k"] on vertex [1]. *)
Definition one_labelled_vertex (new : bool → list Z → graph) : graph :=
  after [SetVertexAttribute 1 "k" 5] (new false [1; 2]).

(** No vertex at construction, then the vertices [vs] added in turn. *)
Definition grown (new : bool → list Z → graph) (vs : list Z) : graph :=
  after (AddVertex <$> vs) (new false []).

(** Two edges on disjoint vertex pairs. *)
Definition two_edges : list (Z * Z * DTYPE_t) :=
  [(1, 2, one); (3, 4, two_and_a_half)].
Definition two_edges_calls : list (op Z string Z) :=
  [AddEdge 1 2 one; AddEdge 3 4 two_and_a_half].

End examples.

(** * Properties *)

(** ** Python lists *)

Section pylist_facts.
Context {X : Type} `{EqDecision X}.
Implicit Types (x y : X) (l : list X).

Lemma index_Some x l i : index x l = Some i → l !! i = Some x.
Proof.
  revert i. induction l as [|y l IH]; intros i; simpl; [done|].
  case_decide as Hy; [intros [= <-]; by subst|].
  destruct (index x l) as [j|]; simpl; [|done].
  intros [= <-]. by apply IH.
Qed.

Lemma index_lt x l i : index x l = Some i → i < length l.
Proof. intros Hi. eapply lookup_lt_Some, index_Some, Hi. Qed.

Lemma index_None x l : index x l = None ↔ x ∉ l.
Proof.
  induction l as [|y l IH]; simpl.
  - split; [intros _; apply not_elem_of_nil|done].
  - case_decide as Hy.
    + subst. split; [done|]. intros Hn. destruct Hn. left.
    + destruct (index x l); simpl.
      * split; [done|]. intros Hn. exfalso. apply Hn. right.
        apply dec_stable. intros Hx. by apply IH in Hx.
      * split; [|done]. intros _. rewrite elem_of_cons.
        intros [->|Hx]; [done|]. by apply IH in Hx.
Qed.

Lemma index_is_Some x l : x ∈ l → ∃ i, index x l = Some i.
Proof.
  intros Hx. destruct (index x l) as [i|] eqn:Hi; [by exists i|].
  by apply index_None in Hi.
Qed.

(** Two values found at the same position are the same value. *)
Lemma index_inj x y l i : index x l = Some i → index y l = Some i → x = y.
Proof.
  intros Hx%index_Some Hy%index_Some. congruence.
Qed.

Lemma index_app_new x l : x ∉ l → index x (l ++ [x]) = Some (length l).
Proof.
  induction l as [|y l IH]; simpl; intros Hx.
  - by rewrite decide_True.
  - apply not_elem_of_cons in Hx as [Hxy Hx].
    rewrite decide_False by done. by rewrite IH.
Qed.

Lemma index_app_old x y l i : index x l = Some i → index x (l ++ [y]) = Some i.
Proof.
  revert i. induction l as [|z l IH]; intros i; simpl; [done|].
  case_decide; [done|].
  destruct (index x l) as [j|]; simpl; [|done].
  intros [= <-]. by rewrite (IH j).
Qed.

(** [l.remove(x)] deletes the position [l.index(x)]. *)
Lemma remove_index x l i : index x l = Some i → remove x l = Some (delete i l).
Proof.
  revert i. induction l as [|y l IH]; intros i; simpl; [done|].
  case_decide; [by intros [= <-]|].
  destruct (index x l) as [j|]; simpl; [|done].
  intros [= <-]. by rewrite (IH j).
Qed.

Lemma remove_app_new x l : x ∉ l → remove x (l ++ [x]) = Some l.
Proof.
  intros Hx. rewrite (remove_index _ _ _ (index_app_new x l Hx)).
  f_equal. induction l as [|y l IH]; simpl; [done|].
  f_equal. apply IH. by apply not_elem_of_cons in Hx as [_ ?].
Qed.

Lemma contains_true x l : contains x l = true ↔ x ∈ l.
Proof. unfold contains. apply bool_decide_eq_true. Qed.

Lemma contains_false x l : contains x l = false ↔ x ∉ l.
Proof. unfold contains. apply bool_decide_eq_false. Qed.
End pylist_facts.

(** ** Rows of cells *)


Section rows_facts.
Context {X : Type}.
Implicit Types (m : list (list X)) (row : list X) (x : X).

Lemma getitem_inr (l : list X) i x : getitem l i = inr x ↔ l !! i = Some x.
Proof. unfold getitem. destruct (l !! i); naive_solver. Qed.

Lemma getitem_inl (l : list X) i e :
  getitem l i = inl e ↔ e = IndexError ∧ length l ≤ i.
Proof.
  unfold getitem. destruct (l !! i) eqn:Hi.
  - apply lookup_lt_Some in Hi. split; [done|]. intros [_ ?]. lia.
  - apply lookup_ge_None in Hi. naive_solver.
Qed.

Lemma get2_inr m u v x :
  get2 m u v = inr x ↔ ∃ row, m !! u = Some row ∧ row !! v = Some x.
Proof.
  unfold get2, getitem. destruct (m !! u) as [row|]; [|naive_solver].
  destruct (row !! v) eqn:Hv; naive_solver.
Qed.

Lemma get2_square m u v :
  square m → u < length m → v < length m → ∃ x, get2 m u v = inr x.
Proof.
  intros Hsq Hu Hv. destruct (lookup_lt_is_Some_2 m u Hu) as [row Hrow].
  assert (length row = length m) as Hlen.
  { eapply (Forall_lookup_1 _ _ _ _ Hsq Hrow). }
  destruct (lookup_lt_is_Some_2 row v) as [x Hx]; [lia|].
  exists x. apply get2_inr. eauto.
Qed.

Lemma get2_square_inl m u v :
  square m → (length m ≤ u ∨ length m ≤ v) → get2 m u v = inl IndexError.
Proof.
  intros Hsq Hout. unfold get2, getitem.
  destruct (m !! u) as [row|] eqn:Hrow; [|done].
  assert (length row = length m) as Hlen.
  { eapply (Forall_lookup_1 _ _ _ _ Hsq Hrow). }
  destruct Hout as [Hu|Hv].
  - apply lookup_lt_Some in Hrow. lia.
  - rewrite lookup_ge_None_2; [done|lia].
Qed.

(** Reading a square store fails exactly outside of it, whichever way
    round the two positions are given. *)
Lemma get2_square_swap_inl m u v e :
  square m → get2 m u v = inl e → get2 m v u = inl e.
Proof.
  intros Hsq Huv.
  destruct (decide (u < length m)) as [Hu|Hu];
    [destruct (decide (v < length m)) as [Hv|Hv]|].
  - destruct (get2_square m u v Hsq Hu Hv) as [x Hx]. congruence.
  - rewrite get2_square_inl in Huv by (done || lia).
    rewrite get2_square_inl by (done || lia). done.
  - rewrite get2_square_inl in Huv by (done || lia).
    rewrite get2_square_inl by (done || lia). done.
Qed.

Lemma set2_inr m u v x m' :
  set2 m u v x = inr m' ↔
  ∃ row, m !! u = Some row ∧ v < length row ∧ m' = <[u := <[v := x]> row]> m.
Proof.
  unfold set2, getitem, setitem. destruct (m !! u) as [row|]; [|naive_solver].
  case_decide; naive_solver.
Qed.

Lemma set2_inl m u v x e : set2 m u v x = inl e → e = IndexError.
Proof.
  unfold set2, getitem, setitem. destruct (m !! u) as [row|]; [|naive_solver].
  case_decide; naive_solver.
Qed.

Lemma set2_square m u v x :
  square m → u < length m → v < length m → ∃ m', set2 m u v x = inr m'.
Proof.
  intros Hsq Hu Hv. destruct (lookup_lt_is_Some_2 m u Hu) as [row Hrow].
  assert (length row = length m) as Hlen.
  { eapply (Forall_lookup_1 _ _ _ _ Hsq Hrow). }
  eexists. apply set2_inr. exists row. split_and!; [done|lia|done].
Qed.

Lemma set2_length m u v x m' : set2 m u v x = inr m' → length m' = length m.
Proof. intros (row & _ & _ & ->)%set2_inr. by rewrite length_insert. Qed.

Lemma set2_preserves_square m u v x m' :
  square m → set2 m u v x = inr m' → square m'.
Proof.
  intros Hsq (row & Hrow & Hv & ->)%set2_inr. unfold square in *.
  rewrite length_insert. apply Forall_insert; [done|].
  rewrite length_insert. eapply (Forall_lookup_1 _ _ _ _ Hsq Hrow).
Qed.

Lemma get2_set2_eq m u v x m' : set2 m u v x = inr m' → get2 m' u v = inr x.
Proof.
  intros (row & Hrow & Hv & ->)%set2_inr. apply get2_inr.
  exists (<[v := x]> row). split.
  - apply list_lookup_insert_eq. by eapply lookup_lt_Some.
  - by apply list_lookup_insert_eq.
Qed.

Lemma get2_set2_ne m u v x m' i j :
  set2 m u v x = inr m' → (i, j) ≠ (u, v) → get2 m' i j = get2 m i j.
Proof.
  intros (row & Hrow & Hv & ->)%set2_inr Hne. unfold get2, getitem.
  destruct (decide (i = u)) as [->|Hi].
  - rewrite list_lookup_insert_eq by (by eapply lookup_lt_Some).
    rewrite Hrow. rewrite list_lookup_insert_ne by congruence. done.
  - by rewrite list_lookup_insert_ne.
Qed.
End rows_facts.

(** ** Running methods *)

Ltac unfold_methods :=
  unfold bind, ret, raise, gets, modify, warn, lift, zoom,
    Graph._get_vertex_int, Graph.set_vertex_attribute,
    Graph.get_vertex_attribute, Graph.has_vertex, Graph.set_edge_attribute,
    Graph.get_edge_attribute, Graph.set_vertices, Graph.set_vertex_attributes,
    Graph.set_edge_attributes,
    DynamicGraph.super, DynamicGraph.setcell, DynamicGraph.getcell,
    DynamicGraph.directed, DynamicGraph.vertices, DynamicGraph.set_base,
    DynamicGraph.set_matrix, DynamicGraph.vertex_attributes,
    DynamicGraph.edge_attributes,
    StaticGraph.super, StaticGraph.setcell, StaticGraph.getcell,
    StaticGraph.directed, StaticGraph.vertices, StaticGraph.set_base,
    StaticGraph.set_matrix, StaticGraph.set_view, StaticGraph.matrix,
    StaticGraph.vertex_attributes, StaticGraph.edge_attributes,
    view_get, view_set in *.

(** Rewrites the scrutinee of a stuck [match] with an equation at hand. *)
Ltac use_equation :=
  match goal with
  | Heq : ?x = _ |- context [match ?x with _ => _ end] => rewrite Heq
  end.

Ltac run := repeat (progress (unfold_methods; simpl; try use_equation)).

(** The same for the plumbing only, leaving the cell accesses folded. *)
Ltac run_plumbing :=
  repeat (progress (
    unfold bind, ret, raise, gets, modify, warn, lift, zoom,
      Graph._get_vertex_int, DynamicGraph.super, DynamicGraph.vertices,
      StaticGraph.super, StaticGraph.vertices in *;
    simpl; try use_equation)).

Section dynamic_runs.
Context {V K A : Type} `{Countable V, Countable K}.
Implicit Types (d : DynamicGraph.t V K A) (b : Graph.t V K A).
Implicit Types (m : list (list (option DTYPE_t))).

Lemma dyn_add_edge_no_v1 b m (v1 v2 : V) w :
  index v1 (Graph.vertices b) = None →
  DynamicGraph.add_edge v1 v2 w (DynamicGraph.mk b m)
  = Run (DynamicGraph.mk b m) [] (inl (ValueError NotInGraph)).
Proof. intros Hu. unfold DynamicGraph.add_edge. run. done. Qed.

Lemma dyn_add_edge_no_v2 b m (v1 v2 : V) w (u : nat) :
  index v1 (Graph.vertices b) = Some u →
  index v2 (Graph.vertices b) = None →
  DynamicGraph.add_edge v1 v2 w (DynamicGraph.mk b m)
  = Run (DynamicGraph.mk b m) [] (inl (ValueError NotInGraph)).
Proof. intros Hu Hv. unfold DynamicGraph.add_edge. run. done. Qed.

Lemma dyn_add_edge_run b m (v1 v2 : V) w (u v : nat) :
  index v1 (Graph.vertices b) = Some u →
  index v2 (Graph.vertices b) = Some v →
  DynamicGraph.add_edge v1 v2 w (DynamicGraph.mk b m)
  = let b' := Graph.set_edge_attributes (<[(v1, v2) := ∅]>) b in
    match set2 m u v (Some w) with
    | inl e => Run (DynamicGraph.mk b' m) [] (inl e)
    | inr m1 =>
        if Graph.directed b then Run (DynamicGraph.mk b' m1) [] (inr tt)
        else match set2 m1 v u (Some w) with
             | inl e => Run (DynamicGraph.mk b' m1) [] (inl e)
             | inr m2 => Run (DynamicGraph.mk b' m2) [] (inr tt)
             end
    end.
Proof.
  intros Hu Hv. unfold DynamicGraph.add_edge. destruct b as [dir vs va ea].
  simpl in *. run.
  destruct (set2 m u v (Some w)) as [e|m1]; simpl; [done|].
  destruct dir; simpl; [done|].
  destruct (set2 m1 v u (Some w)) as [e|m2]; simpl; done.
Qed.

Lemma dyn_remove_edge_no_v1 b m (v1 v2 : V) :
  index v1 (Graph.vertices b) = None →
  DynamicGraph.remove_edge v1 v2 (DynamicGraph.mk b m)
  = Run (DynamicGraph.mk b m) [] (inl (ValueError NotInGraph)).
Proof. intros Hu. unfold DynamicGraph.remove_edge. run. done. Qed.

Lemma dyn_remove_edge_no_v2 b m (v1 v2 : V) (u : nat) :
  index v1 (Graph.vertices b) = Some u →
  index v2 (Graph.vertices b) = None →
  DynamicGraph.remove_edge v1 v2 (DynamicGraph.mk b m)
  = Run (DynamicGraph.mk b m) [] (inl (ValueError NotInGraph)).
Proof. intros Hu Hv. unfold DynamicGraph.remove_edge. run. done. Qed.

Lemma dyn_remove_edge_run b m (v1 v2 : V) (u v : nat) :
  index v1 (Graph.vertices b) = Some u →
  index v2 (Graph.vertices b) = Some v →
  DynamicGraph.remove_edge v1 v2 (DynamicGraph.mk b m)
  = match get2 m u v with
    | inl e => Run (DynamicGraph.mk b m) [] (inl e)
    | inr None => Run (DynamicGraph.mk b m) [RemoveMissingEdge] (inr tt)
    | inr (Some _) =>
        match set2 m u v None with
        | inl e => Run (DynamicGraph.mk b m) [] (inl e)
        | inr m1 =>
            if Graph.directed b then Run (DynamicGraph.mk b m1) [] (inr tt)
            else match set2 m1 v u None with
                 | inl e => Run (DynamicGraph.mk b m1) [] (inl e)
                 | inr m2 => Run (DynamicGraph.mk b m2) [] (inr tt)
                 end
        end
    end.
Proof.
  intros Hu Hv. unfold DynamicGraph.remove_edge. destruct b as [dir vs va ea].
  simpl in *. run.
  destruct (get2 m u v) as [e|[w|]]; simpl; [done| |done]. run.
  destruct (set2 m u v None) as [e|m1]; simpl; [done|].
  destruct dir; simpl; [done|].
  destruct (set2 m1 v u None) as [e|m2]; simpl; done.
Qed.

Lemma dyn_has_edge_run b m (v1 v2 : V) :
  DynamicGraph.has_edge v1 v2 (DynamicGraph.mk b m)
  = Run (DynamicGraph.mk b m) []
      match index v1 (Graph.vertices b), index v2 (Graph.vertices b) with
      | Some u, Some v =>
          let+ c := get2 m u v in inr (bool_decide (c ≠ None))
      | _, _ => inr false
      end.
Proof.
  unfold DynamicGraph.has_edge. run.
  destruct (index v1 _) as [u|]; [|done].
  destruct (index v2 _) as [v|]; [|done]. run.
  destruct (get2 m u v); done.
Qed.

Lemma dyn_get_edge_weight_run b m (v1 v2 : V) :
  DynamicGraph.get_edge_weight v1 v2 (DynamicGraph.mk b m)
  = Run (DynamicGraph.mk b m) []
      match index v1 (Graph.vertices b), index v2 (Graph.vertices b) with
      | Some u, Some v =>
          let+ c := get2 m u v in
          match c with
          | Some w => inr w
          | None => inl (ValueError NoSuchEdge)
          end
      | _, _ => inl (ValueError NotInGraph)
      end.
Proof.
  unfold DynamicGraph.get_edge_weight. run.
  destruct (index v1 _) as [u|]; simpl; [|done].
  destruct (index v2 _) as [v|]; simpl; [|done]. run.
  destruct (get2 m u v) as [|[|]]; done.
Qed.

Lemma dyn_get_children_run b m (v1 : V) :
  DynamicGraph.get_children v1 (DynamicGraph.mk b m)
  = Run (DynamicGraph.mk b m) []
      match index v1 (Graph.vertices b) with
      | Some w => neighbours (Graph.vertices b) (λ u, get2 m w u)
      | None => inl (ValueError NotInGraph)
      end.
Proof.
  unfold DynamicGraph.get_children. run.
  destruct (index v1 _) as [u|]; done.
Qed.

Lemma dyn_get_parents_run b m (v1 : V) :
  DynamicGraph.get_parents v1 (DynamicGraph.mk b m)
  = Run (DynamicGraph.mk b m) []
      match index v1 (Graph.vertices b) with
      | Some w => neighbours (Graph.vertices b) (λ u, get2 m u w)
      | None => inl (ValueError NotInGraph)
      end.
Proof.
  unfold DynamicGraph.get_parents. run.
  destruct (index v1 _) as [u|]; done.
Qed.

(** The rows after [add_vertex]: one more cell in each, one more row. *)
Lemma dyn_add_vertex_run b m (v1 : V) :
  DynamicGraph.add_vertex v1 (DynamicGraph.mk b m)
  = let b1 := Graph.set_vertex_attributes (<[v1 := ∅]>) b in
    if contains v1 (Graph.vertices b)
    then Run (DynamicGraph.mk b1 m) [] (inl (ValueError AlreadyInGraph))
    else Run (DynamicGraph.mk (Graph.set_vertices (.++ [v1]) b1)
                (((.++ [None]) <$> m)
                   ++ [replicate (length (Graph.vertices b) + 1) None]))
             [] (inr tt).
Proof.
  unfold DynamicGraph.add_vertex. destruct b as [dir vs va ea]. run.
  destruct (contains v1 vs); simpl; [done|].
  rewrite length_app. simpl.
  replace (length m + 1 - 1) with (length m) by lia.
  rewrite take_app_length, drop_app_length. done.
Qed.

Lemma dyn_pop_rows b (m1 m2 : list (list (option DTYPE_t))) (u : nat) :
  Forall (λ row, u < length row) m2 →
  for_each (seq (length m1) (length m2)) (DynamicGraph.pop_in_row u)
    (DynamicGraph.mk b (m1 ++ m2))
  = Run (DynamicGraph.mk b (m1 ++ (delete u <$> m2))) [] (inr tt).
Proof.
  revert m1. induction m2 as [|row m2 IH]; intros m1 Hrows; simpl; [done|].
  apply Forall_cons in Hrows as [Hrow Hrows].
  unfold DynamicGraph.pop_in_row at 1. run.
  unfold getitem. rewrite list_lookup_middle by done. simpl.
  unfold pop. rewrite decide_True by done. simpl.
  rewrite (insert_app_r_alt m1 (row :: m2) (length m1)) by lia.
  rewrite Nat.sub_diag. simpl.
  specialize (IH (m1 ++ [delete u row]) Hrows).
  rewrite length_app in IH. simpl in IH.
  replace (length m1 + 1) with (S (length m1)) in IH by lia.
  rewrite <- !(assoc_L (++)) in IH. simpl in IH. rewrite IH. done.
Qed.

Lemma dyn_remove_vertex_absent b m (v1 : V) :
  index v1 (Graph.vertices b) = None →
  DynamicGraph.remove_vertex v1 (DynamicGraph.mk b m)
  = Run (DynamicGraph.mk b m) [] (inl (ValueError NotInGraph)).
Proof. intros Hu. unfold DynamicGraph.remove_vertex. run. done. Qed.

(** On rows that all reach position [u], row and column [u] go. *)
Lemma dyn_remove_vertex_run b m (v1 : V) (u : nat) :
  index v1 (Graph.vertices b) = Some u →
  u < length m → Forall (λ row, u < length row) m →
  DynamicGraph.remove_vertex v1 (DynamicGraph.mk b m)
  = Run (DynamicGraph.mk (Graph.set_vertices (delete u) b)
           (delete u <$> delete u m)) [] (inr tt).
Proof.
  intros Hu Hlen Hrows. unfold DynamicGraph.remove_vertex.
  destruct b as [dir vs va ea]. simpl in *. run.
  rewrite (remove_index _ _ _ Hu). run.
  unfold pop. rewrite decide_True by done. simpl.
  pose proof (dyn_pop_rows (Graph.mk dir (delete u vs) va ea) [] (delete u m) u)
    as Hloop. simpl in Hloop. rewrite Hloop; [done|].
  apply Forall_delete. done.
Qed.
End dynamic_runs.

Section static_runs.
Context {V K A : Type} `{Countable V, Countable K}.
Implicit Types (b : Graph.t V K A) (a : ndarray).
Implicit Types (mr : StaticGraph.matrix_ref).

Lemma sta_add_edge_no_v1 b mr a (v1 v2 : V) w :
  index v1 (Graph.vertices b) = None →
  StaticGraph.add_edge v1 v2 w (StaticGraph.mk b mr a)
  = Run (StaticGraph.mk b mr a) [] (inl (ValueError NotInGraph)).
Proof. intros Hu. unfold StaticGraph.add_edge. run. done. Qed.

Lemma sta_add_edge_no_v2 b mr a (v1 v2 : V) w (u : nat) :
  index v1 (Graph.vertices b) = Some u →
  index v2 (Graph.vertices b) = None →
  StaticGraph.add_edge v1 v2 w (StaticGraph.mk b mr a)
  = Run (StaticGraph.mk b mr a) [] (inl (ValueError NotInGraph)).
Proof. intros Hu Hv. unfold StaticGraph.add_edge. run. done. Qed.

Lemma sta_add_edge_run b mr a (v1 v2 : V) w (u v : nat) :
  index v1 (Graph.vertices b) = Some u →
  index v2 (Graph.vertices b) = Some v →
  StaticGraph.add_edge v1 v2 w (StaticGraph.mk b mr a)
  = let b' := Graph.set_edge_attributes (<[(v1, v2) := ∅]>) b in
    match set2 (rows a) u v w with
    | inl e => Run (StaticGraph.mk b' mr a) [] (inl e)
    | inr r1 =>
        let a1 := NDArray (ncols a) r1 in
        if Graph.directed b then Run (StaticGraph.mk b' mr a1) [] (inr tt)
        else match set2 r1 v u w with
             | inl e => Run (StaticGraph.mk b' mr a1) [] (inl e)
             | inr r2 =>
                 Run (StaticGraph.mk b' mr (NDArray (ncols a) r2)) [] (inr tt)
             end
    end.
Proof.
  intros Hu Hv. unfold StaticGraph.add_edge. destruct b as [dir vs va ea].
  simpl in *. run.
  destruct (set2 (rows a) u v w) as [e|r1]; simpl; [done|].
  destruct dir; simpl; [done|].
  destruct (set2 r1 v u w) as [e|r2]; simpl; done.
Qed.

Lemma sta_remove_edge_no_v1 b mr a (v1 v2 : V) :
  index v1 (Graph.vertices b) = None →
  StaticGraph.remove_edge v1 v2 (StaticGraph.mk b mr a)
  = Run (StaticGraph.mk b mr a) [] (inl (ValueError NotInGraph)).
Proof. intros Hu. unfold StaticGraph.remove_edge. run. done. Qed.

Lemma sta_remove_edge_no_v2 b mr a (v1 v2 : V) (u : nat) :
  index v1 (Graph.vertices b) = Some u →
  index v2 (Graph.vertices b) = None →
  StaticGraph.remove_edge v1 v2 (StaticGraph.mk b mr a)
  = Run (StaticGraph.mk b mr a) [] (inl (ValueError NotInGraph)).
Proof. intros Hu Hv. unfold StaticGraph.remove_edge. run. done. Qed.

Lemma sta_remove_edge_run b mr a (v1 v2 : V) (u v : nat) :
  index v1 (Graph.vertices b) = Some u →
  index v2 (Graph.vertices b) = Some v →
  StaticGraph.remove_edge v1 v2 (StaticGraph.mk b mr a)
  = match get2 (rows a) u v with
    | inl e => Run (StaticGraph.mk b mr a) [] (inl e)
    | inr w =>
        if isnan w
        then Run (StaticGraph.mk b mr a) [RemoveMissingEdge] (inr tt)
        else
          match set2 (rows a) u v nan with
          | inl e => Run (StaticGraph.mk b mr a) [] (inl e)
          | inr r1 =>
              let a1 := NDArray (ncols a) r1 in
              if Graph.directed b then Run (StaticGraph.mk b mr a1) [] (inr tt)
              else match set2 r1 v u nan with
                   | inl e => Run (StaticGraph.mk b mr a1) [] (inl e)
                   | inr r2 =>
                       Run (StaticGraph.mk b mr (NDArray (ncols a) r2)) []
                           (inr tt)
                   end
          end
    end.
Proof.
  intros Hu Hv. unfold StaticGraph.remove_edge. destruct b as [dir vs va ea].
  simpl in *. run.
  destruct (get2 (rows a) u v) as [e|w]; simpl; [done|].
  destruct (isnan w); simpl; [done|]. run.
  destruct (set2 (rows a) u v nan) as [e|r1]; simpl; [done|].
  destruct dir; simpl; [done|].
  destruct (set2 r1 v u nan) as [e|r2]; simpl; done.
Qed.

Lemma sta_has_edge_run b mr a (v1 v2 : V) :
  StaticGraph.has_edge v1 v2 (StaticGraph.mk b mr a)
  = Run (StaticGraph.mk b mr a) []
      match index v1 (Graph.vertices b), index v2 (Graph.vertices b) with
      | Some u, Some v =>
          let+ w := get2 (rows a) u v in inr (negb (isnan w))
      | _, _ => inr false
      end.
Proof.
  unfold StaticGraph.has_edge. run.
  destruct (index v1 _) as [u|]; [|done].
  destruct (index v2 _) as [v|]; [|done]. run.
  destruct (get2 (rows a) u v); done.
Qed.

Lemma sta_get_edge_weight_run b mr a (v1 v2 : V) :
  StaticGraph.get_edge_weight v1 v2 (StaticGraph.mk b mr a)
  = Run (StaticGraph.mk b mr a) []
      match index v1 (Graph.vertices b), index v2 (Graph.vertices b) with
      | Some u, Some v =>
          let+ w := get2 (rows a) u v in
          if isnan w then inl (ValueError NoSuchEdge) else inr w
      | _, _ => inl (ValueError NotInGraph)
      end.
Proof.
  unfold StaticGraph.get_edge_weight. run.
  destruct (index v1 _) as [u|]; simpl; [|done].
  destruct (index v2 _) as [v|]; simpl; [|done]. run.
  destruct (get2 (rows a) u v) as [|w]; simpl; [done|].
  destruct (isnan w); done.
Qed.

Lemma sta_get_children_run b mr a (v1 : V) :
  StaticGraph.get_children v1 (StaticGraph.mk b mr a)
  = Run (StaticGraph.mk b mr a) []
      match index v1 (Graph.vertices b) with
      | Some w => neighbours (Graph.vertices b) (λ u, StaticGraph.getcell a w u)
      | None => inl (ValueError NotInGraph)
      end.
Proof.
  unfold StaticGraph.get_children.
  run_plumbing. destruct (index v1 _) as [u|]; simpl; done.
Qed.

Lemma sta_get_parents_run b mr a (v1 : V) :
  StaticGraph.get_parents v1 (StaticGraph.mk b mr a)
  = Run (StaticGraph.mk b mr a) []
      match index v1 (Graph.vertices b) with
      | Some w => neighbours (Graph.vertices b) (λ u, StaticGraph.getcell a u w)
      | None => inl (ValueError NotInGraph)
      end.
Proof.
  unfold StaticGraph.get_parents.
  run_plumbing. destruct (index v1 _) as [u|]; simpl; done.
Qed.

Lemma sta_add_vertex_run b mr a (v1 : V) :
  StaticGraph.add_vertex v1 (StaticGraph.mk b mr a)
  = let n := length (Graph.vertices b) in
    let b1 := Graph.set_vertex_attributes (<[v1 := ∅]>) b in
    let b2 := Graph.set_vertices (.++ [v1]) b1 in
    if contains v1 (Graph.vertices b)
    then Run (StaticGraph.mk b1 mr a) [] (inl (ValueError AlreadyInGraph))
    else if decide (n = 0)
    then Run (StaticGraph.mk b2 (StaticGraph.Reallocated (np_full 1 1 nan)) a)
             [] (inr tt)
    else match np_append0 (StaticGraph.matrix (StaticGraph.mk b mr a))
                 (np_full 1 n nan) with
         | inl e => Run (StaticGraph.mk b2 mr a) [] (inl e)
         | inr a' =>
             match np_append1 a' (np_full (n + 1) 1 nan) with
             | inl e =>
                 Run (StaticGraph.mk b2 (StaticGraph.Reallocated a') a) []
                     (inl e)
             | inr a'' =>
                 Run (StaticGraph.mk b2 (StaticGraph.Reallocated a'') a) []
                     (inr tt)
             end
         end.
Proof.
  unfold StaticGraph.add_vertex. destruct b as [dir vs va ea]. run.
  destruct (contains v1 vs); simpl; [done|].
  destruct (decide (length vs = 0)); simpl; [done|].
  match goal with |- context [np_append0 ?x ?y] =>
    destruct (np_append0 x y) as [e|a'] end; simpl; [done|].
  destruct (np_append1 a' _) as [e|a'']; simpl; done.
Qed.

Lemma sta_remove_vertex_absent b mr a (v1 : V) :
  index v1 (Graph.vertices b) = None →
  StaticGraph.remove_vertex v1 (StaticGraph.mk b mr a)
  = Run (StaticGraph.mk b mr a) [] (inl (ValueError NotInGraph)).
Proof. intros Hu. unfold StaticGraph.remove_vertex. run. done. Qed.

(** Only [vertices] changes: no cell of any array does. *)
Lemma sta_remove_vertex_run b mr a (v1 : V) (u : nat) :
  index v1 (Graph.vertices b) = Some u →
  StaticGraph.remove_vertex v1 (StaticGraph.mk b mr a)
  = let s' := StaticGraph.mk (Graph.set_vertices (delete u) b) mr a in
    let mat := StaticGraph.matrix (StaticGraph.mk b mr a) in
    match np_delete1 mat u with
    | inl e => Run s' [] (inl e)
    | inr _ =>
        match np_delete0 mat u with
        | inl e => Run s' [] (inl e)
        | inr _ => Run s' [] (inr tt)
        end
    end.
Proof.
  intros Hu. unfold StaticGraph.remove_vertex.
  destruct b as [dir vs va ea]. simpl in *. run.
  rewrite (remove_index _ _ _ Hu). run.
  match goal with |- context [np_delete1 ?x ?y] =>
    destruct (np_delete1 x y) as [e|?] end; simpl; [done|].
  match goal with |- context [np_delete0 ?x ?y] =>
    destruct (np_delete0 x y) as [e|?] end; simpl; done.
Qed.
End static_runs.

(** ** Loops *)

Lemma foldM_ext {X B} (f f' : B → X → exn + B) acc xs :
  (∀ b x, x ∈ xs → f b x = f' b x) → foldM f acc xs = foldM f' acc xs.
Proof.
  revert acc. induction xs as [|x xs IH]; intros acc Hext; simpl; [done|].
  rewrite Hext by left. destruct (f' acc x) as [e|acc']; [done|].
  apply IH. intros b' y Hy. apply Hext. by right.
Qed.

Lemma foldM_app {X B} (f : B → X → exn + B) acc xs ys :
  foldM f acc (xs ++ ys)
  = match foldM f acc xs with inl e => inl e | inr acc' => foldM f acc' ys end.
Proof.
  revert acc. induction xs as [|x xs IH]; intros acc; simpl; [done|].
  destruct (f acc x); [done|]. apply IH.
Qed.

(** ** The storage of either class *)

Section storage_facts.
Context {X Y : Type} (f : X → Y).
Implicit Types m : list (list X).

Lemma get2_fmap m u v :
  get2 ((λ row : list X, f <$> row) <$> m) u v
  = match get2 m u v with inl e => inl e | inr x => inr (f x) end.
Proof.
  unfold get2, getitem. rewrite list_lookup_fmap.
  destruct (m !! u) as [row|]; simpl; [|done].
  rewrite list_lookup_fmap. by destruct (row !! v).
Qed.

Lemma set2_fmap m u v x :
  set2 ((λ row : list X, f <$> row) <$> m) u v (f x)
  = match set2 m u v x with
    | inl e => inl e
    | inr m' => inr ((λ row : list X, f <$> row) <$> m')
    end.
Proof.
  unfold set2, getitem, setitem. rewrite list_lookup_fmap.
  destruct (m !! u) as [row|]; simpl; [|done].
  rewrite length_fmap. case_decide; [|done].
  by rewrite !list_fmap_insert.
Qed.

Lemma square_fmap m : square ((λ row : list X, f <$> row) <$> m) ↔ square m.
Proof.
  unfold square. rewrite Forall_fmap, length_fmap.
  apply Forall_proper; [|done]. intros row. simpl. by rewrite length_fmap.
Qed.
End storage_facts.

Section symmetric_facts.
Context {X : Type}.
Implicit Types m : list (list X).

Lemma symmetric_set2 m m1 m2 u v x :
  symmetric m → set2 m u v x = inr m1 → set2 m1 v u x = inr m2 →
  symmetric m2.
Proof.
  intros Hsym H1 H2 i j.
  destruct (decide ((i, j) = (v, u))) as [[= -> ->]|Hvu].
  { rewrite (get2_set2_eq _ _ _ _ _ H2).
    destruct (decide ((u, v) = (v, u))) as [[= ->]|Huv].
    - by rewrite (get2_set2_eq _ _ _ _ _ H2).
    - rewrite (get2_set2_ne _ _ _ _ _ _ _ H2) by done.
      by rewrite (get2_set2_eq _ _ _ _ _ H1). }
  rewrite (get2_set2_ne _ _ _ _ _ _ _ H2) by done.
  destruct (decide ((i, j) = (u, v))) as [[= -> ->]|Huv].
  { rewrite (get2_set2_eq _ _ _ _ _ H1).
    by rewrite (get2_set2_eq _ _ _ _ _ H2). }
  rewrite (get2_set2_ne _ _ _ _ _ _ _ H1) by done.
  rewrite (get2_set2_ne _ _ _ _ _ _ _ H2) by congruence.
  rewrite (get2_set2_ne _ _ _ _ _ _ _ H1) by congruence.
  apply Hsym.
Qed.

(** On a square store the second write of an undirected edge cannot
    fail once the first went through. *)
Lemma set2_swap_square m m1 u v x y :
  square m → set2 m u v x = inr m1 → ∃ m2, set2 m1 v u y = inr m2.
Proof.
  intros Hsq H1. pose proof (set2_preserves_square _ _ _ _ _ Hsq H1) as Hsq1.
  pose proof (set2_length _ _ _ _ _ H1) as Hlen.
  apply set2_inr in H1 as (row & Hrow & Hv & ->).
  pose proof (Forall_lookup_1 _ _ _ _ Hsq Hrow) as Hrowlen. simpl in Hrowlen.
  apply lookup_lt_Some in Hrow.
  apply set2_square; [done|lia..].
Qed.
End symmetric_facts.

(** ** What the methods do to a graph of either class *)

Section effects.
Context {V K A : Type} `{Countable V, Countable K}.
Implicit Types g : AnyGraph.t V K A.

Lemma sta_getcell_storage (a : ndarray) (u v : nat) :
  StaticGraph.getcell a u v
  = get2 ((λ row : list DTYPE_t, not_nan <$> row) <$> rows a) u v.
Proof. unfold StaticGraph.getcell, view_get. by rewrite get2_fmap. Qed.

Lemma cell_storage g (u v : nat) : AnyGraph.cell g u v = get2 (storage g) u v.
Proof.
  destruct g as [[b mr a]|[b m]]; simpl; [|done]. apply sta_getcell_storage.
Qed.

Lemma same_vertices_refl g : same_vertices g g.
Proof. done. Qed.

Lemma has_edge_run g (v1 v2 : V) :
  AnyGraph.has_edge v1 v2 g
  = Run g []
      match index v1 (AnyGraph.vertices g), index v2 (AnyGraph.vertices g) with
      | Some u, Some v =>
          let+ c := get2 (storage g) u v in inr (bool_decide (c ≠ None))
      | _, _ => inr false
      end.
Proof.
  destruct g as [[b mr a]|[b m]]; unfold AnyGraph.has_edge; simpl.
  - rewrite sta_has_edge_run. f_equal. unfold AnyGraph.vertices. simpl.
    destruct (index v1 _) as [u|]; [|done].
    destruct (index v2 _) as [v|]; [|done].
    rewrite get2_fmap. destruct (get2 (rows a) u v) as [e|w]; [done|].
    unfold not_nan. by destruct (isnan w).
  - by rewrite dyn_has_edge_run.
Qed.

Lemma get_edge_weight_run g (v1 v2 : V) :
  AnyGraph.get_edge_weight v1 v2 g
  = Run g []
      match index v1 (AnyGraph.vertices g), index v2 (AnyGraph.vertices g) with
      | Some u, Some v =>
          let+ c := get2 (storage g) u v in
          match c with
          | Some w => inr w
          | None => inl (ValueError NoSuchEdge)
          end
      | _, _ => inl (ValueError NotInGraph)
      end.
Proof.
  destruct g as [[b mr a]|[b m]]; unfold AnyGraph.get_edge_weight; simpl.
  - rewrite sta_get_edge_weight_run. f_equal. unfold AnyGraph.vertices. simpl.
    destruct (index v1 _) as [u|]; [|done].
    destruct (index v2 _) as [v|]; [|done].
    rewrite get2_fmap. destruct (get2 (rows a) u v) as [e|w]; [done|].
    unfold not_nan. by destruct (isnan w).
  - by rewrite dyn_get_edge_weight_run.
Qed.

Lemma get_children_run g (v1 : V) :
  AnyGraph.get_children v1 g
  = Run g []
      match index v1 (AnyGraph.vertices g) with
      | Some w => neighbours (AnyGraph.vertices g) (λ u, get2 (storage g) w u)
      | None => inl (ValueError NotInGraph)
      end.
Proof.
  destruct g as [[b mr a]|[b m]]; unfold AnyGraph.get_children; simpl.
  - rewrite sta_get_children_run. f_equal. unfold AnyGraph.vertices. simpl.
    destruct (index v1 _) as [w|]; [|done].
    apply foldM_ext. intros found u _.
    by rewrite sta_getcell_storage.
  - by rewrite dyn_get_children_run.
Qed.

Lemma get_parents_run g (v1 : V) :
  AnyGraph.get_parents v1 g
  = Run g []
      match index v1 (AnyGraph.vertices g) with
      | Some w => neighbours (AnyGraph.vertices g) (λ u, get2 (storage g) u w)
      | None => inl (ValueError NotInGraph)
      end.
Proof.
  destruct g as [[b mr a]|[b m]]; unfold AnyGraph.get_parents; simpl.
  - rewrite sta_get_parents_run. f_equal. unfold AnyGraph.vertices. simpl.
    destruct (index v1 _) as [w|]; [|done].
    apply foldM_ext. intros found u _.
    by rewrite sta_getcell_storage.
  - by rewrite dyn_get_parents_run.
Qed.

Lemma edges_storage g :
  AnyGraph.edges g
  = scan_edges (get2 (storage g)) (AnyGraph.vertices g) (AnyGraph.directed g).
Proof.
  destruct g as [[b mr a]|[b m]]; simpl; [|done].
  unfold StaticGraph.edges, scan_edges. apply foldM_ext. intros acc [u v] _.
  unfold edges_step. simpl.
  by rewrite sta_getcell_storage.
Qed.

(** A method of the base class touches the base part only. *)
Lemma super_run {B} (m : M (Graph.t V K A) B) g :
  AnyGraph.dispatch (StaticGraph.super m) (DynamicGraph.super m) g
  = match m (AnyGraph.base g) with
    | Run b' ws x => Run (AnyGraph.with_base b' g) ws x
    end.
Proof.
  destruct g as [[b mr a]|[b m']]; simpl;
    unfold StaticGraph.super, DynamicGraph.super, zoom; simpl;
    by destruct (m b).
Qed.

Lemma add_edge_effect g (v1 v2 : V) w :
  let r := AnyGraph.add_edge v1 v2 w g in
  warned r = [] ∧ same_vertices g (final r) ∧
  match index v1 (AnyGraph.vertices g), index v2 (AnyGraph.vertices g) with
  | Some u, Some v =>
      AnyGraph.edge_attributes (final r)
      = <[(v1, v2) := ∅]> (AnyGraph.edge_attributes g) ∧
      match set2 (storage g) u v (stored g w) with
      | inl e => value r = inl e ∧ storage (final r) = storage g
      | inr m1 =>
          if AnyGraph.directed g
          then value r = inr tt ∧ storage (final r) = m1
          else match set2 m1 v u (stored g w) with
               | inl e => value r = inl e ∧ storage (final r) = m1
               | inr m2 => value r = inr tt ∧ storage (final r) = m2
               end
      end
  | _, _ => value r = inl (ValueError NotInGraph) ∧ final r = g
  end.
Proof.
  destruct g as [[b mr a]|[b m]]; unfold AnyGraph.add_edge, same_vertices,
    AnyGraph.vertices, AnyGraph.directed, AnyGraph.edge_attributes,
    AnyGraph.vertex_attributes; simpl.
  - destruct (index v1 _) as [u|] eqn:Hu;
      [|by rewrite sta_add_edge_no_v1].
    destruct (index v2 _) as [v|] eqn:Hv;
      [|by rewrite (sta_add_edge_no_v2 _ _ _ _ _ _ u)].
    rewrite (sta_add_edge_run _ _ _ _ _ _ u v) by done. simpl.
    rewrite set2_fmap.
    destruct (set2 (rows a) u v w) as [e|r1] eqn:H1; simpl; [done|].
    assert (length r1 = length (rows a)) as Hlen1 by by eapply set2_length.
    destruct (Graph.directed b) eqn:Hdir; simpl.
    { split_and!; try done. destruct mr; simpl; [|done].
      unfold StaticGraph.matrix, nrows. simpl. by rewrite Hlen1. }
    rewrite set2_fmap.
    destruct (set2 r1 v u w) as [e|r2] eqn:H2; simpl.
    { split_and!; try done. destruct mr; simpl; [|done].
      unfold StaticGraph.matrix, nrows. simpl. by rewrite Hlen1. }
    assert (length r2 = length r1) as Hlen2 by by eapply set2_length.
    split_and!; try done. destruct mr; simpl; [|done].
    unfold StaticGraph.matrix, nrows. simpl. by rewrite Hlen2, Hlen1.
  - destruct (index v1 _) as [u|] eqn:Hu;
      [|by rewrite dyn_add_edge_no_v1].
    destruct (index v2 _) as [v|] eqn:Hv;
      [|by rewrite (dyn_add_edge_no_v2 _ _ _ _ _ u)].
    rewrite (dyn_add_edge_run _ _ _ _ _ u v) by done. simpl.
    destruct (set2 m u v (Some w)) as [e|m1]; simpl; [done|].
    destruct (Graph.directed b) eqn:Hdir; simpl; [done|].
    destruct (set2 m1 v u (Some w)) as [e|m2]; simpl; done.
Qed.
End effects.

Section effects2.
Context {V K A : Type} `{Countable V, Countable K}.
Implicit Types g : AnyGraph.t V K A.

Lemma remove_edge_effect g (v1 v2 : V) :
  let r := AnyGraph.remove_edge v1 v2 g in
  same_vertices g (final r)
  ∧ AnyGraph.edge_attributes (final r) = AnyGraph.edge_attributes g ∧
  match index v1 (AnyGraph.vertices g), index v2 (AnyGraph.vertices g) with
  | Some u, Some v =>
      match get2 (storage g) u v with
      | inl e => value r = inl e ∧ warned r = [] ∧ final r = g
      | inr None =>
          value r = inr tt ∧ warned r = [RemoveMissingEdge] ∧ final r = g
      | inr (Some _) =>
          warned r = [] ∧
          match set2 (storage g) u v None with
          | inl e => value r = inl e ∧ storage (final r) = storage g
          | inr m1 =>
              if AnyGraph.directed g
              then value r = inr tt ∧ storage (final r) = m1
              else match set2 m1 v u None with
                   | inl e => value r = inl e ∧ storage (final r) = m1
                   | inr m2 => value r = inr tt ∧ storage (final r) = m2
                   end
          end
      end
  | _, _ => value r = inl (ValueError NotInGraph) ∧ warned r = [] ∧ final r = g
  end.
Proof.
  destruct g as [[b mr a]|[b m]]; unfold AnyGraph.remove_edge, same_vertices,
    AnyGraph.vertices, AnyGraph.directed, AnyGraph.edge_attributes,
    AnyGraph.vertex_attributes; simpl.
  - destruct (index v1 _) as [u|] eqn:Hu;
      [|by rewrite sta_remove_edge_no_v1].
    destruct (index v2 _) as [v|] eqn:Hv;
      [|by rewrite (sta_remove_edge_no_v2 _ _ _ _ _ u)].
    rewrite (sta_remove_edge_run _ _ _ _ _ u v) by done. simpl.
    rewrite get2_fmap.
    destruct (get2 (rows a) u v) as [e|w] eqn:Hget; simpl; [done|].
    unfold not_nan at 1. destruct (isnan w) eqn:Hnan; simpl; [done|].
    change (@None DTYPE_t) with (not_nan nan). rewrite set2_fmap.
    destruct (set2 (rows a) u v nan) as [e|r1] eqn:H1; simpl; [done|].
    assert (length r1 = length (rows a)) as Hlen1 by by eapply set2_length.
    destruct (Graph.directed b) eqn:Hdir; simpl.
    { split_and!; try done. destruct mr; simpl; [|done].
      unfold StaticGraph.matrix, nrows. simpl. by rewrite Hlen1. }
    rewrite set2_fmap.
    destruct (set2 r1 v u nan) as [e|r2] eqn:H2; simpl.
    { split_and!; try done. destruct mr; simpl; [|done].
      unfold StaticGraph.matrix, nrows. simpl. by rewrite Hlen1. }
    assert (length r2 = length r1) as Hlen2 by by eapply set2_length.
    split_and!; try done. destruct mr; simpl; [|done].
    unfold StaticGraph.matrix, nrows. simpl. by rewrite Hlen2, Hlen1.
  - destruct (index v1 _) as [u|] eqn:Hu;
      [|by rewrite dyn_remove_edge_no_v1].
    destruct (index v2 _) as [v|] eqn:Hv;
      [|by rewrite (dyn_remove_edge_no_v2 _ _ _ _ u)].
    rewrite (dyn_remove_edge_run _ _ _ _ u v) by done. simpl.
    destruct (get2 m u v) as [e|[w|]]; simpl; [done| |done].
    destruct (set2 m u v None) as [e|m1]; simpl; [done|].
    destruct (Graph.directed b) eqn:Hdir; simpl; [done|].
    destruct (set2 m1 v u None) as [e|m2]; simpl; done.
Qed.
End effects2.

(** ** Growing and shrinking rows *)

Section resize.
Context {X : Type}.
Implicit Types (m : list (list X)) (x : X).

(** The rows after [DynamicGraph.add_vertex]. *)
Lemma get2_grow m x (i j : nat) :
  square m →
  get2 (((.++ [x]) <$> m) ++ [replicate (length m + 1) x]) i j
  = if decide (i < length m ∧ j < length m) then get2 m i j
    else if decide (i ≤ length m ∧ j ≤ length m) then inr x
    else inl IndexError.
Proof.
  intros Hsq. unfold get2, getitem.
  destruct (decide (i < length m)) as [Hi|Hi].
  - rewrite lookup_app_l by (by rewrite length_fmap).
    rewrite list_lookup_fmap.
    destruct (lookup_lt_is_Some_2 m i Hi) as [row Hrow]. rewrite Hrow. simpl.
    pose proof (Forall_lookup_1 _ _ _ _ Hsq Hrow) as Hlen. simpl in Hlen.
    destruct (decide (j < length m)) as [Hj|Hj].
    + rewrite decide_True by done. by rewrite lookup_app_l by lia.
    + rewrite decide_False by lia.
      destruct (decide (j = length m)) as [->|Hj'].
      * rewrite decide_True by lia.
        rewrite lookup_app_r by lia. by rewrite Hlen, Nat.sub_diag.
      * rewrite decide_False by lia.
        rewrite lookup_ge_None_2; [done|]. rewrite length_app. simpl. lia.
  - rewrite decide_False by lia.
    destruct (decide (i = length m)) as [->|Hi'].
    + rewrite lookup_app_r by (by rewrite length_fmap).
      rewrite length_fmap, Nat.sub_diag. simpl.
      destruct (decide (j ≤ length m)) as [Hj|Hj].
      * rewrite decide_True by lia.
        rewrite lookup_replicate_2 by lia. done.
      * rewrite decide_False by lia.
        rewrite lookup_ge_None_2; [done|]. rewrite length_replicate. lia.
    + rewrite decide_False by lia.
      rewrite lookup_ge_None_2; [done|].
      rewrite length_app, length_fmap. simpl. lia.
Qed.

Lemma square_grow m x :
  square m → square (((.++ [x]) <$> m) ++ [replicate (length m + 1) x]).
Proof.
  intros Hsq. unfold square in *.
  rewrite length_app, length_fmap. simpl.
  apply Forall_app. split.
  - apply Forall_fmap. eapply Forall_impl; [exact Hsq|].
    intros row Hrow. simpl in *. rewrite length_app. simpl. lia.
  - apply Forall_singleton. by rewrite length_replicate.
Qed.

Lemma symmetric_grow m x :
  square m → symmetric m →
  symmetric (((.++ [x]) <$> m) ++ [replicate (length m + 1) x]).
Proof.
  intros Hsq Hsym i j. rewrite !get2_grow by done.
  repeat case_decide; first [apply Hsym | done | lia].
Qed.

Lemma lookup_delete_skip {Y} (l : list Y) (u i : nat) :
  delete u l !! i = l !! skip u i.
Proof.
  unfold skip. case_decide.
  - by apply list_lookup_delete_lt.
  - apply list_lookup_delete_ge. lia.
Qed.

(** The rows after [DynamicGraph.remove_vertex]. *)
Lemma get2_shrink m (u i j : nat) :
  get2 (delete u <$> delete u m) i j = get2 m (skip u i) (skip u j).
Proof.
  unfold get2, getitem. rewrite list_lookup_fmap, lookup_delete_skip.
  destruct (m !! skip u i) as [row|]; simpl; [|done].
  by rewrite lookup_delete_skip.
Qed.

Lemma symmetric_shrink m (u : nat) :
  symmetric m → symmetric (delete u <$> delete u m).
Proof. intros Hsym i j. rewrite !get2_shrink. apply Hsym. Qed.

Lemma square_shrink m (u : nat) :
  square m → u < length m → square (delete u <$> delete u m).
Proof.
  intros Hsq Hu. unfold square in *.
  rewrite length_fmap, length_delete by (by apply lookup_lt_is_Some_2).
  apply Forall_fmap, Forall_delete. eapply Forall_impl; [exact Hsq|].
  intros row Hrow. simpl in *. rewrite length_delete; [lia|].
  apply lookup_lt_is_Some_2. lia.
Qed.

(** Growing by one and deleting the new position gives the rows back. *)
Lemma shrink_grow m x :
  square m →
  delete (length m)
    <$> delete (length m) (((.++ [x]) <$> m) ++ [replicate (length m + 1) x])
  = m.
Proof.
  intros Hsq.
  pose proof (delete_middle ((.++ [x]) <$> m) [] (replicate (length m + 1) x))
    as Hrow. rewrite length_fmap, app_nil_r in Hrow. rewrite Hrow.
  rewrite <- list_fmap_compose.
  transitivity (id <$> m); [|apply list_fmap_id].
  apply Forall_fmap_ext_1. eapply Forall_impl; [exact Hsq|].
  intros row Hlen. simpl in *. rewrite <- Hlen.
  pose proof (delete_middle row [] x) as Hcell.
  by rewrite app_nil_r in Hcell.
Qed.
End resize.

(** ** Sequencing *)

Section sequencing.
Context {S B C : Type}.

Lemma bind_inl (m : M S B) (k : B → M S C) s s' ws e :
  m s = Run s' ws (inl e) → bind m k s = Run s' ws (inl e).
Proof. unfold bind. by intros ->. Qed.

Lemma bind_inr (m : M S B) (k : B → M S C) s s' ws b :
  m s = Run s' ws (inr b) →
  bind m k s = Run (final (k b s')) (ws ++ warned (k b s')) (value (k b s')).
Proof. unfold bind. intros ->. by destruct (k b s'). Qed.

Lemma final_bind (m : M S B) (k : B → M S C) s :
  final (bind m k s)
  = match value (m s) with
    | inl _ => final (m s)
    | inr b => final (k b (final (m s)))
    end.
Proof.
  unfold bind. destruct (m s) as [s' ws [e|b]]; simpl; [done|].
  by destruct (k b s').
Qed.
End sequencing.

Lemma for_each_preserves {S X} (P : S → Prop) (body : X → M S unit) xs s :
  (∀ x s', P s' → P (final (body x s'))) →
  P s → P (final (for_each xs body s)).
Proof.
  intros Hbody. revert s. induction xs as [|x xs IH]; intros s Hs; simpl; [done|].
  rewrite final_bind. destruct (value (body x s)); [by apply Hbody|].
  apply IH. by apply Hbody.
Qed.

(** ** The methods of the base class *)

Section base_effects.
Context {V K A : Type} `{Countable V, Countable K}.
Implicit Types b : Graph.t V K A.

Lemma set_vertex_attribute_keys b (v : V) key val :
  same_keys b (final (Graph.set_vertex_attribute v key val b)).
Proof.
  destruct b as [dir vs va ea]. unfold Graph.set_vertex_attribute. run.
  destruct (va !! v) as [d|] eqn:Hv; simpl; [|done].
  split_and!; try done. simpl. rewrite dom_insert_L.
  apply elem_of_dom_2 in Hv. set_solver.
Qed.

Lemma get_vertex_attribute_final b (v : V) key :
  final (Graph.get_vertex_attribute v key b) = b.
Proof.
  destruct b as [dir vs va ea]. unfold Graph.get_vertex_attribute. run.
  destruct (va !! v) as [d|]; simpl; [|done]. by destruct (d !! key).
Qed.

Lemma has_vertex_final b (v : V) : final (Graph.has_vertex v b) = b.
Proof. by destruct b. Qed.

Lemma set_edge_attribute_keys b (e : V * V) key val :
  same_keys b (final (Graph.set_edge_attribute e key val b)).
Proof.
  destruct b as [dir vs va ea]. unfold Graph.set_edge_attribute. run.
  destruct (ea !! e) as [d|]; simpl; [done|].
  destruct dir; simpl; [done|].
  destruct (ea !! (e.2, e.1)); simpl; done.
Qed.

Lemma get_edge_attribute_final b (e : V * V) key :
  final (Graph.get_edge_attribute e key b) = b.
Proof.
  destruct b as [dir vs va ea]. unfold Graph.get_edge_attribute. run.
  destruct (ea !! e) as [d|]; simpl.
  { by destruct (d !! key). }
  destruct dir; simpl; [done|].
  destruct (ea !! (e.2, e.1)) as [d|]; simpl; [|done]. by destruct (d !! key).
Qed.
End base_effects.

(** ** The invariant of reachable graphs *)

Section invariants.
Context {V K A : Type} `{Countable V, Countable K}.
Implicit Types g : AnyGraph.t V K A.

Lemma final_answering {B} (f : B → AnyGraph.answer V A) (m : M _ B) g :
  final (AnyGraph.answering f m g) = final (m g).
Proof. unfold AnyGraph.answering, bind, ret. by destruct (m g) as [? ? [|]]. Qed.

Lemma value_answering {B} (f : B → AnyGraph.answer V A) (m : M _ B) g :
  value (AnyGraph.answering f m g)
  = match value (m g) with inl e => inl e | inr b => inr (f b) end.
Proof. unfold AnyGraph.answering, bind, ret. by destruct (m g) as [? ? [|]]. Qed.

Lemma square_replicate {X} n (x : X) : square (replicate n (replicate n x)).
Proof.
  unfold square. rewrite length_replicate. apply Forall_replicate.
  by rewrite length_replicate.
Qed.

Lemma get2_replicate {X} n (x : X) (u v : nat) :
  get2 (replicate n (replicate n x)) u v
  = if decide (u < n ∧ v < n) then inr x else inl IndexError.
Proof.
  unfold get2, getitem. destruct (decide (u < n)) as [Hu|Hu].
  - rewrite lookup_replicate_2 by done.
    destruct (decide (v < n)) as [Hv|Hv].
    + rewrite lookup_replicate_2 by done. by rewrite decide_True.
    + rewrite lookup_ge_None_2 by (rewrite length_replicate; lia).
      rewrite decide_False; [done|lia].
  - rewrite lookup_ge_None_2 by (rewrite length_replicate; lia).
    rewrite decide_False; [done|lia].
Qed.

Lemma symmetric_replicate {X} n (x : X) : symmetric (replicate n (replicate n x)).
Proof.
  intros u v. rewrite !get2_replicate.
  repeat case_decide; first [done | lia].
Qed.

Lemma dom_fresh_attributes (vs : list V) (va : gmap V (gmap K A)) :
  dom (foldl (λ va v, <[v := ∅]> va) va vs) = dom va ∪ list_to_set vs.
Proof.
  revert va. induction vs as [|v vs IH]; intros va; simpl.
  - set_solver.
  - rewrite IH, dom_insert_L. set_solver.
Qed.

Lemma storage_static_new (b : Graph.t V K A) mr n :
  storage (AnyGraph.Static (StaticGraph.mk b mr (np_full n n nan)))
  = replicate n (replicate n None).
Proof.
  simpl. rewrite fmap_replicate. f_equal. by rewrite fmap_replicate.
Qed.

Lemma invariant_static_new dir (vs : list V) :
  invariant (AnyGraph.Static (StaticGraph.__cinit__ (K:=K) (A:=A) dir vs)).
Proof.
  unfold StaticGraph.__cinit__, invariant, wf.
  rewrite storage_static_new. split_and!.
  - apply square_replicate.
  - simpl. unfold nrows. simpl. rewrite length_replicate. done.
  - intros _. apply symmetric_replicate.
Qed.

Lemma invariant_dynamic_new dir (vs : list V) :
  invariant (AnyGraph.Dynamic (DynamicGraph.__cinit__ (K:=K) (A:=A) dir vs)).
Proof.
  unfold DynamicGraph.__cinit__, invariant, wf, DynamicGraph.no_edges.
  simpl. split_and!.
  - apply square_replicate.
  - by rewrite length_replicate.
  - intros _. apply symmetric_replicate.
Qed.

(** Changes to cells and to [edge_attributes] that keep the storage
    square, as large, and symmetric keep the invariant. *)
Lemma invariant_frame g g' :
  invariant g → same_vertices g g' →
  square (storage g') → length (storage g') = length (storage g) →
  (AnyGraph.directed g = false → symmetric (storage g')) →
  invariant g'.
Proof.
  intros ([Hsq Hshape] & Hsym) (Hms & Hdir & Hvs & Hva) Hsq' Hlen Hsym'.
  unfold invariant, wf.
  rewrite Hms, Hvs, Hdir, Hlen. split_and!; assumption.
Qed.

Lemma invariant_add_edge g (v1 v2 : V) w :
  invariant g → invariant (final (AnyGraph.add_edge v1 v2 w g)).
Proof.
  intros Hinv. pose proof Hinv as ([Hsq Hshape] & Hsym).
  destruct (add_edge_effect g v1 v2 w) as (_ & Hsame & Hcases).
  destruct (index v1 _) as [u|]; [|by destruct Hcases as [_ ->]].
  destruct (index v2 _) as [v|]; [|by destruct Hcases as [_ ->]].
  destruct Hcases as [_ Hcases].
  destruct (set2 (storage g) u v (stored g w)) as [e|m1] eqn:H1.
  { destruct Hcases as [_ Hst]. apply (invariant_frame g); try done;
      rewrite Hst; done. }
  pose proof (set2_preserves_square _ _ _ _ _ Hsq H1) as Hsq1.
  pose proof (set2_length _ _ _ _ _ H1) as Hlen1.
  destruct (AnyGraph.directed g) eqn:Hdir.
  { destruct Hcases as [_ Hst]. apply (invariant_frame g); try done;
      rewrite Hst; first [done | congruence]. }
  destruct (set2_swap_square _ _ _ _ _ (stored g w) Hsq H1) as [m2 H2].
  rewrite H2 in Hcases. destruct Hcases as [_ Hst].
  apply (invariant_frame g); try done; rewrite Hst.
  - by eapply set2_preserves_square.
  - by rewrite (set2_length _ _ _ _ _ H2).
  - intros _. eapply symmetric_set2; [by apply Hsym|done..].
Qed.

Lemma invariant_remove_edge g (v1 v2 : V) :
  invariant g → invariant (final (AnyGraph.remove_edge v1 v2 g)).
Proof.
  intros Hinv. pose proof Hinv as ([Hsq Hshape] & Hsym).
  destruct (remove_edge_effect g v1 v2) as (Hsame & _ & Hcases).
  destruct (index v1 _) as [u|]; [|by destruct Hcases as (_ & _ & ->)].
  destruct (index v2 _) as [v|]; [|by destruct Hcases as (_ & _ & ->)].
  destruct (get2 (storage g) u v) as [e|[c|]];
    [by destruct Hcases as (_ & _ & ->)| |by destruct Hcases as (_ & _ & ->)].
  destruct Hcases as [_ Hcases].
  destruct (set2 (storage g) u v None) as [e|m1] eqn:H1.
  { destruct Hcases as [_ Hst]. apply (invariant_frame g); try done;
      rewrite Hst; done. }
  pose proof (set2_preserves_square _ _ _ _ _ Hsq H1) as Hsq1.
  pose proof (set2_length _ _ _ _ _ H1) as Hlen1.
  destruct (AnyGraph.directed g) eqn:Hdir.
  { destruct Hcases as [_ Hst]. apply (invariant_frame g); try done;
      rewrite Hst; first [done | congruence]. }
  destruct (set2_swap_square _ _ _ _ _ None Hsq H1) as [m2 H2].
  rewrite H2 in Hcases. destruct Hcases as [_ Hst].
  apply (invariant_frame g); try done; rewrite Hst.
  - by eapply set2_preserves_square.
  - by rewrite (set2_length _ _ _ _ _ H2).
  - intros _. eapply symmetric_set2; [by apply Hsym|done..].
Qed.

Lemma invariant_super {B} (m : M (Graph.t V K A) B) g :
  same_keys (AnyGraph.base g) (final (m (AnyGraph.base g))) →
  invariant g →
  invariant (final (AnyGraph.dispatch (StaticGraph.super m)
                                      (DynamicGraph.super m) g)).
Proof.
  intros (Hdir & Hvs & Hdom) ([Hsq Hshape] & Hsym).
  rewrite super_run. destruct (m (AnyGraph.base g)) as [b' ws x].
  simpl in *. unfold invariant, wf.
  assert (storage (AnyGraph.with_base b' g) = storage g) as ->
    by by destruct g.
  assert (matrix_shape (AnyGraph.with_base b' g) = matrix_shape g) as ->
    by by destruct g.
  assert (AnyGraph.base (AnyGraph.with_base b' g) = b') as Hb
    by by destruct g.
  unfold AnyGraph.vertices, AnyGraph.directed.
  rewrite Hb, Hvs, Hdir. done.
Qed.
End invariants.

Section invariants2.
Context {V K A : Type} `{Countable V, Countable K}.
Implicit Types g : AnyGraph.t V K A.

Lemma invariant_add_vertex g (v1 : V) :
  invariant g → invariant (final (AnyGraph.add_vertex v1 g)).
Proof.
  intros ([Hsq Hshape] & Hsym).
  destruct g as [[[dir vs va ea] mr a]|[[dir vs va ea] m]];
    unfold AnyGraph.add_vertex, invariant, wf,
      AnyGraph.vertices, AnyGraph.directed in *;
    simpl in *.
  - rewrite sta_add_vertex_run. unfold StaticGraph.matrix in *. simpl in *.
    destruct Hshape as [Hrc Hle].
    destruct (contains v1 vs) eqn:Hin; simpl.
    { unfold StaticGraph.matrix; simpl; split_and!; done. }
    destruct (decide (length vs = 0)) as [Hn|Hn]; simpl.
    { unfold StaticGraph.matrix; simpl; split_and!; try done.
      rewrite length_app, Hn. unfold nrows. simpl. lia. }
    unfold np_append0. simpl. case_decide as Hc; simpl.
    2:{ unfold StaticGraph.matrix; simpl; split_and!; try done.
        rewrite length_app. simpl. lia. }
    unfold np_append1, nrows in *. simpl.
    rewrite length_app, !length_replicate. simpl.
    rewrite decide_True by lia. simpl.
    unfold StaticGraph.matrix, nrows; simpl.
    rewrite length_zip_with, !length_app, !length_replicate. simpl.
    split_and!; try done; lia.
  - rewrite dyn_add_vertex_run. simpl.
    destruct (contains v1 vs) eqn:Hin; simpl; [done|].
    rewrite <- Hshape. split_and!.
    + by apply square_grow.
    + rewrite !length_app, length_fmap. simpl. lia.
    + intros Hdir. apply symmetric_grow; [done|]. by apply Hsym.
Qed.

Lemma invariant_remove_vertex g (v1 : V) :
  invariant g → invariant (final (AnyGraph.remove_vertex v1 g)).
Proof.
  intros Hinv. pose proof Hinv as ([Hsq Hshape] & Hsym).
  destruct g as [[[dir vs va ea] mr a]|[[dir vs va ea] m]];
    unfold AnyGraph.remove_vertex, invariant, wf,
      AnyGraph.vertices, AnyGraph.directed in *;
    simpl in *.
  - destruct (index v1 vs) as [u|] eqn:Hu.
    2:{ by rewrite sta_remove_vertex_absent. }
    rewrite (sta_remove_vertex_run _ _ _ _ u) by done.
    unfold StaticGraph.matrix in *. simpl in *.
    destruct Hshape as [Hrc Hle].
    assert (length (delete u vs) ≤ length vs) as Hlen.
    { rewrite length_delete; [lia|]. eexists. by eapply index_Some. }
    destruct (np_delete1 _ u); simpl.
    { unfold StaticGraph.matrix; simpl; split_and!; try done; lia. }
    destruct (np_delete0 _ u); simpl;
      (unfold StaticGraph.matrix; simpl; split_and!; try done; lia).
  - destruct (index v1 vs) as [u|] eqn:Hu.
    2:{ by rewrite dyn_remove_vertex_absent. }
    pose proof (index_lt _ _ _ Hu) as Hlt.
    rewrite (dyn_remove_vertex_run _ _ _ u); simpl; [|done|lia|].
    2:{ eapply Forall_impl; [exact Hsq|]. intros row Hrow. simpl in *. lia. }
    split_and!.
    + apply square_shrink; [done|lia].
    + rewrite length_fmap, !length_delete; [lia|..].
      * eexists. by eapply index_Some.
      * apply lookup_lt_is_Some_2. lia.
    + intros Hdir. apply symmetric_shrink. by apply Hsym.
Qed.

Lemma invariant_call g (o : AnyGraph.op V K A) :
  invariant g → invariant (final (AnyGraph.call o g)).
Proof.
  intros Hinv. destruct o; simpl.
  - rewrite final_answering. by apply invariant_add_vertex.
  - rewrite final_answering. by apply invariant_remove_vertex.
  - rewrite final_answering. apply invariant_super; [|done].
    by rewrite has_vertex_final.
  - rewrite final_answering. by apply invariant_add_edge.
  - rewrite final_answering. by apply invariant_remove_edge.
  - rewrite final_answering. by rewrite has_edge_run.
  - rewrite final_answering. by rewrite get_edge_weight_run.
  - rewrite final_answering. by rewrite get_children_run.
  - rewrite final_answering. by rewrite get_parents_run.
  - rewrite final_answering. apply invariant_super; [|done].
    apply set_vertex_attribute_keys.
  - rewrite final_answering. apply invariant_super; [|done].
    by rewrite get_vertex_attribute_final.
  - rewrite final_answering. apply invariant_super; [|done].
    apply set_edge_attribute_keys.
  - rewrite final_answering. apply invariant_super; [|done].
    by rewrite get_edge_attribute_final.
  - unfold bind, gets, AnyGraph.answering, lift, ret. simpl.
    by destruct (AnyGraph.edges g).
Qed.
End invariants2.

Section reach.
Context {V K A : Type} `{Countable V, Countable K}.
Implicit Types g : AnyGraph.t V K A.

Lemma invariant_static_add_edge (s : StaticGraph.t V K A) (v1 v2 : V) w :
  invariant (AnyGraph.Static s) →
  invariant (AnyGraph.Static (final (StaticGraph.add_edge v1 v2 w s))).
Proof.
  intros Hinv. apply (invariant_add_edge _ v1 v2 w) in Hinv.
  unfold AnyGraph.add_edge, AnyGraph.dispatch in Hinv.
  by destruct (StaticGraph.add_edge v1 v2 w s).
Qed.

Lemma invariant_dynamic_add_edge (d : DynamicGraph.t V K A) (v1 v2 : V) w :
  invariant (AnyGraph.Dynamic d) →
  invariant (AnyGraph.Dynamic (final (DynamicGraph.add_edge v1 v2 w d))).
Proof.
  intros Hinv. apply (invariant_add_edge _ v1 v2 w) in Hinv.
  unfold AnyGraph.add_edge, AnyGraph.dispatch in Hinv.
  by destruct (DynamicGraph.add_edge v1 v2 w d).
Qed.

Lemma invariant_static_of mv me g g' :
  AnyGraph.static_of mv me g = inr g' → invariant g'.
Proof.
  unfold AnyGraph.static_of, StaticGraph.__cinit__from.
  destruct (AnyGraph.edges g) as [e|es]; [done|].
  match goal with |- context [for_each ?xs ?body ?s] =>
    pose proof (for_each_preserves
                  (λ s', invariant (AnyGraph.Static s')) body xs s) as Hloop;
    destruct (for_each xs body s) as [s' ws [e|[]]] end; [done|].
  intros [= <-]. apply Hloop.
  - intros edge s1 Hs1. by apply invariant_static_add_edge.
  - unfold invariant, wf. rewrite storage_static_new. split_and!.
    + apply square_replicate.
    + simpl. unfold nrows. simpl. by rewrite length_replicate.
    + intros _. apply symmetric_replicate.
Qed.

Lemma invariant_dynamic_of mv me g g' :
  AnyGraph.dynamic_of mv me g = inr g' → invariant g'.
Proof.
  unfold AnyGraph.dynamic_of, DynamicGraph.__cinit__from.
  destruct (AnyGraph.edges g) as [e|es]; [done|].
  match goal with |- context [for_each ?xs ?body ?s] =>
    pose proof (for_each_preserves
                  (λ s', invariant (AnyGraph.Dynamic s')) body xs s) as Hloop;
    destruct (for_each xs body s) as [s' ws [e|[]]] end; [done|].
  intros [= <-]. apply Hloop.
  - intros edge s1 Hs1. by apply invariant_dynamic_add_edge.
  - unfold invariant, wf, DynamicGraph.no_edges. simpl. split_and!.
    + apply square_replicate.
    + by rewrite length_replicate.
    + intros _. apply symmetric_replicate.
Qed.

Lemma invariant_copy g g' :
  invariant g → AnyGraph.__copy__ g = inr g' → invariant g'.
Proof.
  intros _. destruct g as [s|d]; simpl.
  - unfold StaticGraph.__copy__.
    destruct (StaticGraph.edges s) as [e|es]; [done|].
    match goal with |- context [for_each ?xs ?body ?s0] =>
      pose proof (for_each_preserves
                    (λ s', invariant (AnyGraph.Static s')) body xs s0) as Hloop;
      destruct (for_each xs body s0) as [s1 ws [e|[]]] end; [done|].
    simpl in *.
    match goal with |- context [for_each ?xs ?body ?s0] =>
      pose proof (for_each_preserves
                    (λ s', invariant (AnyGraph.Static s')) body xs s0) as Hloop';
      destruct (for_each xs body s0) as [s2 ws' [e|[]]] end; [done|].
    intros [= <-]. simpl in *. apply Hloop'.
    + intros vertex s' Hs'.
      destruct (StaticGraph.vertex_attributes s !! vertex); [|done].
      by apply for_each_preserves.
    + apply Hloop; [|apply invariant_static_new].
      intros edge s' Hs'. rewrite final_bind.
      destruct (value _); by apply invariant_static_add_edge.
  - unfold DynamicGraph.__copy__.
    destruct (DynamicGraph.edges d) as [e|es]; [done|].
    match goal with |- context [for_each ?xs ?body ?s0] =>
      pose proof (for_each_preserves
                    (λ s', invariant (AnyGraph.Dynamic s')) body xs s0) as Hloop;
      destruct (for_each xs body s0) as [s1 ws [e|[]]] end; [done|].
    simpl in *.
    match goal with |- context [for_each ?xs ?body ?s0] =>
      pose proof (for_each_preserves
                    (λ s', invariant (AnyGraph.Dynamic s')) body xs s0) as Hloop';
      destruct (for_each xs body s0) as [s2 ws' [e|[]]] end; [done|].
    intros [= <-]. simpl in *. apply Hloop'.
    + intros vertex s' Hs'.
      destruct (DynamicGraph.vertex_attributes d !! vertex); [|done].
      by apply for_each_preserves.
    + apply Hloop; [|apply invariant_dynamic_new].
      intros edge s' Hs'. rewrite final_bind.
      destruct (value _); by apply invariant_dynamic_add_edge.
Qed.

(** Every graph a program can hold satisfies the invariant. *)
Lemma reachable_invariant g : AnyGraph.reachable g → invariant g.
Proof.
  unfold AnyGraph.reachable.
  induction 1 as [dir vs|dir vs|mv me g g' _ _ IH Hg'|mv me g g' _ _ IH Hg'
                  |g g' _ IH Hg'|g o _ IH].
  - apply invariant_static_new.
  - apply invariant_dynamic_new.
  - by eapply invariant_static_of.
  - by eapply invariant_dynamic_of.
  - by eapply invariant_copy.
  - by apply invariant_call.
Qed.
End reach.

(** * The claims *)

Section claims.
Context {V K A : Type} `{Countable V, Countable K}.
Implicit Types g : AnyGraph.t V K A.

(** C4. On every undirected graph a program can hold, of either class,
    [has_edge(v1, v2)] and [has_edge(v2, v1)] give the same result, and
    when [get_edge_weight(v1, v2)] returns a weight,
    [get_edge_weight(v2, v1)] returns the same weight. *)
Theorem undirected_symmetry g (v1 v2 : V) :
  AnyGraph.reachable g → AnyGraph.directed g = false →
  value (AnyGraph.has_edge v1 v2 g) = value (AnyGraph.has_edge v2 v1 g)
  ∧ ∀ w, value (AnyGraph.get_edge_weight v1 v2 g) = inr w →
         value (AnyGraph.get_edge_weight v2 v1 g) = inr w.
Proof.
  intros Hreach Hdir.
  destruct (reachable_invariant g Hreach) as (_ & Hsym).
  specialize (Hsym Hdir).
  rewrite !has_edge_run, !get_edge_weight_run. simpl.
  destruct (index v1 _) as [u|], (index v2 _) as [v|]; try done.
  rewrite (Hsym v u). done.
Qed.

(** C1, amended. [remove_vertex(v)] raises the "not in graph"
    [ValueError] and changes nothing when [v] is absent.  Otherwise it
    returns, drops the first occurrence of [v] from the vertex sequence
    and leaves [vertex_attributes] and [edge_attributes] as they were;
    on a [DynamicGraph] it deletes row and column [index(v)] of the
    adjacency rows, which drops the cells of [v] and moves the later
    positions down by one. *)
Theorem remove_vertex_effect g (v1 : V) :
  wf g →
  let r := AnyGraph.remove_vertex v1 g in
  match index v1 (AnyGraph.vertices g) with
  | None => value r = inl (ValueError NotInGraph) ∧ final r = g
  | Some u =>
      value r = inr tt
      ∧ AnyGraph.vertices (final r) = delete u (AnyGraph.vertices g)
      ∧ AnyGraph.vertex_attributes (final r) = AnyGraph.vertex_attributes g
      ∧ AnyGraph.edge_attributes (final r) = AnyGraph.edge_attributes g
      ∧ match g with
        | AnyGraph.Dynamic _ =>
            storage (final r) = delete u <$> delete u (storage g)
            ∧ ∀ i j, AnyGraph.cell (final r) i j
                     = AnyGraph.cell g (skip u i) (skip u j)
        | AnyGraph.Static _ => True
        end
  end.
Proof.
  intros [Hsq Hshape].
  destruct g as [[[dir vs va ea] mr a]|[[dir vs va ea] m]];
    unfold AnyGraph.remove_vertex, wf, AnyGraph.vertices,
      AnyGraph.vertex_attributes, AnyGraph.edge_attributes in *;
    simpl in *.
  - destruct (index v1 vs) as [u|] eqn:Hu.
    2:{ by rewrite sta_remove_vertex_absent. }
    rewrite (sta_remove_vertex_run _ _ _ _ u) by done.
    pose proof (index_lt _ _ _ Hu) as Hlt. destruct Hshape as [Hrc Hle].
    unfold np_delete1, np_delete0. simpl.
    rewrite !decide_True by lia. done.
  - destruct (index v1 vs) as [u|] eqn:Hu.
    2:{ by rewrite dyn_remove_vertex_absent. }
    pose proof (index_lt _ _ _ Hu) as Hlt.
    rewrite (dyn_remove_vertex_run _ _ _ u); simpl; [|done|lia|].
    2:{ eapply Forall_impl; [exact Hsq|]. intros row Hrow. simpl in *. lia. }
    split_and!; try done. intros i j. apply get2_shrink.
Qed.

(** C5, amended. For [v1], [v2] at positions whose cell can be read:
    when the cell holds no edge, [remove_edge(v1, v2)] returns, warns
    once and leaves the graph as it was; when it holds an edge,
    [remove_edge] returns without warning, clears the cell (and the
    mirrored cell of an undirected graph), leaves every other cell, the
    vertices and both attribute stores as they were: the entry of the
    edge stays in [edge_attributes]. *)
Theorem remove_edge_effect_on_cells g (v1 v2 : V) (u v : nat) c :
  wf g →
  index v1 (AnyGraph.vertices g) = Some u →
  index v2 (AnyGraph.vertices g) = Some v →
  AnyGraph.cell g u v = inr c →
  let r := AnyGraph.remove_edge v1 v2 g in
  value r = inr tt ∧
  match c with
  | None => warned r = [RemoveMissingEdge] ∧ final r = g
  | Some _ =>
      warned r = []
      ∧ AnyGraph.vertices (final r) = AnyGraph.vertices g
      ∧ AnyGraph.vertex_attributes (final r) = AnyGraph.vertex_attributes g
      ∧ AnyGraph.edge_attributes (final r) = AnyGraph.edge_attributes g
      ∧ AnyGraph.cell (final r) u v = inr None
      ∧ (AnyGraph.directed g = false → AnyGraph.cell (final r) v u = inr None)
      ∧ ∀ i j, (i, j) ≠ (u, v) →
               (AnyGraph.directed g = true ∨ (i, j) ≠ (v, u)) →
               AnyGraph.cell (final r) i j = AnyGraph.cell g i j
  end.
Proof.
  intros [Hsq _] Hu Hv Hc. rewrite cell_storage in Hc.
  destruct (remove_edge_effect g v1 v2) as ((_ & _ & Hvs & Hva) & Hea & Hcases).
  rewrite Hu, Hv, Hc in Hcases. simpl.
  destruct c as [w|]; [|by destruct Hcases as (-> & -> & ->)].
  destruct Hcases as [Hwarn Hcases].
  apply get2_inr in Hc as (row & Hrow & Hcell).
  assert (∃ m1, set2 (storage g) u v None = inr m1) as [m1 H1].
  { eexists. apply set2_inr. exists row. split_and!; [done| |done].
    by eapply lookup_lt_Some. }
  rewrite H1 in Hcases.
  destruct (AnyGraph.directed g) eqn:Hdir.
  - destruct Hcases as [Hval Hst]. split_and!; try done.
    + rewrite cell_storage, Hst. by eapply get2_set2_eq.
    + intros i j Hne _. rewrite !cell_storage, Hst. by eapply get2_set2_ne.
  - destruct (set2_swap_square _ _ _ _ _ None Hsq H1) as [m2 H2].
    rewrite H2 in Hcases. destruct Hcases as [Hval Hst].
    split_and!; try done.
    + rewrite cell_storage, Hst.
      destruct (decide ((u, v) = (v, u))) as [[= ->]|Hne].
      * by eapply get2_set2_eq.
      * rewrite (get2_set2_ne _ _ _ _ _ _ _ H2) by done.
        by eapply get2_set2_eq.
    + intros _. rewrite cell_storage, Hst. by eapply get2_set2_eq.
    + intros i j Hne [?|Hne']; [done|]. rewrite !cell_storage, Hst.
      rewrite (get2_set2_ne _ _ _ _ _ _ _ H2) by done.
      by eapply get2_set2_ne.
Qed.

(** C7, amended. When [v] is absent and [add_vertex(v)] returns (it
    always does on a [DynamicGraph]), [remove_vertex(v)] right after it
    returns too and gives back the vertex sequence, [edge_attributes] and
    the adjacency storage the queries read; [vertex_attributes] keeps
    the empty entry made for [v]. *)
Theorem add_then_remove_vertex g (v1 : V) :
  wf g → v1 ∉ AnyGraph.vertices g →
  let g1 := final (AnyGraph.add_vertex v1 g) in
  let r := AnyGraph.remove_vertex v1 g1 in
  match g with
  | AnyGraph.Dynamic _ => value (AnyGraph.add_vertex v1 g) = inr tt
  | AnyGraph.Static _ => True
  end
  ∧ (value (AnyGraph.add_vertex v1 g) = inr tt →
     value r = inr tt
     ∧ AnyGraph.directed (final r) = AnyGraph.directed g
     ∧ AnyGraph.vertices (final r) = AnyGraph.vertices g
     ∧ AnyGraph.edge_attributes (final r) = AnyGraph.edge_attributes g
     ∧ storage (final r) = storage g
     ∧ AnyGraph.vertex_attributes (final r)
       = <[v1 := ∅]> (AnyGraph.vertex_attributes g)).
Proof.
  intros [Hsq Hshape] Hnew.
  destruct g as [[[dir vs va ea] mr a]|[[dir vs va ea] m]];
    unfold AnyGraph.remove_vertex, AnyGraph.add_vertex, wf, AnyGraph.vertices,
      AnyGraph.vertex_attributes, AnyGraph.edge_attributes,
      AnyGraph.directed in *;
    simpl in *.
  - split; [done|]. rewrite sta_add_vertex_run.
    rewrite (proj2 (contains_false v1 vs)) by done. simpl.
    assert (delete (length vs) (vs ++ [v1]) = vs) as Hdel.
    { pose proof (delete_middle vs [] v1) as Hd. by rewrite app_nil_r in Hd. }
    destruct (decide (length vs = 0)) as [Hn|Hn]; simpl.
    { intros _.
      rewrite (sta_remove_vertex_run _ _ _ _ (length vs))
        by by apply index_app_new.
      unfold StaticGraph.matrix, np_delete1, np_delete0, nrows. simpl.
      rewrite Hn. simpl. destruct vs; done. }
    unfold np_append0. simpl. case_decide as Hc; simpl; [|done].
    unfold np_append1, nrows. simpl.
    rewrite length_app, !length_replicate. simpl.
    case_decide as Hr; simpl; [|done]. intros _.
    rewrite (sta_remove_vertex_run _ _ _ _ (length vs))
      by by apply index_app_new.
    unfold StaticGraph.matrix, np_delete1, np_delete0, nrows. simpl.
    rewrite length_zip_with, !length_app, !length_replicate. simpl.
    unfold StaticGraph.matrix in *. simpl in *.
    rewrite !decide_True by lia. simpl. by rewrite Hdel.
  - rewrite dyn_add_vertex_run.
    rewrite (proj2 (contains_false v1 vs)) by done. simpl.
    split; [done|]. intros _.
    assert (delete (length vs) (vs ++ [v1]) = vs) as Hdel.
    { pose proof (delete_middle vs [] v1) as Hd. by rewrite app_nil_r in Hd. }
    rewrite (dyn_remove_vertex_run _ _ _ (length vs)); simpl.
    + rewrite Hdel. rewrite <- Hshape. by rewrite shrink_grow.
    + by apply index_app_new.
    + rewrite length_app, length_fmap. simpl. lia.
    + apply Forall_app. split.
      * apply Forall_fmap. eapply Forall_impl; [exact Hsq|].
        intros row Hrow. simpl in *. rewrite length_app. simpl. lia.
      * apply Forall_singleton. rewrite length_replicate. lia.
Qed.

(** C8, amended. With [v1], [v2] present and a weight [w] the storage
    can hold (any weight on a [DynamicGraph]; on a [StaticGraph] a
    weight other than NaN, at positions inside the view),
    [add_edge(v1, v2, w)] returns and right after it
    [get_edge_weight(v1, v2)] returns [w], and so does
    [get_edge_weight(v2, v1)] when the graph is undirected. *)
Theorem add_edge_then_weight g (v1 v2 : V) (u v : nat) w :
  wf g →
  index v1 (AnyGraph.vertices g) = Some u →
  index v2 (AnyGraph.vertices g) = Some v →
  fits g u v w →
  let r := AnyGraph.add_edge v1 v2 w g in
  value r = inr tt
  ∧ value (AnyGraph.get_edge_weight v1 v2 (final r)) = inr w
  ∧ (AnyGraph.directed g = false →
     value (AnyGraph.get_edge_weight v2 v1 (final r)) = inr w).
Proof.
  intros [Hsq Hshape] Hu Hv Hfits.
  assert (u < length (storage g) ∧ v < length (storage g)
          ∧ stored g w = Some w) as (Hu' & Hv' & Hw).
  { destruct g as [s|d]; simpl in *.
    - destruct Hfits as (? & ? & Hnan). unfold not_nan. by rewrite Hnan.
    - apply index_lt in Hu, Hv. unfold AnyGraph.vertices in *. simpl in *.
      rewrite Hshape. done. }
  destruct (add_edge_effect g v1 v2 w) as (_ & (_ & Hdir & Hvs & _) & Hcases).
  rewrite Hu, Hv, Hw in Hcases. destruct Hcases as [_ Hcases]. simpl.
  destruct (set2_square _ _ _ (Some w) Hsq Hu' Hv') as [m1 H1].
  rewrite H1 in Hcases. rewrite !get_edge_weight_run. simpl.
  rewrite Hvs, Hu, Hv.
  destruct (AnyGraph.directed g) eqn:Hd.
  - destruct Hcases as [Hval Hst]. rewrite Hst.
    rewrite (get2_set2_eq _ _ _ _ _ H1). done.
  - destruct (set2_swap_square _ _ _ _ _ (Some w) Hsq H1) as [m2 H2].
    rewrite H2 in Hcases. destruct Hcases as [Hval Hst]. rewrite Hst.
    rewrite (get2_set2_eq _ _ _ _ _ H2).
    destruct (decide ((u, v) = (v, u))) as [[= ->]|Hne].
    + by rewrite (get2_set2_eq _ _ _ _ _ H2).
    + rewrite (get2_set2_ne _ _ _ _ _ _ _ H2) by done.
      by rewrite (get2_set2_eq _ _ _ _ _ H1).
Qed.
End claims.

Section keys.
Context {V K A : Type} `{Countable V, Countable K}.
Implicit Types g : AnyGraph.t V K A.

Lemma keys_same_vertices g g' :
  same_vertices g g' → keys_are_vertices g → keys_are_vertices g'.
Proof.
  intros (_ & _ & Hvs & Hva). unfold keys_are_vertices. by rewrite Hvs, Hva.
Qed.

Lemma keys_super {B} (m : M (Graph.t V K A) B) g :
  same_keys (AnyGraph.base g) (final (m (AnyGraph.base g))) →
  keys_are_vertices g →
  keys_are_vertices (final (AnyGraph.dispatch (StaticGraph.super m)
                                              (DynamicGraph.super m) g)).
Proof.
  intros (_ & Hvs & Hdom). rewrite super_run.
  destruct (m (AnyGraph.base g)) as [b' ws x]. simpl in *.
  unfold keys_are_vertices, AnyGraph.vertices, AnyGraph.vertex_attributes.
  assert (AnyGraph.base (AnyGraph.with_base b' g) = b') as -> by by destruct g.
  by rewrite Hvs, Hdom.
Qed.

Lemma keys_add_vertex g (v1 : V) :
  keys_are_vertices g → keys_are_vertices (final (AnyGraph.add_vertex v1 g)).
Proof.
  destruct g as [[[dir vs va ea] mr a]|[[dir vs va ea] m]];
    unfold AnyGraph.add_vertex, keys_are_vertices, AnyGraph.vertices,
      AnyGraph.vertex_attributes; simpl; intros Hkeys.
  - rewrite sta_add_vertex_run. simpl.
    destruct (contains v1 vs) eqn:Hin; simpl.
    { apply contains_true in Hin. rewrite dom_insert_L, Hkeys. set_solver. }
    assert (dom (<[v1:=∅]> va) = list_to_set (vs ++ [v1])) as Hkeys'.
    { rewrite dom_insert_L, Hkeys, list_to_set_app_L. set_solver. }
    destruct (decide (length vs = 0)); simpl; [done|].
    destruct (np_append0 _ _) as [e|a']; simpl; [done|].
    destruct (np_append1 _ _) as [e|a'']; simpl; done.
  - rewrite dyn_add_vertex_run. simpl.
    destruct (contains v1 vs) eqn:Hin; simpl.
    { apply contains_true in Hin. rewrite dom_insert_L, Hkeys. set_solver. }
    rewrite dom_insert_L, Hkeys, list_to_set_app_L. set_solver.
Qed.

End keys.

(** ** Enumerating the edges of an undirected graph *)

Section set_facts.
Context {T : Type} `{Countable T}.
Implicit Types (x y : T) (X : gset T).

Lemma union_swap x y X : {[x]} ∪ ({[y]} ∪ X) = {[y]} ∪ ({[x]} ∪ X).
Proof. set_solver. Qed.

Lemma union_twice x X : {[x]} ∪ ({[x]} ∪ X) = {[x]} ∪ X.
Proof. set_solver. Qed.

Lemma elem_of_union_singleton x X : x ∈ {[x]} ∪ X.
Proof. set_solver. Qed.

Lemma elem_of_union_old x y X : x ∈ X → x ∈ {[y]} ∪ X.
Proof. set_solver. Qed.

Lemma elem_of_pair_union_l x y X : x ∈ {[x; y]} ∪ X.
Proof. set_solver. Qed.

Lemma elem_of_pair_union_r x y X : y ∈ {[x; y]} ∪ X.
Proof. set_solver. Qed.

Lemma elem_of_pair_union_old x y z X : z ∈ X → z ∈ {[x; y]} ∪ X.
Proof. set_solver. Qed.

Lemma not_elem_of_pair_union x y z X :
  z ≠ x → z ≠ y → z ∉ X → z ∉ {[x; y]} ∪ X.
Proof. set_solver. Qed.
End set_facts.

Section scan.
Context {V : Type} `{Countable V}.
Implicit Types (found : gset (V * V * DTYPE_t)) (used : gset V).

Lemma cells_in_bounds (n : nat) (c : nat * nat) :
  c ∈ cells n ↔ c.1 < n ∧ c.2 < n.
Proof.
  unfold cells. rewrite list_elem_of_In, in_flat_map. split.
  - intros (u & Hu%list_elem_of_In & Hc%list_elem_of_In).
    apply list_elem_of_fmap in Hc as (v & -> & Hv). simpl.
    apply elem_of_seq in Hu, Hv. lia.
  - intros [Hu Hv]. exists c.1. split.
    + apply list_elem_of_In, elem_of_seq. lia.
    + apply list_elem_of_In, list_elem_of_fmap. exists c.2. split.
      * by destruct c.
      * apply elem_of_seq. lia.
Qed.

(** Scanning a storage without edges finds nothing. *)
Lemma scan_no_edges (read : nat → nat → exn + option DTYPE_t)
    (vs : list V) dir l found :
  (∀ c, c ∈ l → read c.1 c.2 = inr None) →
  foldM (edges_step read vs dir) found l = inr found.
Proof.
  induction l as [|c l IH]; intros Hl; simpl; [done|].
  unfold edges_step at 1. rewrite Hl by left. apply IH.
  intros c' Hc'. apply Hl. by right.
Qed.

Section one_more_edge.
Variables (vs : list V) (m m1 m2 : list (list (option DTYPE_t))).
Variables (u v : nat) (a b : V) (w : DTYPE_t) (used : gset V).
Hypothesis Hsq : square m.
Hypothesis Hlen : length m = length vs.
Hypothesis Htidy : tidy vs m used.
Hypothesis Hu : vs !! u = Some a.
Hypothesis Hv : vs !! v = Some b.
Hypothesis Ha : a ∉ used.
Hypothesis Hb : b ∉ used.
Hypothesis H1 : set2 m u v (Some w) = inr m1.
Hypothesis H2 : set2 m1 v u (Some w) = inr m2.

Lemma new_cell_empty_before i j :
  (i, j) = (u, v) ∨ (i, j) = (v, u) → i < length vs → j < length vs →
  get2 m i j = inr None.
Proof.
  intros Hij Hi Hj.
  destruct (get2_square m i j Hsq) as [[w'|] Hc]; [lia..| |done].
  destruct (Htidy _ _ _ Hc) as (x & y & Hx & Hy & Hxin & Hyin).
  destruct Hij as [[= -> ->]|[= -> ->]]; congruence.
Qed.

Lemma new_cell_after i j :
  (i, j) = (u, v) ∨ (i, j) = (v, u) → get2 m2 i j = inr (Some w).
Proof.
  intros [[= -> ->]|[= -> ->]].
  - destruct (decide ((u, v) = (v, u))) as [[= ->]|Hne].
    + by eapply get2_set2_eq.
    + rewrite (get2_set2_ne _ _ _ _ _ _ _ H2) by done.
      by eapply get2_set2_eq.
  - by eapply get2_set2_eq.
Qed.

Lemma old_cell_after i j :
  (i, j) ≠ (u, v) → (i, j) ≠ (v, u) → get2 m2 i j = get2 m i j.
Proof.
  intros Huv Hvu. rewrite (get2_set2_ne _ _ _ _ _ _ _ H2) by done.
  by eapply get2_set2_ne.
Qed.

Lemma tidy_after : tidy vs m2 ({[a; b]} ∪ used).
Proof.
  intros i j w' Hc.
  destruct (decide ((i, j) = (u, v))) as [[= -> ->]|Huv].
  { exists a, b. split_and!; [done|done|..].
    - apply elem_of_pair_union_l.
    - apply elem_of_pair_union_r. }
  destruct (decide ((i, j) = (v, u))) as [[= -> ->]|Hvu].
  { exists b, a. split_and!; [done|done|..].
    - apply elem_of_pair_union_r.
    - apply elem_of_pair_union_l. }
  rewrite old_cell_after in Hc by done.
  destruct (Htidy _ _ _ Hc) as (x & y & ? & ? & ? & ?).
  exists x, y. split_and!; [done|done|..];
    by apply elem_of_pair_union_old.
Qed.

Lemma edge_found_union (e t : V * V * DTYPE_t) found :
  edge_found e ({[t]} ∪ found)
  ↔ (t.1.1 = e.1.2 ∧ t.1.2 = e.1.1) ∨ edge_found e found.
Proof.
  unfold edge_found, set_Exists. split.
  - intros (e' & [->%elem_of_singleton|He]%elem_of_union & Hp); eauto.
  - intros [Hp|(e' & He & Hp)].
    + exists t. split; [apply elem_of_union_singleton|done].
    + exists e'. split; [by apply elem_of_union_old|done].
Qed.

Lemma not_edge_found (e : V * V * DTYPE_t) found :
  ends_in used found → e.1.2 ∉ used → ¬ edge_found e found.
Proof.
  intros Hends Hy (e' & He & Hey & _). destruct (Hends e' He) as [? _].
  congruence.
Qed.

(** A cell other than the two new ones is handled alike before and
    after the new edge. *)
Lemma step_old found found' (c : nat * nat) :
  c.1 < length vs → c.2 < length vs →
  c ≠ (u, v) → c ≠ (v, u) →
  ends_in used found →
  found' = found ∨ one_more a b w found found' →
  ∃ R R',
    edges_step (get2 m) vs false found c = inr R
    ∧ edges_step (get2 m2) vs false found' c = inr R'
    ∧ ends_in used R
    ∧ (found' = found → R' = R)
    ∧ (one_more a b w found found' → one_more a b w R R').
Proof.
  destruct c as [i j]. simpl. intros Hi Hj Huv Hvu Hends Hrel.
  unfold edges_step. simpl. rewrite old_cell_after by done.
  destruct (get2_square m i j Hsq) as [[w'|] Hc]; [lia..| |].
  2:{ rewrite Hc. exists found, found'. done. }
  rewrite Hc.
  destruct (Htidy _ _ _ Hc) as (x & y & Hx & Hy & Hxin & Hyin).
  unfold getitem. rewrite Hx, Hy. simpl.
  assert (edge_found (x, y, w') found' ↔ edge_found (x, y, w') found)
    as Hsame.
  { destruct Hrel as [->|[->| ->]]; [done|..];
      rewrite edge_found_union; simpl; split; try tauto;
      intros [[? ?]|?]; try done; congruence. }
  destruct (decide (edge_found (x, y, w') found)) as [Hrev|Hrev].
  - rewrite !bool_decide_eq_true_2 by tauto.
    exists found, found'. done.
  - rewrite !bool_decide_eq_false_2 by tauto.
    exists ({[(x, y, w')]} ∪ found), ({[(x, y, w')]} ∪ found').
    split_and!; try done.
    + intros t [->%elem_of_singleton|Ht]%elem_of_union; [done|].
      by apply Hends.
    + by intros ->.
    + intros [->| ->]; [left|right]; apply union_swap.
Qed.

(** One of the two new cells: nothing is found there before, and after
    it the new edge is there once. *)
Lemma step_new found found' (c : nat * nat) :
  c.1 < length vs → c.2 < length vs →
  c = (u, v) ∨ c = (v, u) →
  ends_in used found →
  found' = found ∨ one_more a b w found found' →
  ∃ R',
    edges_step (get2 m) vs false found c = inr found
    ∧ edges_step (get2 m2) vs false found' c = inr R'
    ∧ one_more a b w found R'.
Proof.
  destruct c as [i j]. simpl. intros Hi Hj Hc Hends Hrel.
  unfold edges_step. simpl.
  rewrite new_cell_empty_before, new_cell_after by done.
  assert (∃ x y, vs !! i = Some x ∧ vs !! j = Some y
                 ∧ ((x, y) = (a, b) ∨ (x, y) = (b, a)))
    as (x & y & Hx & Hy & Hxy).
  { destruct Hc as [[= -> ->]|[= -> ->]]; eauto 10. }
  unfold getitem. rewrite Hx, Hy. simpl.
  assert (¬ edge_found (x, y, w) found) as Hnot.
  { apply not_edge_found; [done|]. simpl.
    destruct Hxy as [[= -> ->]|[= -> ->]]; done. }
  destruct Hrel as [->|Hrel].
  - rewrite bool_decide_eq_false_2 by done.
    eexists. split_and!; try done.
    destruct Hxy as [[= -> ->]|[= -> ->]]; [by left|by right].
  - destruct (decide (edge_found (x, y, w) found')) as [Hrev|Hrev].
    + rewrite bool_decide_eq_true_2 by done. eauto.
    + rewrite bool_decide_eq_false_2 by done.
      eexists. split_and!; try done.
      destruct Hrel as [->| ->]; rewrite edge_found_union in Hrev;
        simpl in Hrev;
        destruct Hxy as [[= -> ->]|[= -> ->]];
        first [ left; apply union_twice | right; apply union_twice
              | exfalso; apply Hrev; by left ].
Qed.

Lemma scan_one_more l found found' :
  (∀ c, c ∈ l → c.1 < length vs ∧ c.2 < length vs) →
  ends_in used found →
  found' = found ∨ one_more a b w found found' →
  ∃ R R',
    foldM (edges_step (get2 m) vs false) found l = inr R
    ∧ foldM (edges_step (get2 m2) vs false) found' l = inr R'
    ∧ ends_in used R
    ∧ (one_more a b w R R'
       ∨ (R' = R ∧ found' = found ∧ (u, v) ∉ l ∧ (v, u) ∉ l)).
Proof.
  revert found found'.
  induction l as [|c l IH]; intros found found' Hl Hends Hrel; simpl.
  { exists found, found'. split_and!; try done.
    destruct Hrel as [->|Hrel]; [right|by left].
    split_and!; try done; apply not_elem_of_nil. }
  destruct (Hl c) as [Hc1 Hc2]; [left|].
  assert (∀ c', c' ∈ l → c'.1 < length vs ∧ c'.2 < length vs) as Hl'.
  { intros c' Hc'. apply Hl. by right. }
  destruct (decide (c = (u, v) ∨ c = (v, u))) as [Hnew|Hold].
  - destruct (step_new found found' c) as (R1 & -> & -> & Hrel1); try done.
    destruct (IH found R1 Hl' Hends (or_intror Hrel1))
      as (R & R' & -> & -> & HendsR & [Hone|(_ & -> & _)]).
    + exists R, R'. split_and!; try done. by left.
    + destruct Hrel1 as [Heq|Heq]; exfalso;
        (assert (∃ t, t ∈ found ∧ (t.1.1 = a ∨ t.1.1 = b)) as (t & Ht & Hab);
         [eexists; split; [rewrite Heq; apply elem_of_union_l;
                           by apply elem_of_singleton|simpl; tauto]|]);
        destruct (Hends t Ht) as [? _]; destruct Hab; congruence.
  - destruct (step_old found found' c) as (R1 & R1' & -> & -> & Hends1 & Hk & Ho);
      try done; try tauto.
    assert (R1' = R1 ∨ one_more a b w R1 R1') as Hrel1.
    { destruct Hrel as [?|?]; [left|right]; auto. }
    destruct (IH R1 R1' Hl' Hends1 Hrel1)
      as (R & R' & -> & -> & HendsR & [Hone|(-> & -> & Huv & Hvu)]).
    + exists R, R'. split_and!; try done. by left.
    + exists R, R. split_and!; try done. right.
      assert (found' = found) as ->.
      { destruct Hrel as [?|Hone]; [done|]. exfalso.
        specialize (Ho Hone).
        destruct Ho as [Heq|Heq];
          (assert (∃ t, t ∈ R1 ∧ (t.1.1 = a ∨ t.1.1 = b)) as (t & Ht & Hab);
           [eexists; split; [rewrite Heq at 1; apply elem_of_union_l;
                             by apply elem_of_singleton|simpl; tauto]|]);
          destruct (Hends1 t Ht) as [? _]; destruct Hab; congruence. }
      split_and!; try done; apply not_elem_of_cons;
        (split; [intros <-; tauto|done]).
Qed.
End one_more_edge.
End scan.

Section count.
Context {V K A : Type} `{Countable V, Countable K}.
Implicit Types g : AnyGraph.t V K A.

Lemma stored_same_shape g g' w :
  matrix_shape g' = matrix_shape g → stored g' w = stored g w.
Proof. by destruct g, g'. Qed.

Lemma add_all_count es : ∀ g used S,
  square (storage g) →
  length (storage g) = length (AnyGraph.vertices g) →
  AnyGraph.directed g = false →
  tidy (AnyGraph.vertices g) (storage g) used →
  AnyGraph.edges g = inr S → ends_in used S →
  disjoint_pairs es →
  (∀ e, e ∈ es → e.1.1 ∉ used ∧ e.1.2 ∉ used) →
  Forall (λ e, stored g e.2 = Some e.2) es →
  ∀ g', add_all es g = inr g' →
  ∃ S', AnyGraph.edges g' = inr S' ∧ size S' = size S + length es.
Proof.
  induction es as [|[[a b] w] es IH];
    intros g used S Hsq Hlen Hdir Htidy HS Hends Hdisj Hfresh Hw g' Hall.
  { simpl in *. injection Hall as <-. exists S. split; [done|lia]. }
  simpl in Hall.
  destruct (add_edge_effect g a b w) as (_ & Hsame & Hcases).
  destruct (value (AnyGraph.add_edge a b w g)) as [e|[]] eqn:Hval; [done|].
  pose proof Hsame as (Hms & Hdir' & Hvs & _).
  apply Forall_cons in Hw as [Hw Hws]. simpl in Hw.
  destruct Hdisj as [Hab Hdisj]. simpl in Hab.
  destruct (Hfresh (a, b, w)) as [Ha Hb]; [left|]. simpl in Ha, Hb.
  destruct (index a (AnyGraph.vertices g)) as [u|] eqn:Hu;
    [|by destruct Hcases].
  destruct (index b (AnyGraph.vertices g)) as [v|] eqn:Hv;
    [|by destruct Hcases].
  destruct Hcases as [_ Hcases]. rewrite Hw, Hdir in Hcases.
  destruct (set2 (storage g) u v (Some w)) as [e|m1] eqn:H1;
    [by destruct Hcases|].
  destruct (set2 m1 v u (Some w)) as [e|m2] eqn:H2; [by destruct Hcases|].
  destruct Hcases as [_ Hst].
  set (g1 := final (AnyGraph.add_edge a b w g)) in *.
  pose proof (index_Some _ _ _ Hu) as Hua.
  pose proof (index_Some _ _ _ Hv) as Hvb.
  pose proof (index_lt _ _ _ Hu) as Hult.
  pose proof (index_lt _ _ _ Hv) as Hvlt.
  (* the scan after the call finds one edge more *)
  rewrite edges_storage, Hdir in HS. unfold scan_edges in HS.
  destruct (scan_one_more (AnyGraph.vertices g) (storage g) m1 m2 u v a b w
              used Hsq Hlen Htidy Hua Hvb Ha Hb H1 H2
              (cells (length (AnyGraph.vertices g))) ∅ ∅)
    as (R & R' & HR & HR' & HendsR & Hone).
  { intros c Hc. by apply cells_in_bounds. }
  { intros t Ht. by apply not_elem_of_empty in Ht. }
  { by left. }
  rewrite HS in HR. injection HR as <-.
  destruct Hone as [Hone|(_ & _ & Hnot & _)].
  2:{ exfalso. apply Hnot. by apply cells_in_bounds. }
  assert (AnyGraph.edges g1 = inr R') as HS1.
  { rewrite edges_storage, Hst, Hvs, Hdir', Hdir. exact HR'. }
  assert (size R' = size S + 1) as Hsize.
  { destruct Hone as [->| ->];
      (rewrite size_union, size_singleton; [lia|]);
      apply disjoint_singleton_l; intros Hin;
      destruct (Hends _ Hin) as [? ?]; done. }
  destruct (IH g1 ({[a; b]} ∪ used) R') with (g' := g')
    as (S' & HS' & Hsize'); try done.
  - rewrite Hst. eapply set2_preserves_square; [|done].
    by eapply set2_preserves_square.
  - rewrite Hst, Hvs, (set2_length _ _ _ _ _ H2), (set2_length _ _ _ _ _ H1).
    done.
  - by rewrite Hdir'.
  - rewrite Hst, Hvs. by eapply tidy_after.
  - intros t Ht. destruct Hone as [->| ->];
      apply elem_of_union in Ht as [->%elem_of_singleton|Ht];
      simpl; try set_solver;
      destruct (Hends _ Ht); set_solver.
  - intros f Hf. destruct (Hab f Hf) as (? & ? & ? & ?).
    destruct (Hfresh f) as [? ?]; [by right|]. set_solver.
  - eapply Forall_impl; [exact Hws|]. intros f Hf. simpl in *.
    by rewrite (stored_same_shape g g1).
  - exists S'. split; [done|]. simpl. lia.
Qed.

Lemma edges_of_no_edges g :
  square (storage g) →
  length (storage g) = length (AnyGraph.vertices g) →
  no_edges g → AnyGraph.edges g = inr ∅.
Proof.
  intros Hsq Hlen Hnone. rewrite edges_storage. apply scan_no_edges.
  intros c [Hc1 Hc2]%cells_in_bounds.
  destruct (get2_square (storage g) c.1 c.2 Hsq) as [x Hx]; [lia..|].
  rewrite Hx. f_equal. apply (Hnone c.1 c.2). by rewrite cell_storage.
Qed.

End count.

(** ** The two classes side by side *)

Section agree.
Context {V K A : Type} `{Countable V, Countable K}.
Implicit Types g : AnyGraph.t V K A.











End agree.

(** * The claims on the example graphs *)

Section on_examples.
Import AnyGraph.
Local Open Scope Z_scope.

Lemma after_reachable (os : list (op Z string Z)) (g : graph) :
  reachable g → reachable (after os g).
Proof.
  revert g. induction os as [|o os IH]; intros g Hg; simpl; [done|].
  apply IH. by apply reach_call.
Qed.

Lemma reachable_wf (g : graph) : reachable g → wf g.
Proof. intros Hg. by destruct (reachable_invariant g Hg). Qed.

Lemma no_edges_new_dynamic dir (vs : list Z) : no_edges (dynamic_graph dir vs).
Proof.
  intros u v c. simpl. unfold DynamicGraph.getcell, DynamicGraph.no_edges.
  rewrite get2_replicate. by case_decide; intros [= <-].
Qed.

(** C1, as stated, fails: after [remove_vertex(1)] the entries of vertex
    [1] and of its edge [(1, 2)] are still in the attribute stores; on a
    [StaticGraph] the view keeps its cells, so that the edge of [1] and
    [2] is now read as an edge of [2] and [3]. *)
Lemma remove_vertex_keeps_entries :
  value (remove_vertex 1 (one_edge_of_three dynamic_graph)) = inr tt
  ∧ vertex_attributes
      (final (remove_vertex 1 (one_edge_of_three dynamic_graph))) !! 1
    = Some ∅
  ∧ edge_attributes
      (final (remove_vertex 1 (one_edge_of_three dynamic_graph))) !! (1, 2)
    = Some ∅
  ∧ value (remove_vertex 1 (one_edge_of_three static_graph)) = inr tt
  ∧ storage (final (remove_vertex 1 (one_edge_of_three static_graph)))
    = storage (one_edge_of_three static_graph)
  ∧ value (has_edge 2 3 (one_edge_of_three static_graph)) = inr false
  ∧ value (has_edge 2 3
             (final (remove_vertex 1 (one_edge_of_three static_graph))))
    = inr true.
Proof. vm_compute. done. Qed.

Lemma remove_vertex_effect_witness :
  wf (one_edge_of_three dynamic_graph)
  ∧ value (remove_vertex 1 (one_edge_of_three dynamic_graph)) = inr tt
  ∧ vertices (final (remove_vertex 1 (one_edge_of_three dynamic_graph)))
    = [2; 3]
  ∧ vertex_attributes
      (final (remove_vertex 1 (one_edge_of_three dynamic_graph)))
    = vertex_attributes (one_edge_of_three dynamic_graph)
  ∧ edge_attributes
      (final (remove_vertex 1 (one_edge_of_three dynamic_graph)))
    = edge_attributes (one_edge_of_three dynamic_graph).
Proof.
  assert (wf (one_edge_of_three dynamic_graph)) as Hwf
    by (apply reachable_wf, after_reachable, reach_dynamic).
  split; [exact Hwf|].
  pose proof (remove_vertex_effect (one_edge_of_three dynamic_graph) 1 Hwf)
    as Heff.
  change (index 1 (vertices (one_edge_of_three dynamic_graph)))
    with (Some 0%nat) in Heff.
  destruct Heff as (? & ? & ? & ? & _). done.
Defined.

(** C3, as stated, fails: after [remove_vertex(1)] and
    [remove_vertex(2)] no vertex is left, and [1] still is a key of
    [vertex_attributes]. *)
Lemma remove_vertex_leaves_key :
  reachable (after [RemoveVertex 1; RemoveVertex 2] (dynamic_graph false [1; 2]))
  ∧ vertices (after [RemoveVertex 1; RemoveVertex 2]
                    (dynamic_graph false [1; 2])) = []
  ∧ ¬ keys_are_vertices (after [RemoveVertex 1; RemoveVertex 2]
                               (dynamic_graph false [1; 2])).
Proof.
  split_and!.
  - apply after_reachable, reach_dynamic.
  - done.
  - unfold keys_are_vertices. intros Hkeys.
    assert (1 ∈ dom (vertex_attributes
                       (after [RemoveVertex 1; RemoveVertex 2]
                              (dynamic_graph false [1; 2])))) as Hin.
    { apply elem_of_dom. exists ∅. by vm_compute. }
    rewrite Hkeys in Hin. by apply not_elem_of_empty in Hin.
Qed.

Lemma undirected_symmetry_witness :
  reachable (one_edge static_graph two_and_a_half)
  ∧ directed (one_edge static_graph two_and_a_half) = false
  ∧ value (has_edge 1 2 (one_edge static_graph two_and_a_half))
    = value (has_edge 2 1 (one_edge static_graph two_and_a_half))
  ∧ value (get_edge_weight 2 1 (one_edge static_graph two_and_a_half))
    = inr two_and_a_half.
Proof.
  assert (reachable (one_edge static_graph two_and_a_half)) as Hg
    by (apply after_reachable, reach_static).
  split_and!; [exact Hg|reflexivity|..];
    destruct (undirected_symmetry _ 1 2 Hg eq_refl) as [Hhas Hweight];
    [exact Hhas|by apply Hweight].
Defined.

(** C5, as stated, fails: after [remove_edge(1, 2)] of an existing edge
    the entry [(1, 2)] is still in [edge_attributes]; and on a
    [StaticGraph] that got vertex [1] through [add_vertex],
    [remove_edge(1, 1)] of an edge that does not exist raises
    [IndexError]. *)
Lemma remove_edge_keeps_entry :
  value (remove_edge 1 2 (one_edge dynamic_graph one)) = inr tt
  ∧ value (has_edge 1 2 (final (remove_edge 1 2 (one_edge dynamic_graph one))))
    = inr false
  ∧ edge_attributes (final (remove_edge 1 2 (one_edge dynamic_graph one)))
      !! (1, 2) = Some ∅
  ∧ vertices (grown static_graph [1]) = [1]
  ∧ value (remove_edge 1 1 (grown static_graph [1])) = inl IndexError.
Proof. vm_compute. done. Qed.

Lemma remove_edge_effect_on_cells_witness :
  wf (one_edge dynamic_graph one)
  ∧ index 1 (vertices (one_edge dynamic_graph one)) = Some 0%nat
  ∧ index 2 (vertices (one_edge dynamic_graph one)) = Some 1%nat
  ∧ cell (one_edge dynamic_graph one) 0 1 = inr (Some one)
  ∧ value (remove_edge 1 2 (one_edge dynamic_graph one)) = inr tt
  ∧ edge_attributes (final (remove_edge 1 2 (one_edge dynamic_graph one)))
    = edge_attributes (one_edge dynamic_graph one)
  ∧ cell (final (remove_edge 1 2 (one_edge dynamic_graph one))) 0 1
    = inr None.
Proof.
  assert (wf (one_edge dynamic_graph one)) as Hwf
    by (apply reachable_wf, after_reachable, reach_dynamic).
  split_and!; [exact Hwf|reflexivity|reflexivity|reflexivity|..].
  all: destruct (remove_edge_effect_on_cells (one_edge dynamic_graph one)
                   1 2 0 1 (Some one) Hwf eq_refl eq_refl eq_refl)
         as (? & _ & _ & _ & ? & ? & _);
    done.
Defined.

(** C6: the failing input.  Vertex [1] has the attribute ["k"]; the
    call [add_vertex(1)] raises "already in graph" and the attribute
    is gone, in both classes. *)
Lemma add_vertex_duplicate_resets_attributes :
  vertex_attributes (one_labelled_vertex dynamic_graph) !! 1
    = Some {["k" := 5]}
  ∧ value (add_vertex 1 (one_labelled_vertex dynamic_graph))
    = inl (ValueError AlreadyInGraph)
  ∧ vertex_attributes
      (final (add_vertex 1 (one_labelled_vertex dynamic_graph))) !! 1
    = Some ∅
  ∧ vertex_attributes (one_labelled_vertex static_graph) !! 1
    = Some {["k" := 5]}
  ∧ value (add_vertex 1 (one_labelled_vertex static_graph))
    = inl (ValueError AlreadyInGraph)
  ∧ vertex_attributes
      (final (add_vertex 1 (one_labelled_vertex static_graph))) !! 1
    = Some ∅.
Proof. vm_compute. done. Qed.

(** C2: the failing inputs.  A graph with the edge [(1, 2)] of weight
    [2.5] and an attribute on it: [__copy__] raises [KeyError], and the
    graph constructed from it has the edge with weight [1.0] and no
    attribute.  A graph with a vertex attribute and no edge: [__copy__]
    raises [AttributeError]. *)
Lemma copy_loses_edges :
  value (get_edge_weight 1 2 (one_labelled_edge dynamic_graph))
    = inr two_and_a_half
  ∧ edge_attributes (one_labelled_edge dynamic_graph) !! (1, 2)
    = Some {["k" := 7]}
  ∧ __copy__ (one_labelled_edge dynamic_graph) = inl KeyError
  ∧ __copy__ (one_labelled_edge static_graph) = inl KeyError
  ∧ match dynamic_of atoms atoms (one_labelled_edge dynamic_graph) with
    | inr g' => value (get_edge_weight 1 2 g') = inr one
                ∧ edge_attributes g' !! (1, 2) = Some ∅
    | inl _ => False
    end
  ∧ match static_of atoms atoms (one_labelled_edge static_graph) with
    | inr g' => value (get_edge_weight 1 2 g') = inr one
                ∧ edge_attributes g' !! (1, 2) = Some ∅
    | inl _ => False
    end
  ∧ __copy__ (one_labelled_vertex dynamic_graph) = inl AttributeError
  ∧ __copy__ (one_labelled_vertex static_graph) = inl AttributeError.
Proof. vm_compute. done. Qed.

(** C7, as stated, fails: after [add_vertex(1)] and [remove_vertex(1)]
    on the empty graph, [vertex_attributes] has an entry for [1]; on a
    [StaticGraph] the array [_adjacency_matrix] stays 1 x 1. *)
Lemma vertex_round_trip_leaves_key :
  value (remove_vertex 1 (grown dynamic_graph [1])) = inr tt
  ∧ vertex_attributes (dynamic_graph false []) !! 1 = None
  ∧ vertex_attributes (final (remove_vertex 1 (grown dynamic_graph [1]))) !! 1
    = Some ∅
  ∧ matrix_shape (static_graph false []) = Some (0, 0)%nat
  ∧ matrix_shape (final (remove_vertex 1 (grown static_graph [1])))
    = Some (1, 1)%nat.
Proof. vm_compute. done. Qed.

Lemma add_then_remove_vertex_witness :
  wf (one_edge dynamic_graph one)
  ∧ 3 ∉ vertices (one_edge dynamic_graph one)
  ∧ value (add_vertex 3 (one_edge dynamic_graph one)) = inr tt
  ∧ value (remove_vertex 3 (final (add_vertex 3 (one_edge dynamic_graph one))))
    = inr tt
  ∧ vertices (final (remove_vertex 3
                       (final (add_vertex 3 (one_edge dynamic_graph one)))))
    = vertices (one_edge dynamic_graph one)
  ∧ storage (final (remove_vertex 3
                      (final (add_vertex 3 (one_edge dynamic_graph one)))))
    = storage (one_edge dynamic_graph one).
Proof.
  assert (wf (one_edge dynamic_graph one)) as Hwf
    by (apply reachable_wf, after_reachable, reach_dynamic).
  assert (3 ∉ vertices (one_edge dynamic_graph one)) as Hnew.
  { apply (proj1 (contains_false 3 (vertices (one_edge dynamic_graph one)))).
    reflexivity. }
  destruct (add_then_remove_vertex (one_edge dynamic_graph one) 3 Hwf Hnew)
    as [Hadd Hrest].
  destruct (Hrest Hadd) as (? & _ & ? & _ & ? & _). done.
Defined.

(** C8, as stated, fails: on a [StaticGraph] an edge added with weight
    NaN is no edge, [get_edge_weight] raises "no edge"; and between
    vertices that came through [add_vertex], [add_edge] raises
    [IndexError]. *)
Lemma static_add_edge_loses_weight :
  value (add_edge 1 2 nan (static_graph false [1; 2])) = inr tt
  ∧ value (get_edge_weight 1 2 (one_edge static_graph nan))
    = inl (ValueError NoSuchEdge)
  ∧ vertices (grown static_graph [1; 2]) = [1; 2]
  ∧ value (add_edge 1 2 one (grown static_graph [1; 2])) = inl IndexError.
Proof. vm_compute. done. Qed.

Lemma add_edge_then_weight_witness :
  wf (static_graph false [1; 2])
  ∧ index 1 (vertices (static_graph false [1; 2])) = Some 0%nat
  ∧ index 2 (vertices (static_graph false [1; 2])) = Some 1%nat
  ∧ fits (static_graph false [1; 2]) 0 1 two_and_a_half
  ∧ value (add_edge 1 2 two_and_a_half (static_graph false [1; 2])) = inr tt
  ∧ value (get_edge_weight 1 2
             (final (add_edge 1 2 two_and_a_half (static_graph false [1; 2]))))
    = inr two_and_a_half
  ∧ value (get_edge_weight 2 1
             (final (add_edge 1 2 two_and_a_half (static_graph false [1; 2]))))
    = inr two_and_a_half.
Proof.
  assert (wf (static_graph false [1; 2])) as Hwf
    by (apply reachable_wf, reach_static).
  assert (fits (static_graph false [1; 2]) 0 1 two_and_a_half) as Hfits.
  { simpl. split_and!; [lia..|reflexivity]. }
  split_and!; [exact Hwf|reflexivity|reflexivity|exact Hfits|..].
  all: destruct (add_edge_then_weight (static_graph false [1; 2]) 1 2 0 1
                   two_and_a_half Hwf eq_refl eq_refl Hfits)
         as (? & ? & Hrev);
    first [done | by apply Hrev].
Defined.

(** C9, as stated, fails: one [add_edge] call with weight NaN on a
    [StaticGraph] returns, and [edges] is empty. *)
Lemma static_nan_edge_not_counted :
  add_all [(1, 2, nan)] (static_graph false [1; 2])
    = inr (one_edge static_graph nan)
  ∧ edges (one_edge static_graph nan) = inr ∅.
Proof. vm_compute. done. Qed.


End on_examples.

(** * Further properties of the methods *)

(** ** Writing cells *)

Section upd_facts.
Context {X : Type}.
Implicit Types (m : list (list X)) (x y : X).

Lemma set2_upd m (u v : nat) x m' : set2 m u v x = inr m' → m' = upd m u v x.
Proof.
  intros (row & Hrow & _ & ->)%set2_inr. unfold upd.
  apply list_eq. intros i. destruct (decide (i = u)) as [->|Hne].
  - rewrite list_lookup_alter_eq, Hrow. simpl.
    apply list_lookup_insert_eq. by eapply lookup_lt_Some.
  - rewrite list_lookup_alter_ne by done. by rewrite list_lookup_insert_ne.
Qed.

Lemma upd_upd_eq m (u v : nat) x y : upd (upd m u v x) u v y = upd m u v y.
Proof.
  unfold upd. rewrite list_alter_alter_eq. apply list_alter_ext; [|done].
  intros row _. simpl. apply list_insert_insert_eq.
Qed.

Lemma upd_comm m (u v i j : nat) x y :
  (u, v) ≠ (i, j) → upd (upd m u v x) i j y = upd (upd m i j y) u v x.
Proof.
  intros Hne. unfold upd. destruct (decide (u = i)) as [->|Hui].
  - rewrite !list_alter_alter_eq. apply list_alter_ext; [|done].
    intros row _. simpl. apply list_insert_insert_ne. congruence.
  - by rewrite list_alter_alter_ne.
Qed.

Lemma upd_id m (u v : nat) x : get2 m u v = inr x → upd m u v x = m.
Proof.
  intros (row & Hrow & Hcell)%get2_inr. unfold upd.
  apply list_eq. intros i. destruct (decide (i = u)) as [->|Hne].
  - rewrite list_lookup_alter_eq, Hrow. simpl. f_equal.
    by apply list_insert_id.
  - by rewrite list_lookup_alter_ne.
Qed.

Lemma set2_defined m (u v : nat) x y :
  get2 m u v = inr y → ∃ m', set2 m u v x = inr m'.
Proof.
  intros (row & Hrow & Hcell)%get2_inr. eexists. apply set2_inr.
  exists row. split_and!; [done| |done]. by eapply lookup_lt_Some.
Qed.
End upd_facts.

Lemma run_eq {S B} (r : run S B) s ws x :
  final r = s → warned r = ws → value r = x → r = Run s ws x.
Proof. destruct r. simpl. by intros -> -> ->. Qed.

Section edge_methods.
Context {V K A : Type} `{Countable V, Countable K}.
Implicit Types g : AnyGraph.t V K A.

(** X1. With an endpoint that is not a vertex, [add_edge], [remove_edge]
    and [get_edge_weight] raise the "not in graph" [ValueError] and
    [has_edge] returns [False]; none of them changes the graph or warns. *)
Theorem unknown_vertex_raises g (v1 v2 : V) w :
  v1 ∉ AnyGraph.vertices g ∨ v2 ∉ AnyGraph.vertices g →
  AnyGraph.add_edge v1 v2 w g = Run g [] (inl (ValueError NotInGraph))
  ∧ AnyGraph.remove_edge v1 v2 g = Run g [] (inl (ValueError NotInGraph))
  ∧ AnyGraph.get_edge_weight v1 v2 g = Run g [] (inl (ValueError NotInGraph))
  ∧ AnyGraph.has_edge v1 v2 g = Run g [] (inr false).
Proof.
  intros Habs.
  destruct (add_edge_effect g v1 v2 w) as (Hw & _ & Hadd).
  destruct (remove_edge_effect g v1 v2) as (_ & _ & Hrem).
  rewrite get_edge_weight_run, has_edge_run.
  destruct (index v1 (AnyGraph.vertices g)) as [u|] eqn:Hu.
  - destruct (index v2 (AnyGraph.vertices g)) as [v|] eqn:Hv.
    + apply index_Some in Hu, Hv.
      destruct Habs as [[]|[]]; by eapply list_elem_of_lookup_2.
    + destruct Hadd, Hrem as (? & ? & ?). split_and!; by try apply run_eq.
  - destruct Hadd, Hrem as (? & ? & ?). split_and!; by try apply run_eq.
Qed.

(** X2. [has_edge(v1, v2)] returns [True] exactly when
    [get_edge_weight(v1, v2)] returns a weight; when it returns [False]
    for two vertices of the graph, [get_edge_weight] raises the "no
    edge" [ValueError]. *)
Theorem has_edge_iff_weight g (v1 v2 : V) :
  (value (AnyGraph.has_edge v1 v2 g) = inr true
   ↔ ∃ w, value (AnyGraph.get_edge_weight v1 v2 g) = inr w)
  ∧ (v1 ∈ AnyGraph.vertices g → v2 ∈ AnyGraph.vertices g →
     value (AnyGraph.has_edge v1 v2 g) = inr false →
     value (AnyGraph.get_edge_weight v1 v2 g) = inl (ValueError NoSuchEdge)).
Proof.
  rewrite has_edge_run, get_edge_weight_run. simpl. split.
  - destruct (index v1 _) as [u|]; [|split; [done|by intros [w ?]]].
    destruct (index v2 _) as [v|]; [|split; [done|by intros [w ?]]].
    destruct (get2 (storage g) u v) as [e|[w|]]; simpl.
    + split; [done|by intros [w ?]].
    + split; [by exists w|done].
    + split; [done|by intros [w ?]].
  - intros [u Hu]%index_is_Some [v Hv]%index_is_Some. rewrite Hu, Hv.
    by destruct (get2 (storage g) u v) as [e|[w|]].
Qed.

Lemma get_edge_attribute_run g (e : V * V) key :
  AnyGraph.get_edge_attribute e key g
  = Run g []
      (let+ d :=
         match AnyGraph.edge_attributes g !! e with
         | Some d => inr d
         | None =>
             if AnyGraph.directed g then inl (ValueError NotInGraph)
             else match AnyGraph.edge_attributes g !! (e.2, e.1) with
                  | Some d => inr d
                  | None => inl (ValueError NotInGraph)
                  end
         end in
       match d !! key with Some a => inr a | None => inl KeyError end).
Proof.
  unfold AnyGraph.get_edge_attribute. rewrite super_run.
  unfold AnyGraph.edge_attributes, AnyGraph.directed.
  destruct g as [[[dir vs va ea] mr a]|[[dir vs va ea] m]]; simpl;
    unfold Graph.get_edge_attribute; run;
    (destruct (ea !! e) as [d|]; simpl; [by destruct (d !! key)|]);
    (destruct dir; simpl; [done|]);
    (destruct (ea !! (e.2, e.1)) as [d|]; simpl; [|done]);
    by destruct (d !! key).
Qed.

(** X3. When both endpoints are vertices, [add_edge(v1, v2, w)] leaves
    the edge with an empty attribute map under the key [(v1, v2)],
    whatever was there before and whether or not the call returns:
    every [get_edge_attribute((v1, v2), key)] right after it raises
    [KeyError]. *)
Theorem add_edge_resets_attributes g (v1 v2 : V) w key :
  v1 ∈ AnyGraph.vertices g → v2 ∈ AnyGraph.vertices g →
  AnyGraph.edge_attributes (final (AnyGraph.add_edge v1 v2 w g))
  = <[(v1, v2) := ∅]> (AnyGraph.edge_attributes g)
  ∧ value (AnyGraph.get_edge_attribute (v1, v2) key
             (final (AnyGraph.add_edge v1 v2 w g))) = inl KeyError.
Proof.
  intros [u Hu]%index_is_Some [v Hv]%index_is_Some.
  destruct (add_edge_effect g v1 v2 w) as (_ & _ & Hcases).
  rewrite Hu, Hv in Hcases. destruct Hcases as [Hea _].
  split; [done|]. rewrite get_edge_attribute_run. simpl.
  by rewrite Hea, lookup_insert_eq.
Qed.

(** X4. [remove_edge] is idempotent: when [remove_edge(v1, v2)] has
    returned, a second [remove_edge(v1, v2)] returns too, warns that the
    edge does not exist and changes nothing. *)
Theorem remove_edge_twice g (v1 v2 : V) :
  value (AnyGraph.remove_edge v1 v2 g) = inr tt →
  AnyGraph.remove_edge v1 v2 (final (AnyGraph.remove_edge v1 v2 g))
  = Run (final (AnyGraph.remove_edge v1 v2 g)) [RemoveMissingEdge] (inr tt).
Proof.
  intros Hval.
  destruct (remove_edge_effect g v1 v2) as ((_ & Hdir & Hvs & _) & _ & Hcases).
  rewrite Hval in Hcases.
  set (g1 := final (AnyGraph.remove_edge v1 v2 g)) in *.
  destruct (remove_edge_effect g1 v1 v2) as (_ & _ & Hcases1).
  rewrite Hvs in Hcases1.
  destruct (index v1 (AnyGraph.vertices g)) as [u|]; [|by destruct Hcases].
  destruct (index v2 (AnyGraph.vertices g)) as [v|]; [|by destruct Hcases].
  assert (get2 (storage g1) u v = inr None) as Hcell.
  { destruct (get2 (storage g) u v) as [e|[c|]] eqn:Hc;
      [by destruct Hcases| |by destruct Hcases as (_ & _ & ->)].
    destruct Hcases as [_ Hcases].
    destruct (set2 (storage g) u v None) as [e|m1] eqn:H1;
      [by destruct Hcases|].
    destruct (AnyGraph.directed g).
    { destruct Hcases as [_ ->]. by eapply get2_set2_eq. }
    destruct (set2 m1 v u None) as [e|m2] eqn:H2; [by destruct Hcases|].
    destruct Hcases as [_ ->].
    destruct (decide ((u, v) = (v, u))) as [[= ->]|Hne].
    - by eapply get2_set2_eq.
    - rewrite (get2_set2_ne _ _ _ _ _ _ _ H2) by done.
      by eapply get2_set2_eq. }
  rewrite Hcell in Hcases1. destruct Hcases1 as (? & ? & ?).
  by apply run_eq.
Qed.

(** X5. Between two vertices with no edge, [add_edge] followed by
    [remove_edge] gives back the adjacency storage, the vertices and
    [vertex_attributes]; of the edge only the empty entry in
    [edge_attributes] is left. *)
Theorem add_then_remove_edge g (v1 v2 : V) (u v : nat) w :
  index v1 (AnyGraph.vertices g) = Some u →
  index v2 (AnyGraph.vertices g) = Some v →
  AnyGraph.cell g u v = inr None →
  (AnyGraph.directed g = false → AnyGraph.cell g v u = inr None) →
  value (AnyGraph.add_edge v1 v2 w g) = inr tt →
  let r := AnyGraph.remove_edge v1 v2 (final (AnyGraph.add_edge v1 v2 w g)) in
  value r = inr tt
  ∧ storage (final r) = storage g
  ∧ AnyGraph.vertices (final r) = AnyGraph.vertices g
  ∧ AnyGraph.vertex_attributes (final r) = AnyGraph.vertex_attributes g
  ∧ AnyGraph.edge_attributes (final r)
    = <[(v1, v2) := ∅]> (AnyGraph.edge_attributes g).
Proof.
  intros Hu Hv Huv Hvu Hval. rewrite cell_storage in Huv, Hvu.
  destruct (add_edge_effect g v1 v2 w) as (_ & (_ & Hdir & Hvs & Hva) & Hadd).
  rewrite Hu, Hv, Hval in Hadd. destruct Hadd as [Hea Hadd].
  set (g1 := final (AnyGraph.add_edge v1 v2 w g)) in *.
  destruct (remove_edge_effect g1 v1 v2) as ((_ & _ & Hvs1 & Hva1) & Hea1 & Hrem).
  rewrite Hvs, Hu, Hv, Hdir in Hrem. simpl.
  rewrite Hvs1, Hva1, Hea1, Hvs, Hva, Hea.
  assert (value (AnyGraph.remove_edge v1 v2 g1) = inr tt
          ∧ storage (final (AnyGraph.remove_edge v1 v2 g1)) = storage g)
    as [? ?]; [|done].
  destruct (set2 (storage g) u v (stored g w)) as [e|m1] eqn:H1;
    [by destruct Hadd|].
  pose proof (set2_upd _ _ _ _ _ H1) as Hm1.
  destruct (AnyGraph.directed g) eqn:Hd.
  - destruct Hadd as [_ Hst]. rewrite Hst in Hrem.
    rewrite (get2_set2_eq _ _ _ _ _ H1) in Hrem.
    destruct (stored g w) as [w'|] eqn:Hw.
    + destruct Hrem as [_ Hrem].
      destruct (set2 m1 u v None) as [e|m3] eqn:H3.
      { destruct (set2_defined m1 u v None (Some w')) as [? Hex];
          [by eapply get2_set2_eq|congruence]. }
      destruct Hrem as [-> ->]. split; [done|].
      rewrite (set2_upd _ _ _ _ _ H3), Hm1, upd_upd_eq. by apply upd_id.
    + destruct Hrem as (-> & _ & ->). split; [done|].
      rewrite Hst, Hm1. by apply upd_id.
  - specialize (Hvu eq_refl).
    destruct (set2 m1 v u (stored g w)) as [e|m2] eqn:H2; [by destruct Hadd|].
    pose proof (set2_upd _ _ _ _ _ H2) as Hm2.
    destruct Hadd as [_ Hst]. rewrite Hst in Hrem.
    assert (get2 m2 u v = inr (stored g w)) as Hget.
    { destruct (decide ((u, v) = (v, u))) as [[= ->]|Hne].
      - by eapply get2_set2_eq.
      - rewrite (get2_set2_ne _ _ _ _ _ _ _ H2) by done.
        by eapply get2_set2_eq. }
    rewrite Hget in Hrem.
    assert (upd (upd m2 u v None) v u None = storage g) as Hback.
    { rewrite Hm2, Hm1.
      destruct (decide ((u, v) = (v, u))) as [[= ->]|Hne].
      - rewrite !upd_upd_eq. by apply upd_id.
      - rewrite (upd_comm _ v u u v) by done. rewrite !upd_upd_eq.
        rewrite (upd_id _ u v) by done. by apply upd_id. }
    destruct (stored g w) as [w'|] eqn:Hw.
    + destruct Hrem as [_ Hrem].
      destruct (set2 m2 u v None) as [e|m3] eqn:H3.
      { destruct (set2_defined m2 u v None (Some w')) as [? Hex];
          [done|congruence]. }
      pose proof (set2_upd _ _ _ _ _ H3) as Hm3.
      destruct (set2 m3 v u None) as [e|m4] eqn:H4.
      { assert (∃ c, get2 m3 v u = inr c) as [c Hc].
        { destruct (decide ((v, u) = (u, v))) as [[= ->]|Hne].
          - eexists. by eapply get2_set2_eq.
          - rewrite (get2_set2_ne _ _ _ _ _ _ _ H3) by done.
            eexists. by eapply get2_set2_eq. }
        destruct (set2_defined m3 v u None c) as [? Hex]; [done|congruence]. }
      destruct Hrem as [-> ->]. split; [done|].
      by rewrite (set2_upd _ _ _ _ _ H4), Hm3.
    + destruct Hrem as (-> & _ & ->). split; [done|].
      rewrite Hst, Hm2, Hm1. rewrite (upd_id _ u v) by done.
      by apply upd_id.
Qed.
End edge_methods.

(** ** Children and parents *)

Lemma foldM_total {X B} (f : B → X → exn + B) acc xs :
  (∀ b x, x ∈ xs → ∃ b', f b x = inr b') → ∃ r, foldM f acc xs = inr r.
Proof.
  revert acc. induction xs as [|x xs IH]; intros acc Hf; simpl; [by eexists|].
  destruct (Hf acc x) as [b' ->]; [left|]. simpl.
  apply IH. intros b y Hy. apply Hf. by right.
Qed.

Section neighbour_facts.
Context {V : Type} `{Countable V}.
Implicit Types (vs : list V) (cell : nat → exn + option DTYPE_t).

Lemma neighbours_prefix vs cell (n : nat) (acc S : gset V) :
  foldM (λ (found : gset V) u,
           let+ c := cell u in
           match c with
           | Some _ => let+ x := getitem vs u in inr ({[x]} ∪ found)
           | None => inr found
           end) acc (seq 0 n) = inr S →
  ∀ x, x ∈ S ↔ x ∈ acc ∨ ∃ u w, u < n ∧ vs !! u = Some x
                                ∧ cell u = inr (Some w).
Proof.
  revert S. induction n as [|n IH]; intros S.
  - simpl. intros [= <-] x. split; [by left|].
    intros [?|(u & w & ? & _)]; [done|lia].
  - rewrite seq_S, foldM_app. simpl.
    match goal with |- context [foldM ?f acc (seq 0 n)] =>
      destruct (foldM f acc (seq 0 n)) as [e|S0] eqn:H0 end; [done|].
    specialize (IH S0 eq_refl).
    destruct (cell n) as [e|[w|]] eqn:Hc; simpl; [done| |].
    + unfold getitem. destruct (vs !! n) as [y|] eqn:Hy; simpl; [|done].
      intros [= <-] x. rewrite elem_of_union, elem_of_singleton, IH. split.
      * intros [->|[?|(u & w' & ? & ? & ?)]].
        -- right. exists n, w. split_and!; [lia|done..].
        -- by left.
        -- right. exists u, w'. split_and!; [lia|done..].
      * intros [?|(u & w' & Hlt & Hu & Hcu)]; [right; by left|].
        destruct (decide (u = n)) as [->|Hne]; [left; congruence|].
        right. right. exists u, w'. split_and!; [lia|done..].
    + intros [= <-] x. rewrite IH. split.
      * intros [?|(u & w' & ? & ? & ?)]; [by left|].
        right. exists u, w'. split_and!; [lia|done..].
      * intros [?|(u & w' & Hlt & Hu & Hcu)]; [by left|].
        destruct (decide (u = n)) as [->|Hne]; [congruence|].
        right. exists u, w'. split_and!; [lia|done..].
Qed.

Lemma neighbours_inr vs cell (S : gset V) :
  neighbours vs cell = inr S →
  ∀ x, x ∈ S ↔ ∃ u w, vs !! u = Some x ∧ cell u = inr (Some w).
Proof.
  intros HS x. rewrite (neighbours_prefix vs cell _ ∅ S HS x). split.
  - intros [?|(u & w & _ & ? & ?)]; [set_solver|by exists u, w].
  - intros (u & w & Hu & Hc). right. exists u, w. split_and!; [|done..].
    by eapply lookup_lt_Some.
Qed.

Lemma neighbours_total vs cell :
  (∀ u, u < length vs → ∃ c, cell u = inr c) → ∃ S, neighbours vs cell = inr S.
Proof.
  intros Hcell. apply foldM_total. intros found u Hu.
  apply elem_of_seq in Hu as [_ Hu]. simpl in Hu.
  destruct (Hcell u Hu) as [[w|] ->]; simpl; [|by eexists].
  unfold getitem. destruct (lookup_lt_is_Some_2 vs u Hu) as [x ->].
  by eexists.
Qed.

Lemma index_lookup_NoDup vs (u : nat) (x : V) :
  NoDup vs → vs !! u = Some x → index x vs = Some u.
Proof.
  intros Hnd Hu.
  destruct (index_is_Some x vs) as [i Hi]; [by eapply list_elem_of_lookup_2|].
  pose proof (index_Some _ _ _ Hi) as Hi'.
  by rewrite (NoDup_lookup _ _ _ _ Hnd Hu Hi').
Qed.
End neighbour_facts.

Section neighbours_of_graphs.
Context {V K A : Type} `{Countable V, Countable K}.
Implicit Types g : AnyGraph.t V K A.

Lemma has_edge_true g (v1 v2 : V) :
  value (AnyGraph.has_edge v1 v2 g) = inr true
  ↔ ∃ u v w, index v1 (AnyGraph.vertices g) = Some u
             ∧ index v2 (AnyGraph.vertices g) = Some v
             ∧ get2 (storage g) u v = inr (Some w).
Proof.
  rewrite has_edge_run. simpl. split.
  - destruct (index v1 _) as [u|]; [|done].
    destruct (index v2 _) as [v|]; [|done].
    destruct (get2 (storage g) u v) as [e|[w|]] eqn:Hc; simpl; [done| |done].
    intros _. by exists u, v, w.
  - intros (u & v & w & -> & -> & Hc). by rewrite Hc.
Qed.

Lemma children_cells g (v1 : V) (S : gset V) :
  NoDup (AnyGraph.vertices g) →
  value (AnyGraph.get_children v1 g) = inr S →
  ∀ x, x ∈ S ↔ value (AnyGraph.has_edge v1 x g) = inr true.
Proof.
  intros Hnd. rewrite get_children_run. simpl.
  destruct (index v1 (AnyGraph.vertices g)) as [u|] eqn:Hu; [|done].
  intros HS x. rewrite (neighbours_inr _ _ _ HS x), has_edge_true, Hu. split.
  - intros (v & w & Hv & Hc). exists u, v, w.
    split_and!; [done| |done]. by apply index_lookup_NoDup.
  - intros (u' & v & w & [= <-] & Hv & Hc). exists v, w.
    split; [by apply index_Some|done].
Qed.

Lemma parents_cells g (v1 : V) (S : gset V) :
  NoDup (AnyGraph.vertices g) →
  value (AnyGraph.get_parents v1 g) = inr S →
  ∀ x, x ∈ S ↔ value (AnyGraph.has_edge x v1 g) = inr true.
Proof.
  intros Hnd. rewrite get_parents_run. simpl.
  destruct (index v1 (AnyGraph.vertices g)) as [u|] eqn:Hu; [|done].
  intros HS x. rewrite (neighbours_inr _ _ _ HS x), has_edge_true, Hu. split.
  - intros (v & w & Hv & Hc). exists v, u, w.
    split_and!; [|done..]. by apply index_lookup_NoDup.
  - intros (v & u' & w & Hv & [= <-] & Hc). exists v, w.
    split; [by apply index_Some|done].
Qed.

(** X6. On a graph without repeated vertices, the set that
    [get_children(v)] returns holds exactly the vertices [x] for which
    [has_edge(v, x)] is [True]. *)
Theorem get_children_has_edge g (v1 : V) (S : gset V) :
  NoDup (AnyGraph.vertices g) →
  value (AnyGraph.get_children v1 g) = inr S →
  ∀ x, x ∈ S ↔ value (AnyGraph.has_edge v1 x g) = inr true.
Proof. apply children_cells. Qed.

(** X7. On a graph without repeated vertices, the set that
    [get_parents(v)] returns holds exactly the vertices [x] for which
    [has_edge(x, v)] is [True]. *)
Theorem get_parents_has_edge g (v1 : V) (S : gset V) :
  NoDup (AnyGraph.vertices g) →
  value (AnyGraph.get_parents v1 g) = inr S →
  ∀ x, x ∈ S ↔ value (AnyGraph.has_edge x v1 g) = inr true.
Proof. apply parents_cells. Qed.

(** X8. Children and parents are dual: on a graph without repeated
    vertices, [b] is among [get_children(a)] exactly when [a] is among
    [get_parents(b)]. *)
Theorem children_parents_dual g (a b : V) (Sa Pb : gset V) :
  NoDup (AnyGraph.vertices g) →
  value (AnyGraph.get_children a g) = inr Sa →
  value (AnyGraph.get_parents b g) = inr Pb →
  b ∈ Sa ↔ a ∈ Pb.
Proof.
  intros Hnd Ha Hb.
  by rewrite (children_cells g a Sa Hnd Ha b), (parents_cells g b Pb Hnd Hb a).
Qed.

(** X9. On every undirected graph a program can hold, [get_children(v)]
    and [get_parents(v)] do the same: same result or same exception. *)
Theorem undirected_children_are_parents g (v1 : V) :
  AnyGraph.reachable g → AnyGraph.directed g = false →
  AnyGraph.get_children v1 g = AnyGraph.get_parents v1 g.
Proof.
  intros Hreach Hdir.
  destruct (reachable_invariant g Hreach) as (_ & Hsym).
  specialize (Hsym Hdir).
  rewrite get_children_run, get_parents_run. f_equal.
  destruct (index v1 _) as [u|]; [|done].
  apply foldM_ext. intros found v _. by rewrite (Hsym u v).
Qed.
End neighbours_of_graphs.

(** ** The vertex sequence *)

Section vertex_sequence.
Context {V K A : Type} `{Countable V, Countable K}.
Implicit Types g : AnyGraph.t V K A.

(** What [add_vertex] does to the base part, whether it returns or not. *)
Lemma add_vertex_base g (v1 : V) :
  let g' := final (AnyGraph.add_vertex v1 g) in
  AnyGraph.directed g' = AnyGraph.directed g
  ∧ AnyGraph.vertices g'
    = (if contains v1 (AnyGraph.vertices g) then AnyGraph.vertices g
       else AnyGraph.vertices g ++ [v1])
  ∧ AnyGraph.vertex_attributes g' = <[v1 := ∅]> (AnyGraph.vertex_attributes g)
  ∧ AnyGraph.edge_attributes g' = AnyGraph.edge_attributes g.
Proof.
  destruct g as [[[dir vs va ea] mr a]|[[dir vs va ea] m]];
    unfold AnyGraph.add_vertex, AnyGraph.directed, AnyGraph.vertices,
      AnyGraph.vertex_attributes, AnyGraph.edge_attributes; simpl.
  - rewrite sta_add_vertex_run. simpl.
    destruct (contains v1 vs); simpl; [done|].
    destruct (decide (length vs = 0)); simpl; [done|].
    match goal with |- context [np_append0 ?x ?y] =>
      destruct (np_append0 x y) as [e|a'] end; simpl; [done|].
    match goal with |- context [np_append1 ?x ?y] =>
      destruct (np_append1 x y) as [e|a''] end; simpl; done.
  - rewrite dyn_add_vertex_run. simpl. by destruct (contains v1 vs).
Qed.

(** What [remove_vertex] does to the base part, whether it returns or
    not. *)
Lemma remove_vertex_base g (v1 : V) :
  AnyGraph.base (final (AnyGraph.remove_vertex v1 g))
  = match index v1 (AnyGraph.vertices g) with
    | Some u => Graph.set_vertices (delete u) (AnyGraph.base g)
    | None => AnyGraph.base g
    end.
Proof.
  destruct g as [[b mr a]|[b m]];
    unfold AnyGraph.remove_vertex, AnyGraph.vertices; simpl.
  - destruct (index v1 (Graph.vertices b)) as [u|] eqn:Hu.
    + rewrite (sta_remove_vertex_run _ _ _ _ u) by done. simpl.
      match goal with |- context [np_delete1 ?x ?y] =>
        destruct (np_delete1 x y) as [e|?] end; simpl; [done|].
      match goal with |- context [np_delete0 ?x ?y] =>
        destruct (np_delete0 x y) as [e|?] end; simpl; done.
    + by rewrite sta_remove_vertex_absent.
  - destruct (index v1 (Graph.vertices b)) as [u|] eqn:Hu.
    + unfold DynamicGraph.remove_vertex. destruct b as [dir vs va ea].
      simpl in *. run. rewrite (remove_index _ _ _ Hu). run.
      unfold pop. case_decide; simpl; [|done].
      match goal with |- context [for_each ?xs ?body ?s] =>
        pose proof (for_each_preserves
                      (λ d, DynamicGraph.base d
                            = Graph.mk dir (delete u vs) va ea)
                      body xs s) as Hloop;
        destruct (for_each xs body s) as [d' ws x]
      end.
      simpl in *. apply Hloop; [|done].
      intros i [b' m'] Hb'. simpl in Hb'. subst b'.
      unfold DynamicGraph.pop_in_row. run.
      destruct (getitem m' i) as [e|row]; simpl; [done|].
      destruct (pop row u) as [e|row']; simpl; done.
    + by rewrite dyn_remove_vertex_absent.
Qed.

Lemma call_base g (o : AnyGraph.op V K A) :
  let g' := final (AnyGraph.call o g) in
  AnyGraph.directed g' = AnyGraph.directed g ∧
  AnyGraph.vertices g'
  = match o with
    | AnyGraph.AddVertex v =>
        if contains v (AnyGraph.vertices g) then AnyGraph.vertices g
        else AnyGraph.vertices g ++ [v]
    | AnyGraph.RemoveVertex v =>
        match index v (AnyGraph.vertices g) with
        | Some u => delete u (AnyGraph.vertices g)
        | None => AnyGraph.vertices g
        end
    | _ => AnyGraph.vertices g
    end.
Proof.
  assert (∀ {B} (m : M (Graph.t V K A) B),
            same_keys (AnyGraph.base g) (final (m (AnyGraph.base g))) →
            let g' := final (AnyGraph.dispatch (StaticGraph.super m)
                                               (DynamicGraph.super m) g) in
            AnyGraph.directed g' = AnyGraph.directed g
            ∧ AnyGraph.vertices g' = AnyGraph.vertices g) as Hsuper.
  { intros B m (Hdir & Hvs & _). simpl. rewrite super_run.
    destruct (m (AnyGraph.base g)) as [b' ws x]. simpl in *.
    unfold AnyGraph.directed, AnyGraph.vertices.
    by destruct g as [[]|[]]. }
  destruct o; simpl; rewrite ?final_answering.
  - by destruct (add_vertex_base g v) as (? & ? & _).
  - pose proof (remove_vertex_base g v) as Hb.
    unfold AnyGraph.directed, AnyGraph.vertices in *. rewrite Hb.
    by destruct (index v _).
  - apply Hsuper. by rewrite has_vertex_final.
  - by destruct (add_edge_effect g v1 v2 weight) as (_ & (_ & ? & ? & _) & _).
  - by destruct (remove_edge_effect g v1 v2) as ((_ & ? & ? & _) & _).
  - by rewrite has_edge_run.
  - by rewrite get_edge_weight_run.
  - by rewrite get_children_run.
  - by rewrite get_parents_run.
  - apply Hsuper, set_vertex_attribute_keys.
  - apply Hsuper. by rewrite get_vertex_attribute_final.
  - apply Hsuper, set_edge_attribute_keys.
  - apply Hsuper. by rewrite get_edge_attribute_final.
  - unfold bind, gets, AnyGraph.answering, lift, ret. simpl.
    by destruct (AnyGraph.edges g).
Qed.

(** X10. No call changes [directed]; only [add_vertex] and
    [remove_vertex] change the vertex sequence: [add_vertex(v)] appends
    [v] unless it is there already, [remove_vertex(v)] drops the first
    occurrence of [v] if there is one, whether the call then returns or
    raises. *)
Theorem calls_and_vertices g (o : AnyGraph.op V K A) :
  AnyGraph.directed (final (AnyGraph.call o g)) = AnyGraph.directed g ∧
  AnyGraph.vertices (final (AnyGraph.call o g))
  = match o with
    | AnyGraph.AddVertex v =>
        if contains v (AnyGraph.vertices g) then AnyGraph.vertices g
        else AnyGraph.vertices g ++ [v]
    | AnyGraph.RemoveVertex v =>
        match index v (AnyGraph.vertices g) with
        | Some u => delete u (AnyGraph.vertices g)
        | None => AnyGraph.vertices g
        end
    | _ => AnyGraph.vertices g
    end.
Proof. apply call_base. Qed.

Lemma NoDup_delete (vs : list V) (u : nat) : NoDup vs → NoDup (delete u vs).
Proof. intros Hnd. eapply sublist_NoDup; [done|apply sublist_delete]. Qed.

Lemma NoDup_call g (o : AnyGraph.op V K A) :
  NoDup (AnyGraph.vertices g) →
  NoDup (AnyGraph.vertices (final (AnyGraph.call o g))).
Proof.
  intros Hnd. destruct (call_base g o) as [_ ->].
  destruct o; try done.
  - destruct (contains v (AnyGraph.vertices g)) eqn:Hv; [done|].
    apply contains_false in Hv. apply NoDup_app. split_and!; [done| |].
    + intros x Hx ->%list_elem_of_singleton. done.
    + apply NoDup_singleton.
  - destruct (index v (AnyGraph.vertices g)); [|done]. by apply NoDup_delete.
Qed.

(** X11. A graph without repeated vertices stays so under every sequence
    of calls, raising or not. *)
Theorem vertices_stay_distinct g (os : list (AnyGraph.op V K A)) :
  NoDup (AnyGraph.vertices g) → NoDup (AnyGraph.vertices (after os g)).
Proof.
  revert g. induction os as [|o os IH]; intros g Hnd; simpl; [done|].
  by apply IH, NoDup_call.
Qed.

Lemma has_vertex_run g (v1 : V) :
  AnyGraph.has_vertex v1 g = Run g [] (inr (contains v1 (AnyGraph.vertices g))).
Proof. by destruct g as [[[]]|[[]]]. Qed.

(** X12. [has_vertex] follows the vertex calls, whether they return or
    raise: it is [True] after [add_vertex(v)], and on a graph without
    repeated vertices it is [False] after [remove_vertex(v)]. *)
Theorem has_vertex_after g (v1 : V) :
  value (AnyGraph.has_vertex v1 (final (AnyGraph.add_vertex v1 g))) = inr true
  ∧ (NoDup (AnyGraph.vertices g) →
     value (AnyGraph.has_vertex v1 (final (AnyGraph.remove_vertex v1 g)))
     = inr false).
Proof.
  rewrite !has_vertex_run. simpl. split.
  - destruct (add_vertex_base g v1) as (_ & -> & _).
    f_equal. apply contains_true.
    destruct (contains v1 (AnyGraph.vertices g)) eqn:Hv;
      [by apply contains_true|].
    apply elem_of_app. right. by apply list_elem_of_singleton.
  - intros Hnd. f_equal. apply contains_false.
    pose proof (remove_vertex_base g v1) as Hb.
    unfold AnyGraph.vertices in *. rewrite Hb.
    destruct (index v1 (Graph.vertices (AnyGraph.base g))) as [u|] eqn:Hu;
      [|by apply index_None].
    destruct (AnyGraph.base g) as [dir vs va ea]. simpl in *.
    apply index_Some in Hu. intros Hin.
    apply list_elem_of_lookup_1 in Hin as [i Hi].
    rewrite lookup_delete_skip in Hi.
    pose proof (NoDup_lookup _ _ _ _ Hnd Hu Hi) as Heq.
    unfold skip in Heq. case_decide; lia.
Qed.
End vertex_sequence.

(** ** The size of the storage *)

Lemma foldM_inl {X B} (f : B → X → exn + B) (e0 : exn) acc xs e :
  (∀ b x e', f b x = inl e' → e' = e0) → foldM f acc xs = inl e → e = e0.
Proof.
  intros Hf. revert acc. induction xs as [|x xs IH]; intros acc; simpl; [done|].
  destruct (f acc x) as [e'|acc'] eqn:Hx; [|by apply IH].
  intros [= <-]. by eapply Hf.
Qed.

Lemma foldM_fails {X B} (f : B → X → exn + B) acc xs x :
  x ∈ xs → (∀ b, ∃ e, f b x = inl e) → ∃ e, foldM f acc xs = inl e.
Proof.
  intros Hx Hf. revert acc. induction xs as [|y xs IH]; intros acc; simpl.
  - by apply elem_of_nil in Hx.
  - apply elem_of_cons in Hx as [<-|Hx].
    + destruct (Hf acc) as [e ->]. by exists e.
    + destruct (f acc y) as [e|acc']; [by exists e|]. by apply IH.
Qed.

Lemma get2_inl {X} (m : list (list X)) (u v : nat) e :
  get2 m u v = inl e → e = IndexError.
Proof.
  unfold get2, getitem. destruct (m !! u) as [row|]; [|by intros [= <-]].
  destruct (row !! v); [done|by intros [= <-]].
Qed.

Section scans_fail.
Context {V : Type} `{Countable V}.
Implicit Types (vs : list V).

Lemma neighbours_inl vs (cell : nat → exn + option DTYPE_t) (u : nat) :
  u < length vs →
  (∀ i e, cell i = inl e → e = IndexError) →
  cell u = inl IndexError →
  neighbours vs cell = inl IndexError.
Proof.
  intros Hu Herr Hcell. unfold neighbours.
  match goal with |- foldM ?f ?acc ?xs = _ =>
    destruct (foldM_fails f acc xs u) as [e He] end.
  - apply elem_of_seq. lia.
  - intros b. exists IndexError. by rewrite Hcell.
  - rewrite He. f_equal. eapply foldM_inl; [|exact He].
    intros b i e'. simpl. destruct (cell i) as [e''|[w|]] eqn:Hi; simpl.
    + intros [= <-]. by eapply Herr.
    + unfold getitem. destruct (vs !! i); [done|by intros [= <-]].
    + done.
Qed.

Lemma scan_inl vs (read : nat → nat → exn + option DTYPE_t) dir (u v : nat) :
  u < length vs → v < length vs →
  (∀ i j e, read i j = inl e → e = IndexError) →
  read u v = inl IndexError →
  scan_edges read vs dir = inl IndexError.
Proof.
  intros Hu Hv Herr Hcell. unfold scan_edges.
  match goal with |- foldM ?f ?acc ?xs = _ =>
    destruct (foldM_fails f acc xs (u, v)) as [e He] end.
  - by apply cells_in_bounds.
  - intros b. exists IndexError. unfold edges_step. simpl. by rewrite Hcell.
  - rewrite He. f_equal. eapply foldM_inl; [|exact He].
    intros b [i j] e'. unfold edges_step. simpl.
    destruct (read i j) as [e''|[w|]] eqn:Hij; simpl.
    + intros [= <-]. by eapply Herr.
    + unfold getitem. destruct (vs !! i); simpl; [|by intros [= <-]].
      destruct (vs !! j); simpl; [|by intros [= <-]].
      destruct dir; [done|]. by case_bool_decide.
    + done.
Qed.

Lemma scan_total vs (read : nat → nat → exn + option DTYPE_t) dir :
  (∀ i j, i < length vs → j < length vs → ∃ c, read i j = inr c) →
  ∃ S, scan_edges read vs dir = inr S.
Proof.
  intros Hread. apply foldM_total. intros found [i j] Hc.
  apply cells_in_bounds in Hc as [Hi Hj]. simpl in *.
  unfold edges_step. simpl.
  destruct (Hread i j Hi Hj) as [[w|] ->]; simpl; [|by eexists].
  unfold getitem.
  destruct (lookup_lt_is_Some_2 vs i Hi) as [x ->].
  destruct (lookup_lt_is_Some_2 vs j Hj) as [y ->]. simpl.
  destruct dir; [by eexists|]. case_bool_decide; by eexists.
Qed.
End scans_fail.

Section storage_size.
Context {V K A : Type} `{Countable V, Countable K}.
Implicit Types g : AnyGraph.t V K A.

Lemma with_base_storage (b : Graph.t V K A) g :
  storage (AnyGraph.with_base b g) = storage g
  ∧ matrix_shape (AnyGraph.with_base b g) = matrix_shape g.
Proof. by destruct g. Qed.

(** A call on a [StaticGraph] leaves a [StaticGraph] with a view of the
    same number of rows. *)
Lemma call_view g (o : AnyGraph.op V K A) :
  matrix_shape g ≠ None →
  matrix_shape (final (AnyGraph.call o g)) ≠ None
  ∧ length (storage (final (AnyGraph.call o g))) = length (storage g).
Proof.
  intros Hst.
  assert (∀ g', matrix_shape g' = matrix_shape g →
                matrix_shape g' ≠ None) as Hsame.
  { intros g' Hg'. by rewrite Hg'. }
  assert (∀ {B} (m : M (Graph.t V K A) B),
            let g' := final (AnyGraph.dispatch (StaticGraph.super m)
                                               (DynamicGraph.super m) g) in
            matrix_shape g' ≠ None
            ∧ length (storage g') = length (storage g)) as Hsuper.
  { intros B m. simpl. rewrite super_run.
    destruct (m (AnyGraph.base g)) as [b' ws x]. simpl.
    destruct (with_base_storage b' g) as [-> ->]. done. }
  destruct o; simpl; rewrite ?final_answering; try apply Hsuper.
  - destruct g as [[[dir vs va ea] mr a]|]; [|done].
    unfold AnyGraph.add_vertex. simpl. rewrite sta_add_vertex_run. simpl.
    destruct (contains v vs); simpl; [done|].
    destruct (decide (length vs = 0)); simpl; [done|].
    match goal with |- context [np_append0 ?x ?y] =>
      destruct (np_append0 x y) as [e|a'] end; simpl; [done|].
    match goal with |- context [np_append1 ?x ?y] =>
      destruct (np_append1 x y) as [e|a''] end; simpl; done.
  - destruct g as [[b mr a]|]; [|done].
    unfold AnyGraph.remove_vertex. simpl.
    destruct (index v (Graph.vertices b)) as [u|] eqn:Hu.
    + rewrite (sta_remove_vertex_run _ _ _ _ u) by done. simpl.
      match goal with |- context [np_delete1 ?x ?y] =>
        destruct (np_delete1 x y) as [e|?] end; simpl; [done|].
      match goal with |- context [np_delete0 ?x ?y] =>
        destruct (np_delete0 x y) as [e|?] end; simpl; done.
    + by rewrite sta_remove_vertex_absent.
  - destruct (add_edge_effect g v1 v2 weight) as (_ & (Hshape & _) & Hcases).
    split; [by apply Hsame|].
    destruct (index v1 _) as [u|]; [|by destruct Hcases as [_ ->]].
    destruct (index v2 _) as [v|]; [|by destruct Hcases as [_ ->]].
    destruct Hcases as [_ Hcases].
    destruct (set2 _ u v _) as [e|m1] eqn:H1; [by destruct Hcases as [_ ->]|].
    pose proof (set2_length _ _ _ _ _ H1) as Hlen1.
    destruct (AnyGraph.directed g); [destruct Hcases as [_ ->]; lia|].
    destruct (set2 m1 v u _) as [e|m2] eqn:H2;
      [destruct Hcases as [_ ->]; lia|].
    pose proof (set2_length _ _ _ _ _ H2) as Hlen2.
    destruct Hcases as [_ ->]. lia.
  - destruct (remove_edge_effect g v1 v2) as ((Hshape & _) & _ & Hcases).
    split; [by apply Hsame|].
    destruct (index v1 _) as [u|]; [|by destruct Hcases as (_ & _ & ->)].
    destruct (index v2 _) as [v|]; [|by destruct Hcases as (_ & _ & ->)].
    destruct (get2 _ u v) as [e|[c|]];
      [by destruct Hcases as (_ & _ & ->)| |by destruct Hcases as (_ & _ & ->)].
    destruct Hcases as [_ Hcases].
    destruct (set2 _ u v _) as [e|m1] eqn:H1; [by destruct Hcases as [_ ->]|].
    pose proof (set2_length _ _ _ _ _ H1) as Hlen1.
    destruct (AnyGraph.directed g); [destruct Hcases as [_ ->]; lia|].
    destruct (set2 m1 v u _) as [e|m2] eqn:H2;
      [destruct Hcases as [_ ->]; lia|].
    pose proof (set2_length _ _ _ _ _ H2) as Hlen2.
    destruct Hcases as [_ ->]. lia.
  - by rewrite has_edge_run.
  - by rewrite get_edge_weight_run.
  - by rewrite get_children_run.
  - by rewrite get_parents_run.
  - unfold bind, gets, AnyGraph.answering, lift, ret. simpl.
    by destruct (AnyGraph.edges g).
Qed.

(** X13. The view of a [StaticGraph] keeps the size it got from the
    constructor: after any calls on a graph built from [n] vertices the
    edge methods still work on [n] rows. *)
Theorem static_view_fixed dir (vs : list V) (os : list (AnyGraph.op V K A)) :
  length (storage (after os (AnyGraph.Static
                               (StaticGraph.__cinit__ dir vs))))
  = length vs.
Proof.
  assert (∀ g, matrix_shape g ≠ None →
               matrix_shape (after os g) ≠ None
               ∧ length (storage (after os g)) = length (storage g)) as Hos.
  { induction os as [|o os IH]; intros g Hg; simpl; [done|].
    destruct (call_view g o Hg) as [Hg' Hlen].
    destruct (IH _ Hg') as [? ->]. done. }
  destruct (Hos (AnyGraph.Static (StaticGraph.__cinit__ dir vs))) as [_ ->];
    [done|].
  simpl. by rewrite length_fmap, length_replicate.
Qed.

(** X14. Two vertices one of which sits at a position outside the
    storage: [has_edge], [get_edge_weight], [add_edge] and [remove_edge]
    all raise [IndexError]; [has_edge], [get_edge_weight] and
    [remove_edge] leave the graph as it was, [add_edge] leaves the cells
    as they were. *)
Theorem outside_storage_raises g (v1 v2 : V) (u v : nat) w :
  square (storage g) →
  index v1 (AnyGraph.vertices g) = Some u →
  index v2 (AnyGraph.vertices g) = Some v →
  length (storage g) ≤ u ∨ length (storage g) ≤ v →
  AnyGraph.has_edge v1 v2 g = Run g [] (inl IndexError)
  ∧ AnyGraph.get_edge_weight v1 v2 g = Run g [] (inl IndexError)
  ∧ AnyGraph.remove_edge v1 v2 g = Run g [] (inl IndexError)
  ∧ value (AnyGraph.add_edge v1 v2 w g) = inl IndexError
  ∧ storage (final (AnyGraph.add_edge v1 v2 w g)) = storage g.
Proof.
  intros Hsq Hu Hv Hout.
  pose proof (get2_square_inl _ u v Hsq Hout) as Hget.
  destruct (add_edge_effect g v1 v2 w) as (_ & _ & Hadd).
  destruct (remove_edge_effect g v1 v2) as (_ & _ & Hrem).
  rewrite has_edge_run, get_edge_weight_run.
  rewrite Hu, Hv in *. rewrite Hget in *. simpl.
  destruct Hrem as (? & ? & ?). destruct Hadd as [_ Hadd].
  destruct (set2 (storage g) u v (stored g w)) as [e|m1] eqn:Hset.
  - apply set2_inl in Hset as ->. destruct Hadd. split_and!; try done.
    by apply run_eq.
  - apply set2_inr in Hset as (row & Hrow & Hlt & _).
    destruct (lookup_lt_is_Some_2 row v Hlt) as [c Hc].
    assert (get2 (storage g) u v = inr c) as Hc' by (apply get2_inr; eauto).
    congruence.
Qed.
End storage_size.

(** ** Growing a graph *)

Section pylist_more.
Context {X : Type} `{EqDecision X}.

Lemma index_app_other (x y : X) (l : list X) :
  x ≠ y → index x (l ++ [y]) = index x l.
Proof.
  intros Hne. induction l as [|z l IH]; simpl.
  - by rewrite decide_False.
  - case_decide; [done|]. by rewrite IH.
Qed.
End pylist_more.

Section neighbours_none.
Context {V : Type} `{Countable V}.

Lemma neighbours_empty (vs : list V) (cell : nat → exn + option DTYPE_t) :
  (∀ u, u < length vs → cell u = inr None) → neighbours vs cell = inr ∅.
Proof.
  intros Hcell.
  destruct (neighbours_total vs cell) as [S HS].
  { intros u Hu. exists None. by apply Hcell. }
  rewrite HS. f_equal. apply set_eq. intros x.
  rewrite (neighbours_inr vs cell S HS x). split; [|set_solver].
  intros (u & w & Hu & Hc). apply lookup_lt_Some in Hu.
  rewrite Hcell in Hc by done. done.
Qed.
End neighbours_none.

Section growing.
Context {V K A : Type} `{Countable V, Countable K}.
Implicit Types g : AnyGraph.t V K A.

(** X15. When the storage has fewer rows than the graph has vertices,
    the scans over all vertices raise [IndexError]: [edges], and
    [get_children] and [get_parents] of every vertex. *)
Theorem short_storage_scans_raise g :
  square (storage g) →
  length (storage g) < length (AnyGraph.vertices g) →
  AnyGraph.edges g = inl IndexError
  ∧ ∀ v, v ∈ AnyGraph.vertices g →
         value (AnyGraph.get_children v g) = inl IndexError
         ∧ value (AnyGraph.get_parents v g) = inl IndexError.
Proof.
  intros Hsq Hshort. split.
  - rewrite edges_storage.
    apply (scan_inl _ _ _ (length (storage g)) 0); [done|lia| |].
    + intros i j e. apply get2_inl.
    + apply get2_square_inl; [done|]. left. lia.
  - intros v [w Hw]%index_is_Some.
    rewrite get_children_run, get_parents_run, Hw. simpl. split.
    + apply (neighbours_inl _ _ (length (storage g))); [done| |].
      * intros i e. apply get2_inl.
      * apply get2_square_inl; [done|]. right. lia.
    + apply (neighbours_inl _ _ (length (storage g))); [done| |].
      * intros i e. apply get2_inl.
      * apply get2_square_inl; [done|]. left. lia.
Qed.

(** X16. [add_vertex(v)] of a new vertex on a [StaticGraph] whose array
    [_adjacency_matrix] has [r] rows and columns: the view, through
    which the edges are read, is left as it was.  The call returns, with
    an array grown by one row and one column, when the graph has no
    vertex or has exactly [r] of them; otherwise [np.append] raises
    [ValueError] and the array stays. *)
Theorem static_add_vertex_effect g (v1 : V) (r : nat) :
  matrix_shape g = Some (r, r) →
  v1 ∉ AnyGraph.vertices g →
  let n := length (AnyGraph.vertices g) in
  let res := AnyGraph.add_vertex v1 g in
  storage (final res) = storage g
  ∧ if decide (n = 0 ∨ r = n)
    then value res = inr tt
         ∧ matrix_shape (final res) = Some (n + 1, n + 1)
    else value res = inl (ValueError ShapeMismatch)
         ∧ matrix_shape (final res) = Some (r, r).
Proof.
  intros Hshape Hnew. destruct g as [[[dir vs va ea] mr a]|]; [|done].
  unfold AnyGraph.add_vertex, AnyGraph.vertices in *. simpl in *.
  rewrite sta_add_vertex_run. simpl.
  apply contains_false in Hnew. rewrite Hnew.
  unfold StaticGraph.matrix, nrows in *. simpl in *.
  injection Hshape as Hrows Hcols.
  destruct (decide (length vs = 0)) as [Hn|Hn]; simpl.
  { rewrite decide_True by (by left). rewrite Hn. done. }
  unfold np_append0. simpl. rewrite Hcols.
  destruct (decide (r = length vs)) as [Hr|Hr]; simpl.
  - rewrite decide_True by (by right).
    unfold np_append1, nrows in *. simpl.
    rewrite length_app, length_replicate, Hrows. simpl.
    rewrite decide_True by lia. simpl. split_and!; [done..|].
    unfold StaticGraph.matrix, nrows. simpl.
    rewrite length_zip_with, length_app, !length_replicate, Hrows.
    simpl. do 2 f_equal; lia.
  - rewrite decide_False by (intros [?|?]; done). simpl.
    split_and!; [done..|]. unfold StaticGraph.matrix, nrows. simpl.
    by rewrite Hrows, Hcols.
Qed.

(** X17. [add_vertex(v)] of a new vertex on a [DynamicGraph] changes no
    edge between the other vertices and gives [v] no edge: [has_edge]
    and [get_edge_weight] answer as before on vertices other than [v],
    every [has_edge] with [v] is [False], and [get_children(v)] and
    [get_parents(v)] are empty. *)
Theorem dynamic_add_vertex_isolated (d : DynamicGraph.t V K A) (v1 : V) :
  wf (AnyGraph.Dynamic d) → v1 ∉ AnyGraph.vertices (AnyGraph.Dynamic d) →
  let g' := final (AnyGraph.add_vertex v1 (AnyGraph.Dynamic d)) in
  (∀ x y, x ≠ v1 → y ≠ v1 →
     value (AnyGraph.has_edge x y g')
     = value (AnyGraph.has_edge x y (AnyGraph.Dynamic d))
     ∧ value (AnyGraph.get_edge_weight x y g')
       = value (AnyGraph.get_edge_weight x y (AnyGraph.Dynamic d)))
  ∧ (∀ x, value (AnyGraph.has_edge v1 x g') = inr false
          ∧ value (AnyGraph.has_edge x v1 g') = inr false)
  ∧ value (AnyGraph.get_children v1 g') = inr ∅
  ∧ value (AnyGraph.get_parents v1 g') = inr ∅.
Proof.
  destruct d as [[dir vs va ea] m]. intros [Hsq Hlen] Hnew g'.
  unfold AnyGraph.vertices in Hlen, Hnew. simpl in Hlen, Hnew.
  set (m' := ((.++ [None]) <$> m) ++ [replicate (length m + 1) None]).
  assert (g' = AnyGraph.Dynamic
                 (DynamicGraph.mk (Graph.mk dir (vs ++ [v1]) (<[v1 := ∅]> va) ea)
                    m')) as ->.
  { subst g'. unfold AnyGraph.add_vertex. simpl.
    rewrite dyn_add_vertex_run. simpl.
    pose proof Hnew as Hc. apply contains_false in Hc. rewrite Hc. simpl.
    by rewrite <- Hlen. }
  assert (∀ i j, get2 m' i j
                 = if decide (i < length m ∧ j < length m) then get2 m i j
                   else if decide (i ≤ length m ∧ j ≤ length m) then inr None
                   else inl IndexError) as Hgrow.
  { intros i j. by apply get2_grow. }
  assert (index v1 (vs ++ [v1]) = Some (length m)) as Hv1.
  { rewrite Hlen. by apply index_app_new. }
  assert (∀ x i, index x (vs ++ [v1]) = Some i → i ≤ length m) as Hle.
  { intros x i Hi%index_lt. rewrite length_app in Hi. simpl in Hi. lia. }
  split_and!.
  - intros x y Hx Hy.
    rewrite !has_edge_run, !get_edge_weight_run. simpl.
    unfold AnyGraph.vertices. simpl.
    rewrite !index_app_other by done.
    destruct (index x vs) as [i|] eqn:Hi; [|done].
    destruct (index y vs) as [j|] eqn:Hj; [|done].
    apply index_lt in Hi, Hj. rewrite Hgrow.
    rewrite decide_True by lia. done.
  - intros x. rewrite !has_edge_run. simpl. unfold AnyGraph.vertices. simpl.
    rewrite Hv1. destruct (index x (vs ++ [v1])) as [i|] eqn:Hi; [|done].
    apply Hle in Hi. rewrite !Hgrow.
    repeat case_decide; first [done | lia].
  - rewrite get_children_run. simpl. unfold AnyGraph.vertices. simpl.
    rewrite Hv1. apply neighbours_empty. intros u Hu.
    rewrite length_app in Hu. simpl in Hu. rewrite Hgrow.
    repeat case_decide; first [done | lia].
  - rewrite get_parents_run. simpl. unfold AnyGraph.vertices. simpl.
    rewrite Hv1. apply neighbours_empty. intros u Hu.
    rewrite length_app in Hu. simpl in Hu. rewrite Hgrow.
    repeat case_decide; first [done | lia].
Qed.
End growing.

(** ** Attributes *)

Section attributes.
Context {V K A : Type} `{Countable V, Countable K}.
Implicit Types g : AnyGraph.t V K A.

Lemma with_base_same g : AnyGraph.with_base (AnyGraph.base g) g = g.
Proof. by destruct g as [[]|[]]. Qed.

Lemma base_with_base (b : Graph.t V K A) g :
  AnyGraph.base (AnyGraph.with_base b g) = b.
Proof. by destruct g. Qed.

Lemma set_vertex_attribute_run g (v : V) key val :
  AnyGraph.set_vertex_attribute v key val g
  = match AnyGraph.vertex_attributes g !! v with
    | Some d =>
        Run (AnyGraph.with_base
               (Graph.set_vertex_attributes (<[v := <[key := val]> d]>)
                  (AnyGraph.base g)) g) [] (inr tt)
    | None => Run g [] (inl (ValueError NotInGraph))
    end.
Proof.
  unfold AnyGraph.set_vertex_attribute. rewrite super_run.
  unfold AnyGraph.vertex_attributes.
  destruct g as [[[dir vs va ea] mr a]|[[dir vs va ea] m]]; simpl;
    unfold Graph.set_vertex_attribute; run; by destruct (va !! v).
Qed.

Lemma get_vertex_attribute_run g (v : V) key :
  AnyGraph.get_vertex_attribute v key g
  = Run g []
      match AnyGraph.vertex_attributes g !! v with
      | None => inl (ValueError NotInGraph)
      | Some d => match d !! key with Some a => inr a | None => inl KeyError end
      end.
Proof.
  unfold AnyGraph.get_vertex_attribute. rewrite super_run.
  unfold AnyGraph.vertex_attributes.
  destruct g as [[[dir vs va ea] mr a]|[[dir vs va ea] m]]; simpl;
    unfold Graph.get_vertex_attribute; run;
    (destruct (va !! v) as [d|]; simpl; [|done]); by destruct (d !! key).
Qed.

Lemma set_edge_attribute_run g (e : V * V) key val :
  AnyGraph.set_edge_attribute e key val g
  = let write e' d :=
      Run (AnyGraph.with_base
             (Graph.set_edge_attributes (<[e' := <[key := val]> d]>)
                (AnyGraph.base g)) g) [] (inr tt) in
    match AnyGraph.edge_attributes g !! e with
    | Some d => write e d
    | None =>
        if AnyGraph.directed g then Run g [] (inl (ValueError NotInGraph))
        else match AnyGraph.edge_attributes g !! (e.2, e.1) with
             | Some d => write (e.2, e.1) d
             | None => Run g [] (inl (ValueError NotInGraph))
             end
    end.
Proof.
  unfold AnyGraph.set_edge_attribute. rewrite super_run.
  unfold AnyGraph.edge_attributes, AnyGraph.directed.
  destruct g as [[[dir vs va ea] mr a]|[[dir vs va ea] m]]; simpl;
    unfold Graph.set_edge_attribute; run;
    (destruct (ea !! e) as [d|]; simpl; [done|]);
    (destruct dir; simpl; [done|]);
    by destruct (ea !! (e.2, e.1)).
Qed.

(** X18. [set_vertex_attribute(v, key, val)] returns exactly when [v]
    has an entry in [vertex_attributes], and otherwise raises the "not
    in graph" [ValueError] and changes nothing.  When it returns,
    [get_vertex_attribute(v, key)] gives [val] and every other attribute
    of every vertex reads as before. *)
Theorem vertex_attribute_round_trip g (v : V) key val :
  let r := AnyGraph.set_vertex_attribute v key val g in
  match AnyGraph.vertex_attributes g !! v with
  | None => r = Run g [] (inl (ValueError NotInGraph))
  | Some _ =>
      value r = inr tt
      ∧ value (AnyGraph.get_vertex_attribute v key (final r)) = inr val
      ∧ ∀ v' key', (v', key') ≠ (v, key) →
          value (AnyGraph.get_vertex_attribute v' key' (final r))
          = value (AnyGraph.get_vertex_attribute v' key' g)
  end.
Proof.
  simpl. rewrite set_vertex_attribute_run.
  destruct (AnyGraph.vertex_attributes g !! v) as [d|] eqn:Hd; [|done].
  split_and!; [done|..].
  - rewrite get_vertex_attribute_run. simpl.
    unfold AnyGraph.vertex_attributes. rewrite base_with_base. simpl.
    by rewrite lookup_insert_eq, lookup_insert_eq.
  - intros v' key' Hne. rewrite !get_vertex_attribute_run. simpl.
    unfold AnyGraph.vertex_attributes in *. rewrite base_with_base. simpl.
    destruct (decide (v' = v)) as [->|Hv].
    + rewrite lookup_insert_eq, Hd.
      rewrite lookup_insert_ne by congruence. done.
    + by rewrite lookup_insert_ne.
Qed.

(** X19. When [set_edge_attribute(edge, key, val)] returns,
    [get_edge_attribute(edge, key)] gives [val]; the attribute is kept
    under the reversed pair when the graph is undirected and only the
    reversed pair has an entry.  With no entry for the edge (nor, on an
    undirected graph, for the reversed pair) both calls raise the "not
    in graph" [ValueError] and change nothing. *)
Theorem edge_attribute_round_trip g (e : V * V) key val :
  let r := AnyGraph.set_edge_attribute e key val g in
  (value r = inr tt →
   value (AnyGraph.get_edge_attribute e key (final r)) = inr val)
  ∧ (value r = inr tt → AnyGraph.edge_attributes g !! e = None →
     AnyGraph.directed g = false
     ∧ match AnyGraph.edge_attributes (final r) !! (e.2, e.1) with
       | Some d => d !! key = Some val
       | None => False
       end)
  ∧ (value r ≠ inr tt →
     r = Run g [] (inl (ValueError NotInGraph))
     ∧ AnyGraph.get_edge_attribute e key g
       = Run g [] (inl (ValueError NotInGraph))).
Proof.
  simpl. rewrite set_edge_attribute_run. simpl.
  rewrite !get_edge_attribute_run.
  destruct (AnyGraph.edge_attributes g !! e) as [d|] eqn:Hd; simpl.
  { unfold AnyGraph.edge_attributes, AnyGraph.directed.
    rewrite base_with_base. simpl. rewrite lookup_insert_eq. simpl.
    rewrite lookup_insert_eq. done. }
  destruct (AnyGraph.directed g) eqn:Hdir; simpl; [done|].
  destruct (AnyGraph.edge_attributes g !! (e.2, e.1)) as [d|] eqn:Hd';
    simpl; [|done].
  unfold AnyGraph.edge_attributes, AnyGraph.directed in *.
  rewrite base_with_base. simpl. rewrite Hdir.
  assert (e ≠ (e.2, e.1)) as Hne by (intros Heq; rewrite <- Heq in Hd'; congruence).
  rewrite lookup_insert_ne by done. rewrite Hd, lookup_insert_eq. simpl.
  rewrite lookup_insert_eq. done.
Qed.
End attributes.

(** ** What a DynamicGraph raises *)

Section dynamic_exceptions.
Context {V K A : Type} `{Countable V, Countable K}.
Implicit Types g : AnyGraph.t V K A.

Lemma dynamic_call_value g (o : AnyGraph.op V K A) e :
  wf g → matrix_shape g = None →
  value (AnyGraph.call o g) = inl e →
  e = ValueError NotInGraph ∨ e = ValueError AlreadyInGraph
  ∨ e = ValueError NoSuchEdge ∨ e = KeyError.
Proof.
  intros [Hsq Hlen] Hdyn. rewrite Hdyn in Hlen.
  assert (∀ (x : V) i, index x (AnyGraph.vertices g) = Some i →
                       i < length (storage g)) as Hin.
  { intros x i Hi%index_lt. lia. }
  destruct o; simpl; rewrite ?value_answering.
  - destruct g as [|[b m]]; [done|]. unfold AnyGraph.add_vertex. simpl.
    rewrite dyn_add_vertex_run. simpl.
    destruct (contains v _); simpl; [|done]. intros [= <-]. auto.
  - destruct g as [|[b m]]; [done|]. unfold AnyGraph.remove_vertex. simpl.
    unfold AnyGraph.vertices in *. simpl in *.
    destruct (index v (Graph.vertices b)) as [u|] eqn:Hu.
    + rewrite (dyn_remove_vertex_run _ _ _ u); simpl; [done|done|by eapply Hin|].
      eapply Forall_impl; [exact Hsq|]. intros row Hrow. simpl in *.
      rewrite Hrow. by eapply Hin.
    + rewrite dyn_remove_vertex_absent by done. simpl. intros [= <-]. auto.
  - by rewrite has_vertex_run.
  - destruct (add_edge_effect g v1 v2 weight) as (_ & _ & Hcases).
    destruct (index v1 _) as [u|] eqn:Hu.
    2:{ destruct Hcases as [-> _]. intros [= <-]. auto. }
    destruct (index v2 _) as [v|] eqn:Hv.
    2:{ destruct Hcases as [-> _]. intros [= <-]. auto. }
    apply Hin in Hu, Hv. destruct Hcases as [_ Hcases].
    destruct (set2_square _ u v (stored g weight) Hsq Hu Hv) as [m1 Hm1].
    rewrite Hm1 in Hcases.
    destruct (AnyGraph.directed g); [by destruct Hcases as [-> _]|].
    destruct (set2_square m1 v u (stored g weight)) as [m2 Hm2].
    { by eapply set2_preserves_square. }
    { by rewrite (set2_length _ _ _ _ _ Hm1). }
    { by rewrite (set2_length _ _ _ _ _ Hm1). }
    rewrite Hm2 in Hcases. by destruct Hcases as [-> _].
  - destruct (remove_edge_effect g v1 v2) as (_ & _ & Hcases).
    destruct (index v1 _) as [u|] eqn:Hu.
    2:{ destruct Hcases as [-> _]. intros [= <-]. auto. }
    destruct (index v2 _) as [v|] eqn:Hv.
    2:{ destruct Hcases as [-> _]. intros [= <-]. auto. }
    apply Hin in Hu, Hv.
    destruct (get2_square _ u v Hsq Hu Hv) as [c Hc]. rewrite Hc in Hcases.
    destruct c as [w|]; [|by destruct Hcases as [-> _]].
    destruct Hcases as [_ Hcases].
    destruct (set2_square _ u v None Hsq Hu Hv) as [m1 Hm1].
    rewrite Hm1 in Hcases.
    destruct (AnyGraph.directed g); [by destruct Hcases as [-> _]|].
    destruct (set2_square m1 v u None) as [m2 Hm2].
    { by eapply set2_preserves_square. }
    { by rewrite (set2_length _ _ _ _ _ Hm1). }
    { by rewrite (set2_length _ _ _ _ _ Hm1). }
    rewrite Hm2 in Hcases. by destruct Hcases as [-> _].
  - rewrite has_edge_run. simpl.
    destruct (index v1 _) as [u|] eqn:Hu; [|done].
    destruct (index v2 _) as [v|] eqn:Hv; [|done].
    apply Hin in Hu, Hv.
    by destruct (get2_square _ u v Hsq Hu Hv) as [c ->].
  - rewrite get_edge_weight_run. simpl.
    destruct (index v1 _) as [u|] eqn:Hu; [|intros [= <-]; auto].
    destruct (index v2 _) as [v|] eqn:Hv; [|intros [= <-]; auto].
    apply Hin in Hu, Hv.
    destruct (get2_square _ u v Hsq Hu Hv) as [[w|] ->]; simpl; [done|].
    intros [= <-]. auto.
  - rewrite get_children_run. simpl.
    destruct (index v _) as [u|] eqn:Hu; [|intros [= <-]; auto].
    apply Hin in Hu.
    destruct (neighbours_total (AnyGraph.vertices g)
                (λ i, get2 (storage g) u i)) as [S ->]; [|done].
    intros i Hi. apply get2_square; [done..|lia].
  - rewrite get_parents_run. simpl.
    destruct (index v _) as [u|] eqn:Hu; [|intros [= <-]; auto].
    apply Hin in Hu.
    destruct (neighbours_total (AnyGraph.vertices g)
                (λ i, get2 (storage g) i u)) as [S ->]; [|done].
    intros i Hi. apply get2_square; [done|lia|done].
  - rewrite set_vertex_attribute_run.
    destruct (_ !! v); simpl; [done|]. intros [= <-]. auto.
  - rewrite get_vertex_attribute_run. simpl.
    destruct (_ !! v) as [d|]; simpl; [|intros [= <-]; auto].
    destruct (d !! key); [done|]. intros [= <-]. auto.
  - rewrite set_edge_attribute_run. simpl.
    destruct (_ !! edge); simpl; [done|].
    destruct (AnyGraph.directed g); simpl; [intros [= <-]; auto|].
    destruct (_ !! (edge.2, edge.1)); simpl; [done|]. intros [= <-]. auto.
  - rewrite get_edge_attribute_run. simpl.
    destruct (_ !! edge) as [d|]; simpl.
    { destruct (d !! key); [done|]. intros [= <-]. auto. }
    destruct (AnyGraph.directed g); simpl; [intros [= <-]; auto|].
    destruct (_ !! (edge.2, edge.1)) as [d|]; simpl; [|intros [= <-]; auto].
    destruct (d !! key); [done|]. intros [= <-]. auto.
  - unfold bind, gets, AnyGraph.answering, lift, ret. simpl.
    rewrite edges_storage.
    destruct (scan_total (AnyGraph.vertices g) (get2 (storage g))
                (AnyGraph.directed g)) as [S ->]; [|done].
    intros i j Hi Hj. apply get2_square; [done|lia..].
Qed.

(** X20. On a [DynamicGraph] that a program can hold, no call raises
    [IndexError]: the only exceptions are the [ValueError]s "not in
    graph", "already in graph" and "no edge", and the [KeyError] of a
    missing attribute. *)
Theorem dynamic_raises_only g (o : AnyGraph.op V K A) e :
  AnyGraph.reachable g → matrix_shape g = None →
  value (AnyGraph.call o g) = inl e →
  e = ValueError NotInGraph ∨ e = ValueError AlreadyInGraph
  ∨ e = ValueError NoSuchEdge ∨ e = KeyError.
Proof.
  intros Hreach. apply dynamic_call_value.
  by destruct (reachable_invariant g Hreach).
Qed.
End dynamic_exceptions.

(** ** The [edges] property *)

Section scanning.
Context {V : Type} `{Countable V}.
Implicit Types (vs : list V) (read : nat → nat → exn + option DTYPE_t).
Implicit Types (S acc : gset (V * V * DTYPE_t)) (t : V * V * DTYPE_t).

Lemma edge_found_iff (x y : V) (w : DTYPE_t) S :
  edge_found (x, y, w) S ↔ ∃ w', (y, x, w') ∈ S.
Proof.
  unfold edge_found, set_Exists. simpl. split.
  - intros ([[a b] w'] & Hin & Ha & Hb). simpl in *. subst. by exists w'.
  - intros [w' Hin]. by exists (y, x, w').
Qed.

Lemma scan_directed vs read l : ∀ acc S,
  foldM (edges_step read vs true) acc l = inr S →
  ∀ t, t ∈ S ↔ t ∈ acc ∨ ∃ c, c ∈ l ∧ holds read vs c t.
Proof.
  induction l as [|c l IH]; intros acc S; simpl.
  - intros [= <-] t. split; [by left|].
    intros [?|(c & Hc & _)]; [done|]. by apply elem_of_nil in Hc.
  - unfold edges_step at 1.
    destruct (read c.1 c.2) as [e|[w|]] eqn:Hread; simpl; [done| |].
    + unfold getitem.
      destruct (vs !! c.1) as [x|] eqn:Hx; simpl; [|done].
      destruct (vs !! c.2) as [y|] eqn:Hy; simpl; [|done].
      intros HS t. rewrite (IH _ _ HS t), elem_of_union, elem_of_singleton.
      split.
      * intros [[->|?]|(c' & Hc' & Hh)]; [|by left|].
        -- right. exists c. split; [left|done].
        -- right. exists c'. split; [by right|done].
      * intros [?|(c' & Hc' & Hh)]; [left; by right|].
        apply elem_of_cons in Hc' as [->|Hc'].
        -- left. left. destruct Hh as (Ht1 & Ht2 & Ht3).
           destruct t as [[a b] w']. simpl in *. congruence.
        -- right. by exists c'.
    + intros HS t. rewrite (IH _ _ HS t). split.
      * intros [?|(c' & Hc' & Hh)]; [by left|].
        right. exists c'. split; [by right|done].
      * intros [?|(c' & Hc' & Hh)]; [by left|].
        apply elem_of_cons in Hc' as [->|Hc']; [|right; by exists c'].
        destruct Hh as (_ & _ & Hh). congruence.
Qed.

Lemma scan_undirected vs read l : ∀ acc S,
  foldM (edges_step read vs false) acc l = inr S →
  (∀ x y w w', (x, y, w) ∈ acc → (y, x, w') ∈ acc → x = y ∧ w = w') →
  (∀ t, t ∈ acc → t ∈ S)
  ∧ (∀ t, t ∈ S → t ∈ acc ∨ ∃ c, c ∈ l ∧ holds read vs c t)
  ∧ (∀ c x y w, c ∈ l → holds read vs c (x, y, w) →
                (x, y, w) ∈ S ∨ ∃ w', (y, x, w') ∈ S)
  ∧ (∀ x y w w', (x, y, w) ∈ S → (y, x, w') ∈ S → x = y ∧ w = w').
Proof.
  induction l as [|c l IH]; intros acc S; simpl.
  - intros [= <-] Hacc. split_and!; [done|by left| |done].
    intros c x y w Hc. by apply elem_of_nil in Hc.
  - unfold edges_step at 1.
    destruct (read c.1 c.2) as [e|[w|]] eqn:Hread; simpl; [done| |].
    + unfold getitem.
      destruct (vs !! c.1) as [x|] eqn:Hx; simpl; [|done].
      destruct (vs !! c.2) as [y|] eqn:Hy; simpl; [|done].
      case_bool_decide as Hfound.
      * intros HS Hacc.
        destruct (IH _ _ HS Hacc) as (Hmono & Hfrom & Hcover & Hone).
        split_and!; [done| | |done].
        -- intros t Ht. destruct (Hfrom t Ht) as [?|(c' & Hc' & Hh)];
             [by left|]. right. exists c'. split; [by right|done].
        -- intros c' x' y' w' Hc' Hh.
           apply elem_of_cons in Hc' as [->|Hc']; [|by eapply Hcover].
           destruct Hh as (Hx' & Hy' & Hw'). simpl in *.
           assert (x' = x ∧ y' = y) as [-> ->] by (split; congruence).
           apply edge_found_iff in Hfound as [w'' Hin].
           right. exists w''. by apply Hmono.
      * intros HS Hacc.
        assert (∀ w', (y, x, w') ∉ acc) as Hfresh.
        { intros w' Hin. apply Hfound, edge_found_iff. by exists w'. }
        destruct (IH _ _ HS) as (Hmono & Hfrom & Hcover & Hone).
        { intros a b w1 w2.
          rewrite !elem_of_union, !elem_of_singleton.
          intros [Heq1|Hin1] [Heq2|Hin2].
          - split; congruence.
          - injection Heq1 as -> -> ->. by destruct (Hfresh w2).
          - injection Heq2 as -> -> ->. by destruct (Hfresh w1).
          - by eapply Hacc. }
        split_and!; [| | |done].
        -- intros t Ht. apply Hmono, elem_of_union. by right.
        -- intros t Ht. destruct (Hfrom t Ht) as [Hin|(c' & Hc' & Hh)].
           ++ apply elem_of_union in Hin as [->%elem_of_singleton|?];
                [|by left].
              right. exists c. split; [left|done].
           ++ right. exists c'. split; [by right|done].
        -- intros c' x' y' w' Hc' Hh.
           apply elem_of_cons in Hc' as [->|Hc']; [|by eapply Hcover].
           destruct Hh as (Hx' & Hy' & Hw'). simpl in *.
           assert (x' = x ∧ y' = y ∧ w' = w) as (-> & -> & ->)
             by (split_and!; congruence).
           left. apply Hmono, elem_of_union. left. by apply elem_of_singleton.
    + intros HS Hacc.
      destruct (IH _ _ HS Hacc) as (Hmono & Hfrom & Hcover & Hone).
      split_and!; [done| | |done].
      * intros t Ht. destruct (Hfrom t Ht) as [?|(c' & Hc' & Hh)];
          [by left|]. right. exists c'. split; [by right|done].
      * intros c' x' y' w' Hc' Hh.
        apply elem_of_cons in Hc' as [->|Hc']; [|by eapply Hcover].
        destruct Hh as (_ & _ & Hh). simpl in *. congruence.
Qed.
End scanning.

Section edges_of_graphs.
Context {V K A : Type} `{Countable V, Countable K}.
Implicit Types g : AnyGraph.t V K A.

Lemma get_edge_weight_inr g (x y : V) w :
  value (AnyGraph.get_edge_weight x y g) = inr w
  ↔ ∃ u v, index x (AnyGraph.vertices g) = Some u
           ∧ index y (AnyGraph.vertices g) = Some v
           ∧ get2 (storage g) u v = inr (Some w).
Proof.
  rewrite get_edge_weight_run. simpl. split.
  - destruct (index x _) as [u|]; [|done].
    destruct (index y _) as [v|]; [|done].
    destruct (get2 (storage g) u v) as [e|[w'|]] eqn:Hc; simpl; [done| |done].
    intros [= ->]. by exists u, v.
  - intros (u & v & -> & -> & ->). done.
Qed.

(** An edge held by some cell is an edge for [get_edge_weight], and the
    other way round, when no vertex is repeated. *)
Lemma holds_weight g (x y : V) w :
  NoDup (AnyGraph.vertices g) →
  (∃ c, c ∈ cells (length (AnyGraph.vertices g))
        ∧ holds (get2 (storage g)) (AnyGraph.vertices g) c (x, y, w))
  ↔ value (AnyGraph.get_edge_weight x y g) = inr w.
Proof.
  intros Hnd. rewrite get_edge_weight_inr. split.
  - intros ([u v] & _ & Hx & Hy & Hc). simpl in *. exists u, v.
    split_and!; [by apply index_lookup_NoDup..|done].
  - intros (u & v & Hu & Hv & Hc). exists (u, v). split.
    + apply cells_in_bounds. simpl. split; by eapply index_lt.
    + split_and!; simpl; [by apply index_Some..|done].
Qed.

(** X21. On a directed graph without repeated vertices, the set that
    [edges] returns holds exactly the triples [(x, y, w)] for which
    [get_edge_weight(x, y)] returns [w]. *)
Theorem directed_edges_exact g (S : gset (V * V * DTYPE_t)) :
  NoDup (AnyGraph.vertices g) → AnyGraph.directed g = true →
  AnyGraph.edges g = inr S →
  ∀ x y w, (x, y, w) ∈ S ↔ value (AnyGraph.get_edge_weight x y g) = inr w.
Proof.
  intros Hnd Hdir HS x y w. rewrite edges_storage, Hdir in HS.
  rewrite (scan_directed _ _ _ _ _ HS (x, y, w)).
  rewrite <- (holds_weight g x y w Hnd). split; [|by right].
  intros [Hin|?]; [|done]. by apply elem_of_empty in Hin.
Qed.

(** X22. On an undirected graph that a program can hold, without
    repeated vertices, every triple [(x, y, w)] that [edges] returns is
    an edge with that weight for [get_edge_weight]; every edge for
    [get_edge_weight] is returned in one of its two directions; and no
    edge is returned in both directions or with two weights. *)
Theorem undirected_edges_once g (S : gset (V * V * DTYPE_t)) :
  AnyGraph.reachable g →
  NoDup (AnyGraph.vertices g) → AnyGraph.directed g = false →
  AnyGraph.edges g = inr S →
  (∀ x y w, (x, y, w) ∈ S → value (AnyGraph.get_edge_weight x y g) = inr w)
  ∧ (∀ x y w, value (AnyGraph.get_edge_weight x y g) = inr w →
              (x, y, w) ∈ S ∨ (y, x, w) ∈ S)
  ∧ (∀ x y w w', (x, y, w) ∈ S → (y, x, w') ∈ S → x = y ∧ w = w').
Proof.
  intros Hreach Hnd Hdir HS. rewrite edges_storage, Hdir in HS.
  destruct (reachable_invariant g Hreach) as (_ & Hsym).
  specialize (Hsym Hdir).
  destruct (scan_undirected _ _ _ _ _ HS) as (_ & Hfrom & Hcover & Hone).
  { intros x y w w' Hin. by apply elem_of_empty in Hin. }
  assert (∀ x y w, (x, y, w) ∈ S →
                   value (AnyGraph.get_edge_weight x y g) = inr w) as Hedge.
  { intros x y w Hin. apply (holds_weight g x y w Hnd).
    destruct (Hfrom _ Hin) as [Hin'|?]; [|done].
    by apply elem_of_empty in Hin'. }
  split_and!; [done| |done].
  intros x y w Hw. pose proof Hw as Hw'.
  apply (holds_weight g x y w Hnd) in Hw as (c & Hc & Hh).
  destruct (Hcover c x y w Hc Hh) as [?|[w' Hin]]; [by left|].
  right. pose proof (Hedge _ _ _ Hin) as Hyx.
  apply get_edge_weight_inr in Hyx as (v & u & Hv & Hu & Hcell).
  apply get_edge_weight_inr in Hw' as (u' & v' & Hu' & Hv' & Hcell').
  rewrite Hu in Hu'. rewrite Hv in Hv'.
  injection Hu' as <-. injection Hv' as <-.
  rewrite (Hsym v u) in Hcell. congruence.
Qed.
End edges_of_graphs.

(** ** Constructors and copies *)

Section loops.
Context {S X : Type}.
Implicit Types (body : X → M S unit) (s : S).

Lemma for_each_cons_inl body x xs s :
  (∃ e, value (body x s) = inl e) → ∃ e, value (for_each (x :: xs) body s) = inl e.
Proof.
  intros [e He]. simpl. unfold bind.
  destruct (body x s) as [s' ws [e'|[]]]; simpl in *; [by exists e'|done].
Qed.

Lemma for_each_skip body xs s :
  (∀ x, x ∈ xs → body x s = Run s [] (inr tt)) →
  for_each xs body s = Run s [] (inr tt).
Proof.
  induction xs as [|x xs IH]; intros Hbody; simpl; [done|].
  unfold bind. rewrite Hbody by left. rewrite IH; [done|].
  intros y Hy. apply Hbody. by right.
Qed.

Lemma for_each_stops body xs s x :
  x ∈ xs →
  (∀ y, y ∈ xs → body y s = Run s [] (inr tt)
                 ∨ ∃ e, body y s = Run s [] (inl e)) →
  (∃ e, body x s = Run s [] (inl e)) →
  ∃ e, for_each xs body s = Run s [] (inl e).
Proof.
  induction xs as [|y xs IH]; intros Hx Hbody Hfail; simpl.
  - by apply elem_of_nil in Hx.
  - unfold bind. destruct (Hbody y) as [Hy|[e Hy]]; [left|..].
    + rewrite Hy. apply elem_of_cons in Hx as [->|Hx].
      * destruct Hfail as [e He]. congruence.
      * destruct IH as [e ->]; [done| |done|by exists e].
        intros z Hz. apply Hbody. by right.
    + rewrite Hy. by exists e.
Qed.
End loops.

Section constructors.
Context {V K A : Type} `{Countable V, Countable K}.
Implicit Types g : AnyGraph.t V K A.

Lemma lookup_fresh_attributes (vs : list V) (va : gmap V (gmap K A)) (v : V) :
  foldl (λ va v, <[v := ∅]> va) va vs !! v
  = if contains v vs then Some ∅ else va !! v.
Proof.
  revert va. induction vs as [|x vs IH]; intros va; simpl; [done|].
  rewrite IH. destruct (contains v vs) eqn:Hv.
  - apply contains_true in Hv.
    rewrite (proj2 (contains_true v (x :: vs))); [done|by right].
  - apply contains_false in Hv. destruct (decide (v = x)) as [->|Hne].
    + rewrite lookup_insert_eq.
      rewrite (proj2 (contains_true x (x :: vs))); [done|by left].
    + rewrite lookup_insert_ne by done.
      rewrite (proj2 (contains_false v (x :: vs))); [done|].
      by intros [?|?]%elem_of_cons.
Qed.

Lemma storage_new (mv me : Graph.memo V K A) (static dir : bool)
    (vs : list V) :
  ∃ g, cygraph.graph mv me static None dir vs = inr g
       ∧ (g = AnyGraph.Static (StaticGraph.__cinit__ dir vs)
          ∨ g = AnyGraph.Dynamic (DynamicGraph.__cinit__ dir vs))
       ∧ storage g = replicate (length vs) (replicate (length vs) None).
Proof.
  destruct static; eexists; (split; [done|]); split; try by (left + right).
  - apply storage_static_new.
  - done.
Qed.

(** X23. [cygraph.graph] without a source graph returns a graph of the
    class chosen by [static], with the given [directed] and vertices,
    no edge ([edges] is empty and every [has_edge] is [False]), no edge
    attribute, and an empty attribute map for each vertex. *)
Theorem new_graph_is_empty (mv me : Graph.memo V K A) (static dir : bool)
    (vs : list V) :
  ∃ g, cygraph.graph mv me static None dir vs = inr g
       ∧ matrix_shape g
         = (if static then Some (length vs, length vs) else None)
       ∧ AnyGraph.directed g = dir
       ∧ AnyGraph.vertices g = vs
       ∧ AnyGraph.edge_attributes g = ∅
       ∧ (∀ v, AnyGraph.vertex_attributes g !! v
               = if contains v vs then Some ∅ else None)
       ∧ AnyGraph.edges g = inr ∅
       ∧ ∀ v1 v2, value (AnyGraph.has_edge v1 v2 g) = inr false.
Proof.
  destruct (storage_new mv me static dir vs) as (g & Hg & Hclass & Hst).
  exists g. split; [done|].
  assert (AnyGraph.vertices g = vs) as Hvs by (by destruct Hclass as [->| ->]).
  assert (∀ u v c, get2 (storage g) u v = inr c → c = None) as Hnone.
  { intros u v c. rewrite Hst, get2_replicate. by case_decide; intros [= <-]. }
  split_and!; try by destruct Hclass as [->| ->].
  - destruct static; injection Hg as <-; [|done].
    simpl. unfold StaticGraph.matrix, nrows. simpl.
    by rewrite length_replicate.
  - intros v. destruct Hclass as [->| ->]; apply lookup_fresh_attributes.
  - apply edges_of_no_edges.
    + rewrite Hst. apply square_replicate.
    + by rewrite Hst, length_replicate, Hvs.
    + intros u v c. rewrite cell_storage. apply Hnone.
  - intros v1 v2. rewrite has_edge_run. simpl.
    destruct (index v1 _) as [u|] eqn:Hu; [|done].
    destruct (index v2 _) as [v|] eqn:Hv; [|done].
    apply index_lt in Hu, Hv. rewrite Hvs in Hu, Hv.
    rewrite Hst, get2_replicate. by rewrite decide_True.
Qed.

(** The second loop of [__copy__] goes through exactly when every
    vertex has an empty attribute map. *)
Lemma copy_vertex_loop {S} (va : gmap V (gmap K A)) (vs : list V) (s : S) :
  let r := for_each vs
             (λ vertex,
                match va !! vertex with
                | None => raise KeyError
                | Some d => for_each (map_to_list d) (λ _, raise AttributeError)
                end) s in
  (Forall (λ v, va !! v = Some ∅) vs ∧ r = Run s [] (inr tt))
  ∨ (¬ Forall (λ v, va !! v = Some ∅) vs ∧ ∃ e, r = Run s [] (inl e)).
Proof.
  simpl. induction vs as [|v vs IH]; simpl; [by left|].
  destruct (va !! v) as [d|] eqn:Hd.
  - destruct (map_to_list d) as [|kv l] eqn:Hl; simpl.
    + apply map_to_list_empty_iff in Hl. subst d. unfold bind, ret.
      destruct IH as [[Hall ->]|[Hnot [e ->]]]; simpl.
      * left. split; [by apply Forall_cons|done].
      * right. split; [|by exists e].
        intros [_ ?]%Forall_cons. done.
    + right. split; [|unfold bind, raise; by eexists].
      intros [Hv _]%Forall_cons. rewrite Hd in Hv. injection Hv as ->.
      by rewrite map_to_list_empty in Hl.
  - right. split; [|unfold bind, raise; by eexists].
    intros [Hv _]%Forall_cons. congruence.
Qed.

Lemma copy_inr (mv me : Graph.memo V K A) g g' :
  AnyGraph.__copy__ g = inr g'
  ↔ AnyGraph.edges g = inr ∅
    ∧ Forall (λ v, AnyGraph.vertex_attributes g !! v = Some ∅)
             (AnyGraph.vertices g)
    ∧ cygraph.graph mv me (is_static g) None
        (AnyGraph.directed g) (AnyGraph.vertices g) = inr g'.
Proof.
  destruct g as [s|d]; simpl.
  - unfold StaticGraph.__copy__, AnyGraph.vertex_attributes,
      AnyGraph.vertices, AnyGraph.directed, cygraph.graph, cygraph.StaticGraph.
    simpl.
    destruct (StaticGraph.edges s) as [e|es] eqn:Hes; [naive_solver|].
    destruct (elements es) as [|edge l] eqn:Hl.
    + apply elements_empty_inv, leibniz_equiv in Hl. subst es. simpl.
      match goal with |- context [for_each ?xs ?body ?s0] =>
        destruct (copy_vertex_loop (StaticGraph.vertex_attributes s) xs s0)
          as [[Hva Hrun]|[Hva [e Hrun]]] end;
        simpl in *; rewrite Hrun; simpl; naive_solver.
    + assert (es ≠ ∅) as Hne.
      { intros ->. by rewrite elements_empty in Hl. }
      match goal with |- context [for_each ?xs ?body ?s0] =>
        destruct (for_each_cons_inl body edge l s0) as [e ->] end.
      * unfold bind.
        destruct (StaticGraph.add_edge _ _ _ _) as [s1 ws [e|[]]];
          simpl; by eexists.
      * split; [done|]. intros ([= ?] & _). done.
  - unfold DynamicGraph.__copy__, AnyGraph.vertex_attributes,
      AnyGraph.vertices, AnyGraph.directed, cygraph.graph,
      cygraph.DynamicGraph.
    simpl.
    destruct (DynamicGraph.edges d) as [e|es] eqn:Hes; [naive_solver|].
    destruct (elements es) as [|edge l] eqn:Hl.
    + apply elements_empty_inv, leibniz_equiv in Hl. subst es. simpl.
      match goal with |- context [for_each ?xs ?body ?s0] =>
        destruct (copy_vertex_loop (DynamicGraph.vertex_attributes d) xs s0)
          as [[Hva Hrun]|[Hva [e Hrun]]] end;
        simpl in *; rewrite Hrun; simpl; naive_solver.
    + assert (es ≠ ∅) as Hne.
      { intros ->. by rewrite elements_empty in Hl. }
      match goal with |- context [for_each ?xs ?body ?s0] =>
        destruct (for_each_cons_inl body edge l s0) as [e ->] end.
      * unfold bind.
        destruct (DynamicGraph.add_edge _ _ _ _) as [s1 ws [e|[]]];
          simpl; by eexists.
      * split; [done|]. intros ([= ?] & _). done.
Qed.

(** X24. [__copy__] returns only for a graph whose [edges] is empty and
    whose vertices all have an empty attribute map, and then returns
    the graph that the constructor of the same class builds from
    [directed] and the vertices; with an edge or a vertex attribute it
    raises. *)
Theorem copy_returns_only_for_bare_graphs (mv me : Graph.memo V K A) g g' :
  AnyGraph.__copy__ g = inr g'
  ↔ AnyGraph.edges g = inr ∅
    ∧ Forall (λ v, AnyGraph.vertex_attributes g !! v = Some ∅)
             (AnyGraph.vertices g)
    ∧ cygraph.graph mv me (is_static g) None
        (AnyGraph.directed g) (AnyGraph.vertices g) = inr g'.
Proof. apply copy_inr. Qed.
End constructors.

(** ** Building a graph from another one *)

Section scan_reads.
Context {V : Type} `{Countable V}.

(** A scan that returns has read every cell. *)
Lemma scan_reads (vs : list V) (read : nat → nat → exn + option DTYPE_t)
    dir S (i j : nat) :
  scan_edges read vs dir = inr S →
  i < length vs → j < length vs → ∃ c, read i j = inr c.
Proof.
  intros HS Hi Hj. destruct (read i j) as [e|c] eqn:Hread; [|by exists c].
  unfold scan_edges in HS.
  match type of HS with foldM ?f ?acc ?xs = _ =>
    destruct (foldM_fails f acc xs (i, j)) as [e' He'] end.
  - by apply cells_in_bounds.
  - intros b. exists e. unfold edges_step. simpl. by rewrite Hread.
  - congruence.
Qed.
End scan_reads.

Section conversion.
Context {V K A : Type} `{Countable V, Countable K}.
Implicit Types g : AnyGraph.t V K A.

Lemma static_loop (es : list (V * V * DTYPE_t)) (s : StaticGraph.t V K A) :
  (let r := for_each es (λ edge, StaticGraph.add_edge edge.1.1 edge.1.2 one) s in
   let+ _ := value r in inr (AnyGraph.Static (final r)))
  = add_all ((λ e, (e.1.1, e.1.2, one)) <$> es) (AnyGraph.Static s).
Proof.
  revert s. induction es as [|e es IH]; intros s; simpl; [done|].
  unfold bind, AnyGraph.add_edge, AnyGraph.dispatch.
  destruct (StaticGraph.add_edge e.1.1 e.1.2 one s) as [s' ws [e'|[]]];
    simpl; [done|].
  rewrite <- IH. simpl. by destruct (for_each es _ s') as [s'' ws' [|]].
Qed.

Lemma dynamic_loop (es : list (V * V * DTYPE_t)) (d : DynamicGraph.t V K A) :
  (let r := for_each es (λ edge, DynamicGraph.add_edge edge.1.1 edge.1.2 one) d in
   let+ _ := value r in inr (AnyGraph.Dynamic (final r)))
  = add_all ((λ e, (e.1.1, e.1.2, one)) <$> es) (AnyGraph.Dynamic d).
Proof.
  revert d. induction es as [|e es IH]; intros d; simpl; [done|].
  unfold bind, AnyGraph.add_edge, AnyGraph.dispatch.
  destruct (DynamicGraph.add_edge e.1.1 e.1.2 one d) as [d' ws [e'|[]]];
    simpl; [done|].
  rewrite <- IH. simpl. by destruct (for_each es _ d') as [d'' ws' [|]].
Qed.

(** The graph [__cinit__] starts from when it is given a source graph,
    and the loop over the edges of the source. *)
Lemma graph_from (mv me : Graph.memo V K A) (static dir : bool) (vs : list V) g0 :
  ∃ f, AnyGraph.base f = Graph.copy_of mv me (AnyGraph.base g0)
       ∧ storage f = replicate (length (AnyGraph.vertices g0))
                       (replicate (length (AnyGraph.vertices g0)) None)
       ∧ is_static f = static
       ∧ cygraph.graph mv me static (Some g0) dir vs
         = let+ S := AnyGraph.edges g0 in
           add_all ((λ e, (e.1.1, e.1.2, one)) <$> elements S) f.
Proof.
  destruct static; simpl;
    unfold cygraph.graph, cygraph.StaticGraph, cygraph.DynamicGraph,
      AnyGraph.static_of, AnyGraph.dynamic_of,
      StaticGraph.__cinit__from, DynamicGraph.__cinit__from.
  - eexists (AnyGraph.Static (StaticGraph.mk _ StaticGraph.SameAsView _)).
    split_and!; [done|apply storage_static_new|done|].
    destruct (AnyGraph.edges g0) as [e|S]; [done|].
    rewrite <- static_loop. simpl.
    by destruct (for_each _ _ _) as [s' ws [|]].
  - eexists (AnyGraph.Dynamic (DynamicGraph.mk _ _)).
    split_and!; [done|done|done|].
    destruct (AnyGraph.edges g0) as [e|S]; [done|].
    rewrite <- dynamic_loop. simpl.
    by destruct (for_each _ _ _) as [s' ws [|]].
Qed.

Lemma add_edge_cells g (x y : V) w (u0 v0 : nat) :
  square (storage g) →
  index x (AnyGraph.vertices g) = Some u0 →
  index y (AnyGraph.vertices g) = Some v0 →
  u0 < length (storage g) → v0 < length (storage g) →
  let r := AnyGraph.add_edge x y w g in
  value r = inr tt ∧ same_vertices g (final r)
  ∧ AnyGraph.edge_attributes (final r)
    = <[(x, y) := ∅]> (AnyGraph.edge_attributes g)
  ∧ square (storage (final r))
  ∧ length (storage (final r)) = length (storage g)
  ∧ ∀ u v, (writes g (x, y, w) u v →
            get2 (storage (final r)) u v = inr (stored g w))
           ∧ (¬ writes g (x, y, w) u v →
              get2 (storage (final r)) u v = get2 (storage g) u v).
Proof.
  intros Hsq Hx Hy Hu0 Hv0.
  destruct (add_edge_effect g x y w) as (_ & Hsame & Hcases).
  rewrite Hx, Hy in Hcases. destruct Hcases as [Hea Hcases].
  destruct (set2_square _ u0 v0 (stored g w) Hsq Hu0 Hv0) as [m1 Hm1].
  rewrite Hm1 in Hcases.
  pose proof (set2_preserves_square _ _ _ _ _ Hsq Hm1) as Hsq1.
  pose proof (set2_length _ _ _ _ _ Hm1) as Hlen1.
  unfold writes. simpl. rewrite Hx, Hy.
  destruct (AnyGraph.directed g) eqn:Hdir.
  - destruct Hcases as [Hval Hst]. rewrite Hst.
    split_and!; [done..|]. intros u v. split.
    + intros [[[= <-] [= <-]]|[? _]]; [|done]. by eapply get2_set2_eq.
    + intros Hno. eapply get2_set2_ne; [done|].
      intros [= -> ->]. apply Hno. by left.
  - destruct (set2_square m1 v0 u0 (stored g w)) as [m2 Hm2];
      [done|lia..|].
    rewrite Hm2 in Hcases. destruct Hcases as [Hval Hst]. rewrite Hst.
    pose proof (set2_length _ _ _ _ _ Hm2) as Hlen2.
    split_and!; [done..|by eapply set2_preserves_square|lia|].
    intros u v. split.
    + intros Hw. destruct (decide ((u, v) = (v0, u0))) as [[= -> ->]|Hne].
      * by eapply get2_set2_eq.
      * rewrite (get2_set2_ne _ _ _ _ _ _ _ Hm2) by done.
        destruct Hw as [[[= <-] [= <-]]|(_ & [= <-] & [= <-])]; [|done].
        by eapply get2_set2_eq.
    + intros Hno.
      rewrite (get2_set2_ne _ _ _ _ _ _ _ Hm2).
      * eapply get2_set2_ne; [done|].
        intros [= -> ->]. apply Hno. by left.
      * intros [= -> ->]. apply Hno. by right.
Qed.

Lemma writes_same g g' (e : V * V * DTYPE_t) (u v : nat) :
  same_vertices g g' → writes g' e u v ↔ writes g e u v.
Proof. intros (_ & Hdir & Hvs & _). unfold writes. by rewrite Hdir, Hvs. Qed.

Lemma add_all_cells (w0 : DTYPE_t) (es : list (V * V * DTYPE_t)) : ∀ g,
  square (storage g) →
  length (storage g) = length (AnyGraph.vertices g) →
  Forall (λ e, e.1.1 ∈ AnyGraph.vertices g ∧ e.1.2 ∈ AnyGraph.vertices g
               ∧ e.2 = w0) es →
  ∃ g', add_all es g = inr g' ∧ same_vertices g g'
    ∧ AnyGraph.edge_attributes g'
      = foldl (λ ea e, <[(e.1.1, e.1.2) := ∅]> ea) (AnyGraph.edge_attributes g) es
    ∧ ∀ u v, ((∃ e, e ∈ es ∧ writes g e u v) →
              get2 (storage g') u v = inr (stored g w0))
             ∧ ((∀ e, e ∈ es → ¬ writes g e u v) →
                get2 (storage g') u v = get2 (storage g) u v).
Proof.
  induction es as [|e es IH]; intros g Hsq Hlen Hes; simpl.
  - exists g. split_and!; [done..|]. intros u v. split; [|done].
    intros (e & He & _). by apply elem_of_nil in He.
  - apply Forall_cons in Hes as [(Hx & Hy & Hw) Hes].
    destruct (index_is_Some _ _ Hx) as [u0 Hu0].
    destruct (index_is_Some _ _ Hy) as [v0 Hv0].
    destruct (add_edge_cells g e.1.1 e.1.2 e.2 u0 v0)
      as (Hval & Hsame & Hea & Hsq1 & Hlen1 & Hcells); [done..| | |].
    { apply index_lt in Hu0. lia. }
    { apply index_lt in Hv0. lia. }
    rewrite Hval. simpl.
    set (g1 := final (AnyGraph.add_edge e.1.1 e.1.2 e.2 g)) in *.
    pose proof Hsame as (Hshape & Hdir & Hvs & Hva).
    destruct (IH g1) as (g' & Hg' & Hsame' & Hea' & Hcells');
      [done|by rewrite Hlen1, Hvs|by rewrite Hvs|].
    exists g'. split; [done|].
    assert (same_vertices g g') as Hgg'.
    { destruct Hsame' as (? & ? & ? & ?). unfold same_vertices.
      split_and!; congruence. }
    split; [done|]. split; [by rewrite Hea', Hea|].
    assert (stored g1 w0 = stored g w0) as Hstored
      by (by apply stored_same_shape).
    assert (e = (e.1.1, e.1.2, e.2)) as He by (by destruct e as [[]]).
    intros u v. destruct (Hcells u v) as [Hyes Hno].
    destruct (Hcells' u v) as [Hyes' Hno']. split.
    + intros (e' & He' & Hw').
      destruct (decide (Exists (λ e'', writes g1 e'' u v) es)) as [Hex|Hex].
      * apply Exists_exists in Hex as (e'' & ? & ?).
        rewrite <- Hstored. apply Hyes'. by exists e''.
      * rewrite Hno'.
        2:{ intros e'' ? ?. apply Hex, Exists_exists. by exists e''. }
        apply elem_of_cons in He' as [->|He'].
        -- rewrite <- Hw. apply Hyes. by rewrite <- He.
        -- exfalso. apply Hex, Exists_exists. exists e'. split; [done|].
           by apply (writes_same g g1).
    + intros Hnone. rewrite Hno'.
      * apply Hno. rewrite <- He. apply Hnone. by left.
      * intros e' He' Hw'. apply (Hnone e'); [by right|].
        by apply (writes_same g g1).
Qed.

Lemma lookup_reset_attributes (es : list (V * V * DTYPE_t))
    (ea : gmap (V * V) (gmap K A)) (e : V * V * DTYPE_t) :
  e ∈ es →
  foldl (λ ea e, <[(e.1.1, e.1.2) := ∅]> ea) ea es !! (e.1.1, e.1.2) = Some ∅.
Proof.
  induction es as [|e' es IH] using rev_ind; intros He.
  - by apply elem_of_nil in He.
  - rewrite foldl_app. simpl.
    destruct (decide ((e'.1.1, e'.1.2) = (e.1.1, e.1.2))) as [->|Hne].
    + apply lookup_insert_eq.
    + rewrite lookup_insert_ne by done. apply IH.
      apply elem_of_app in He as [?|He]; [done|].
      apply list_elem_of_singleton in He. by subst.
Qed.

Lemma lookup_reset_other (es : list (V * V * DTYPE_t))
    (ea : gmap (V * V) (gmap K A)) (k : V * V) :
  (∀ e, e ∈ es → (e.1.1, e.1.2) ≠ k) →
  foldl (λ ea e, <[(e.1.1, e.1.2) := ∅]> ea) ea es !! k = ea !! k.
Proof.
  induction es as [|e' es IH] using rev_ind; intros Hes; [done|].
  rewrite foldl_app. simpl. rewrite lookup_insert_ne.
  - apply IH. intros e He. apply Hes, elem_of_app. by left.
  - apply Hes, elem_of_app. right. by apply list_elem_of_singleton.
Qed.

(** Where the triples of [edges] come from, and which cells they cover. *)
Lemma edges_cells g (S : gset (V * V * DTYPE_t)) :
  AnyGraph.edges g = inr S →
  (∀ t, t ∈ S →
        ∃ c, c ∈ cells (length (AnyGraph.vertices g))
             ∧ holds (get2 (storage g)) (AnyGraph.vertices g) c t)
  ∧ (∀ c x y w, c ∈ cells (length (AnyGraph.vertices g)) →
                holds (get2 (storage g)) (AnyGraph.vertices g) c (x, y, w) →
                (x, y, w) ∈ S
                ∨ (AnyGraph.directed g = false ∧ ∃ w', (y, x, w') ∈ S)).
Proof.
  rewrite edges_storage. unfold scan_edges.
  destruct (AnyGraph.directed g); intros HS.
  - pose proof (scan_directed _ _ _ _ _ HS) as Hiff. split.
    + intros t Ht. apply Hiff in Ht as [Ht|?]; [|done].
      by apply elem_of_empty in Ht.
    + intros c x y w Hc Hh. left. apply Hiff. right. by exists c.
  - destruct (scan_undirected _ _ _ _ _ HS) as (_ & Hfrom & Hcover & _).
    { intros x y w w' Hin. by apply elem_of_empty in Hin. }
    split.
    + intros t Ht. destruct (Hfrom t Ht) as [Hin|?]; [|done].
      by apply elem_of_empty in Hin.
    + intros c x y w Hc Hh.
      destruct (Hcover c x y w Hc Hh) as [?|?]; [by left|by right].
Qed.

Lemma is_static_shape g g' :
  matrix_shape g' = matrix_shape g → is_static g' = is_static g.
Proof. by destruct g, g'. Qed.

(** The graph built from a source graph whose [edges] returned [S]. *)
Lemma graph_from_cells (mv me : Graph.memo V K A) (static dir : bool) (vs : list V) g0 S :
  AnyGraph.edges g0 = inr S →
  let n := length (AnyGraph.vertices g0) in
  let es := (λ e : V * V * DTYPE_t, (e.1.1, e.1.2, one)) <$> elements S in
  ∃ f g,
    cygraph.graph mv me static (Some g0) dir vs = inr g
    ∧ same_vertices f g
    ∧ is_static f = static
    ∧ AnyGraph.base f = Graph.copy_of mv me (AnyGraph.base g0)
    ∧ AnyGraph.edge_attributes g
      = foldl (λ ea e, <[(e.1.1, e.1.2) := ∅]> ea)
              (Graph.deepcopy_edge_attributes me
                 (AnyGraph.edge_attributes g0)) es
    ∧ ∀ u v, ((∃ e, e ∈ es ∧ writes f e u v) →
              get2 (storage g) u v = inr (Some one))
             ∧ ((∀ e, e ∈ es → ¬ writes f e u v) →
                get2 (storage g) u v
                = if decide (u < n ∧ v < n) then inr None
                  else inl IndexError).
Proof.
  intros HS n es.
  destruct (graph_from mv me static dir vs g0)
    as (f & Hbase & Hst & Hclass & Heq).
  rewrite HS in Heq. simpl in Heq.
  assert (AnyGraph.vertices f = AnyGraph.vertices g0) as Hvs.
  { unfold AnyGraph.vertices. by rewrite Hbase. }
  destruct (add_all_cells one es f) as (g & Hg & Hsame & Hea & Hcells).
  - rewrite Hst. apply square_replicate.
  - by rewrite Hst, length_replicate, Hvs.
  - apply Forall_fmap, Forall_forall. intros t Ht%elem_of_elements. simpl.
    destruct (edges_cells g0 S HS) as [Hfrom _].
    destruct (Hfrom t Ht) as (c & _ & Hx & Hy & _). rewrite Hvs.
    split_and!; [by eapply list_elem_of_lookup_2..|done].
  - exists f, g. rewrite Heq. split_and!; [done..| |].
    + rewrite Hea. unfold AnyGraph.edge_attributes. by rewrite Hbase.
    + intros u v. destruct (Hcells u v) as [Hyes Hno]. split.
      * intros Hw. rewrite (Hyes Hw). by destruct f.
      * intros Hw. rewrite (Hno Hw), Hst. apply get2_replicate.
Qed.


(** X26. The graph that [cygraph.graph] builds from a source graph
    without repeated vertices: it is of the class chosen by [static] and
    takes [directed] and the vertices from the source, whatever
    [directed] and [vertices] were passed; it has an edge exactly where
    the source has one; every weight is the default [1.0].  Its
    [vertex_attributes] are the deep copy of those of the source, kept
    under the copies of the vertices, which are the vertices only when
    these are compared by value: a vertex that is the copy of none has
    no attribute map.  In its [edge_attributes] every edge
    that [edges] returned has an empty map, and the other entries are
    those of the deep copy of the [edge_attributes] of the source. *)
Theorem graph_from_graph (mv me : Graph.memo V K A)
    (static dir : bool) (vs : list V) g0 g
    (S : gset (V * V * DTYPE_t)) :
  AnyGraph.reachable g0 → NoDup (AnyGraph.vertices g0) →
  AnyGraph.edges g0 = inr S →
  cygraph.graph mv me static (Some g0) dir vs = inr g →
  is_static g = static
  ∧ AnyGraph.directed g = AnyGraph.directed g0
  ∧ AnyGraph.vertices g = AnyGraph.vertices g0
  ∧ (∀ a b, value (AnyGraph.has_edge a b g)
            = value (AnyGraph.has_edge a b g0))
  ∧ (∀ a b w, value (AnyGraph.get_edge_weight a b g) = inr w → w = one)
  ∧ AnyGraph.vertex_attributes g
    = Graph.deepcopy_vertex_attributes mv (AnyGraph.vertex_attributes g0)
  ∧ (∀ v, AnyGraph.vertex_attributes g !! Graph.copy_vertex mv v
          = Graph.deepcopy_attributes mv
              <$> AnyGraph.vertex_attributes g0 !! v)
  ∧ (Graph.vertices_by_value mv →
     ∀ v, is_Some (AnyGraph.vertex_attributes g !! v)
          ↔ is_Some (AnyGraph.vertex_attributes g0 !! v))
  ∧ (∀ v, (∀ u, Graph.copy_vertex mv u ≠ v) →
          AnyGraph.vertex_attributes g !! v = None)
  ∧ (∀ x y w, (x, y, w) ∈ S → AnyGraph.edge_attributes g !! (x, y) = Some ∅)
  ∧ (∀ x y, (∀ w, (x, y, w) ∉ S) →
            AnyGraph.edge_attributes g !! (x, y)
            = Graph.deepcopy_edge_attributes me
                (AnyGraph.edge_attributes g0) !! (x, y)).
Proof.
  intros Hreach Hnd HS Hg.
  pose proof (Graph.copy_vertex_inj mv) as Hinj.
  destruct (graph_from_cells mv me static dir vs g0 S HS)
    as (f & g' & Hg' & Hsame & Hclass & Hbase & Hea & Hcells).
  rewrite Hg in Hg'. injection Hg' as <-.
  destruct Hsame as (Hshape & Hdir & Hvs & Hva).
  assert (AnyGraph.vertices f = AnyGraph.vertices g0) as Hvs0.
  { unfold AnyGraph.vertices. by rewrite Hbase. }
  assert (AnyGraph.directed f = AnyGraph.directed g0) as Hdir0.
  { unfold AnyGraph.directed. by rewrite Hbase. }
  destruct (edges_cells g0 S HS) as [Hfrom Hcover].
  destruct (reachable_invariant g0 Hreach) as (_ & Hsym).
  set (es := (λ e : V * V * DTYPE_t, (e.1.1, e.1.2, one)) <$> elements S) in *.
  assert (∀ x y w, (x, y, w) ∈ S → (x, y, one) ∈ es) as Hes.
  { intros x y w Hin. apply list_elem_of_fmap. exists (x, y, w).
    split; [done|]. by apply elem_of_elements. }
  (* a triple of [S] determines the cell of its two vertices *)
  assert (∀ x y w u v, (x, y, w) ∈ S →
            index x (AnyGraph.vertices g0) = Some u →
            index y (AnyGraph.vertices g0) = Some v →
            get2 (storage g0) u v = inr (Some w)) as Hcell.
  { intros x y w u v Hin Hu Hv.
    destruct (Hfrom _ Hin) as ([i j] & _ & Hi & Hj & Hc). simpl in *.
    apply index_Some in Hu, Hv.
    rewrite (NoDup_lookup _ _ _ _ Hnd Hu Hi).
    by rewrite (NoDup_lookup _ _ _ _ Hnd Hv Hj). }
  assert (AnyGraph.vertex_attributes g
          = Graph.deepcopy_vertex_attributes mv
              (AnyGraph.vertex_attributes g0)) as Hva0.
  { rewrite Hva. unfold AnyGraph.vertex_attributes. by rewrite Hbase. }
  assert (∀ v, AnyGraph.vertex_attributes g !! Graph.copy_vertex mv v
               = Graph.deepcopy_attributes mv
                   <$> AnyGraph.vertex_attributes g0 !! v) as Hlook.
  { intros v. rewrite Hva0. unfold Graph.deepcopy_vertex_attributes.
    by rewrite lookup_kmap, lookup_fmap. }
  split_and!.
  - rewrite <- Hclass. by apply is_static_shape.
  - congruence.
  - congruence.
  - intros a b. rewrite !has_edge_run. simpl. rewrite Hvs, Hvs0.
    destruct (index a (AnyGraph.vertices g0)) as [u|] eqn:Hu; [|done].
    destruct (index b (AnyGraph.vertices g0)) as [v|] eqn:Hv; [|done].
    pose proof (index_lt _ _ _ Hu) as Hu'.
    pose proof (index_lt _ _ _ Hv) as Hv'.
    rewrite edges_storage in HS.
    destruct (scan_reads _ _ _ _ u v HS Hu' Hv') as [c0 Hc0].
    rewrite Hc0. simpl. destruct (Hcells u v) as [Hyes Hno].
    destruct c0 as [w|].
    + rewrite Hyes; [done|].
      destruct (Hcover (u, v) a b w) as [Hin|[Hd [w' Hin]]].
      * apply cells_in_bounds. simpl. lia.
      * split_and!; simpl; [by apply index_Some..|done].
      * exists (a, b, one). split; [by eapply Hes|].
        left. simpl. by rewrite Hvs0.
      * exists (b, a, one). split; [by eapply Hes|].
        right. simpl. rewrite Hvs0, Hdir0. done.
    + rewrite Hno; [by rewrite decide_True by lia|].
      intros e He Hw. apply list_elem_of_fmap in He as ([[x y] w] & -> & Hin).
      apply elem_of_elements in Hin. unfold writes in Hw. simpl in Hw.
      rewrite Hvs0, Hdir0 in Hw.
      destruct Hw as [[Hx Hy]|(Hd & Hx & Hy)].
      * rewrite (Hcell x y w u v Hin Hx Hy) in Hc0. done.
      * pose proof (Hcell x y w v u Hin Hx Hy) as Hvu.
        rewrite (Hsym Hd v u) in Hvu. congruence.
  - intros a b w Hw. apply get_edge_weight_inr in Hw as (u & v & _ & _ & Hc).
    destruct (Hcells u v) as [Hyes Hno].
    destruct (decide (Exists (λ e, writes f e u v) es)) as [Hex|Hex].
    + apply Exists_exists in Hex as (e & He & Hw).
      rewrite Hyes in Hc by (by exists e). congruence.
    + rewrite Hno in Hc.
      * by case_decide.
      * intros e He Hw. apply Hex, Exists_exists. by exists e.
  - done.
  - done.
  - intros Hval v. rewrite <- (Hval v) at 1. rewrite Hlook.
    by rewrite fmap_is_Some.
  - intros v Hv. rewrite Hva0. unfold Graph.deepcopy_vertex_attributes.
    apply lookup_kmap_None; [done|]. intros u ->. by destruct (Hv u).
  - intros x y w Hin. rewrite Hea.
    apply (lookup_reset_attributes es _ (x, y, one)). by eapply Hes.
  - intros x y Hnone. rewrite Hea. apply lookup_reset_other.
    intros e He. apply list_elem_of_fmap in He as ([[x' y'] w] & -> & Hin).
    apply elem_of_elements in Hin. simpl. intros [= -> ->].
    by apply (Hnone w).
Qed.
End conversion.

(** * The further properties on the example graphs *)

Section further_examples.
Import AnyGraph.
Local Open Scope Z_scope.

Lemma distinct_vertices (g : graph) :
  bool_decide (NoDup (vertices g)) = true → NoDup (vertices g).
Proof. apply bool_decide_eq_true_1. Qed.

Lemma is_vertex (v : Z) (g : graph) :
  contains v (vertices g) = true → v ∈ vertices g.
Proof. apply contains_true. Qed.

Lemma no_vertex (v : Z) (g : graph) :
  contains v (vertices g) = false → v ∉ vertices g.
Proof. apply contains_false. Qed.

Lemma unknown_vertex_raises_witness :
  (3 ∉ vertices (dynamic_graph false [1; 2])
   ∨ 1 ∉ vertices (dynamic_graph false [1; 2]))
  ∧ value (add_edge 3 1 one (dynamic_graph false [1; 2]))
    = inl (ValueError NotInGraph)
  ∧ value (has_edge 3 1 (dynamic_graph false [1; 2])) = inr false.
Proof.
  assert (3 ∉ vertices (dynamic_graph false [1; 2])
          ∨ 1 ∉ vertices (dynamic_graph false [1; 2])) as Habs
    by (left; by apply no_vertex).
  destruct (unknown_vertex_raises (dynamic_graph false [1; 2]) 3 1 one Habs)
    as (Hadd & _ & _ & Hhas).
  split; [exact Habs|]. by rewrite Hadd, Hhas.
Defined.

Lemma add_edge_resets_attributes_witness :
  1 ∈ vertices (one_labelled_edge dynamic_graph)
  ∧ 2 ∈ vertices (one_labelled_edge dynamic_graph)
  ∧ value (get_edge_attribute (1, 2) "k" (one_labelled_edge dynamic_graph))
    = inr 7
  ∧ value (get_edge_attribute (1, 2) "k"
             (final (add_edge 1 2 one (one_labelled_edge dynamic_graph))))
    = inl KeyError.
Proof.
  assert (1 ∈ vertices (one_labelled_edge dynamic_graph)) as H1
    by (by apply is_vertex).
  assert (2 ∈ vertices (one_labelled_edge dynamic_graph)) as H2
    by (by apply is_vertex).
  destruct (add_edge_resets_attributes (one_labelled_edge dynamic_graph)
              1 2 one "k" H1 H2) as [_ Hget].
  split_and!; [exact H1|exact H2|reflexivity|exact Hget].
Defined.

Lemma remove_edge_twice_witness :
  value (remove_edge 1 2 (one_edge dynamic_graph one)) = inr tt
  ∧ warned (remove_edge 1 2
              (final (remove_edge 1 2 (one_edge dynamic_graph one))))
    = [RemoveMissingEdge].
Proof.
  assert (value (remove_edge 1 2 (one_edge dynamic_graph one)) = inr tt)
    as Hval by reflexivity.
  split; [exact Hval|].
  by rewrite (remove_edge_twice (one_edge dynamic_graph one) 1 2 Hval).
Defined.

Lemma add_then_remove_edge_witness :
  index 1 (vertices (static_graph false [1; 2])) = Some 0%nat
  ∧ index 2 (vertices (static_graph false [1; 2])) = Some 1%nat
  ∧ cell (static_graph false [1; 2]) 0 1 = inr None
  ∧ value (add_edge 1 2 one (static_graph false [1; 2])) = inr tt
  ∧ storage (final (remove_edge 1 2
                      (final (add_edge 1 2 one (static_graph false [1; 2])))))
    = storage (static_graph false [1; 2])
  ∧ edge_attributes
      (final (remove_edge 1 2
                (final (add_edge 1 2 one (static_graph false [1; 2])))))
    = <[(1, 2) := ∅]> (edge_attributes (static_graph false [1; 2])).
Proof.
  destruct (add_then_remove_edge (static_graph false [1; 2]) 1 2 0 1 one)
    as (_ & Hst & _ & _ & Hea); [reflexivity..|].
  split_and!; [reflexivity..|exact Hst|exact Hea].
Defined.

Lemma get_children_has_edge_witness :
  NoDup (vertices (one_edge dynamic_graph one))
  ∧ ∃ S, value (get_children 1 (one_edge dynamic_graph one)) = inr S
         ∧ (2 ∈ S ↔ value (has_edge 1 2 (one_edge dynamic_graph one))
                    = inr true).
Proof.
  assert (NoDup (vertices (one_edge dynamic_graph one))) as Hnd
    by (by apply distinct_vertices).
  split; [exact Hnd|]. eexists. split; [reflexivity|].
  apply (get_children_has_edge (one_edge dynamic_graph one) 1 _ Hnd).
  reflexivity.
Defined.

Lemma get_parents_has_edge_witness :
  NoDup (vertices (one_edge static_graph one))
  ∧ ∃ S, value (get_parents 2 (one_edge static_graph one)) = inr S
         ∧ (1 ∈ S ↔ value (has_edge 1 2 (one_edge static_graph one))
                    = inr true).
Proof.
  assert (NoDup (vertices (one_edge static_graph one))) as Hnd
    by (by apply distinct_vertices).
  split; [exact Hnd|]. eexists. split; [reflexivity|].
  apply (get_parents_has_edge (one_edge static_graph one) 2 _ Hnd).
  reflexivity.
Defined.

Lemma children_parents_dual_witness :
  NoDup (vertices (one_edge dynamic_graph one))
  ∧ ∃ Sa Pb,
      value (get_children 1 (one_edge dynamic_graph one)) = inr Sa
      ∧ value (get_parents 2 (one_edge dynamic_graph one)) = inr Pb
      ∧ (2 ∈ Sa ↔ 1 ∈ Pb).
Proof.
  assert (NoDup (vertices (one_edge dynamic_graph one))) as Hnd
    by (by apply distinct_vertices).
  split; [exact Hnd|]. eexists _, _. split_and!; [reflexivity..|].
  apply (children_parents_dual (one_edge dynamic_graph one) 1 2 _ _ Hnd);
    reflexivity.
Defined.

Lemma undirected_children_are_parents_witness :
  reachable (one_edge static_graph two_and_a_half)
  ∧ directed (one_edge static_graph two_and_a_half) = false
  ∧ get_children 1 (one_edge static_graph two_and_a_half)
    = get_parents 1 (one_edge static_graph two_and_a_half).
Proof.
  assert (reachable (one_edge static_graph two_and_a_half)) as Hg
    by (apply after_reachable, reach_static).
  split_and!; [exact Hg|reflexivity|].
  exact (undirected_children_are_parents _ 1 Hg eq_refl).
Defined.

Lemma vertices_stay_distinct_witness :
  NoDup (vertices (dynamic_graph false [1; 2]))
  ∧ NoDup (vertices (after [AddVertex 3; RemoveVertex 1; AddVertex 3]
                           (dynamic_graph false [1; 2]))).
Proof.
  assert (NoDup (vertices (dynamic_graph false [1; 2]))) as Hnd
    by (by apply distinct_vertices).
  split; [exact Hnd|].
  exact (vertices_stay_distinct _ [AddVertex 3; RemoveVertex 1; AddVertex 3]
           Hnd).
Defined.

Lemma outside_storage_raises_witness :
  square (storage (after [AddVertex 3] (static_graph false [1; 2])))
  ∧ index 3 (vertices (after [AddVertex 3] (static_graph false [1; 2])))
    = Some 2%nat
  ∧ index 1 (vertices (after [AddVertex 3] (static_graph false [1; 2])))
    = Some 0%nat
  ∧ le (length (storage (after [AddVertex 3] (static_graph false [1; 2]))))
       2%nat
  ∧ value (has_edge 3 1 (after [AddVertex 3] (static_graph false [1; 2])))
    = inl IndexError
  ∧ value (add_edge 3 1 one (after [AddVertex 3] (static_graph false [1; 2])))
    = inl IndexError.
Proof.
  assert (square (storage (after [AddVertex 3] (static_graph false [1; 2]))))
    as Hsq.
  { apply (reachable_invariant _
             (after_reachable [AddVertex 3] _ (reach_static false [1; 2]))). }
  assert (le (length (storage (after [AddVertex 3]
                                       (static_graph false [1; 2])))) 2%nat)
    as Hlen by (vm_compute; lia).
  destruct (outside_storage_raises
              (after [AddVertex 3] (static_graph false [1; 2])) 3 1 2 0 one
              Hsq eq_refl eq_refl (or_introl Hlen))
    as (Hhas & _ & _ & Hadd & _).
  split_and!; [exact Hsq|reflexivity|reflexivity|exact Hlen| |exact Hadd].
  by rewrite Hhas.
Defined.

Lemma short_storage_scans_raise_witness :
  square (storage (after [AddVertex 3] (static_graph false [1; 2])))
  ∧ lt (length (storage (after [AddVertex 3] (static_graph false [1; 2]))))
       (length (vertices (after [AddVertex 3] (static_graph false [1; 2]))))
  ∧ edges (after [AddVertex 3] (static_graph false [1; 2])) = inl IndexError.
Proof.
  assert (square (storage (after [AddVertex 3] (static_graph false [1; 2]))))
    as Hsq.
  { apply (reachable_invariant _
             (after_reachable [AddVertex 3] _ (reach_static false [1; 2]))). }
  assert (lt (length (storage (after [AddVertex 3]
                                       (static_graph false [1; 2]))))
             (length (vertices (after [AddVertex 3]
                                       (static_graph false [1; 2])))))
    as Hlen by (vm_compute; lia).
  split_and!; [exact Hsq|exact Hlen|].
  by destruct (short_storage_scans_raise _ Hsq Hlen).
Defined.

Lemma static_add_vertex_effect_witness :
  matrix_shape (after [RemoveVertex 1] (static_graph false [1; 2]))
    = Some (2, 2)%nat
  ∧ 3 ∉ vertices (after [RemoveVertex 1] (static_graph false [1; 2]))
  ∧ value (add_vertex 3 (after [RemoveVertex 1] (static_graph false [1; 2])))
    = inl (ValueError ShapeMismatch).
Proof.
  assert (3 ∉ vertices (after [RemoveVertex 1] (static_graph false [1; 2])))
    as Hnew by (by apply no_vertex).
  destruct (static_add_vertex_effect
              (after [RemoveVertex 1] (static_graph false [1; 2])) 3 2
              eq_refl Hnew) as [_ Hcase].
  split_and!; [reflexivity|exact Hnew|].
  rewrite decide_False in Hcase by (vm_compute; lia). by destruct Hcase.
Defined.

Lemma dynamic_add_vertex_isolated_witness :
  wf (Dynamic (DynamicGraph.__cinit__ (K:=string) (A:=Z) false [1; 2]))
  ∧ 3 ∉ vertices (dynamic_graph false [1; 2])
  ∧ value (get_children 3 (final (add_vertex 3 (dynamic_graph false [1; 2]))))
    = inr ∅
  ∧ value (has_edge 3 1 (final (add_vertex 3 (dynamic_graph false [1; 2]))))
    = inr false.
Proof.
  assert (wf (Dynamic (DynamicGraph.__cinit__ (K:=string) (A:=Z) false [1; 2])))
    as Hwf by (apply (reachable_invariant _ (reach_dynamic false [1; 2]))).
  assert (3 ∉ vertices (dynamic_graph false [1; 2])) as Hnew
    by (by apply no_vertex).
  destruct (dynamic_add_vertex_isolated
              (DynamicGraph.__cinit__ false [1; 2]) 3 Hwf Hnew)
    as (_ & Hnone & Hchildren & _).
  split_and!; [exact Hwf|exact Hnew|exact Hchildren|].
  by destruct (Hnone 1).
Defined.

Lemma dynamic_raises_only_witness :
  reachable (one_edge dynamic_graph one)
  ∧ matrix_shape (one_edge dynamic_graph one) = None
  ∧ value (call (GetEdgeWeight 1 1) (one_edge dynamic_graph one))
    = inl (ValueError NoSuchEdge)
  ∧ (ValueError NoSuchEdge = ValueError NotInGraph
     ∨ ValueError NoSuchEdge = ValueError AlreadyInGraph
     ∨ ValueError NoSuchEdge = ValueError NoSuchEdge
     ∨ ValueError NoSuchEdge = KeyError).
Proof.
  assert (reachable (one_edge dynamic_graph one)) as Hg
    by (apply after_reachable, reach_dynamic).
  split_and!; [exact Hg|reflexivity|reflexivity|].
  exact (dynamic_raises_only _ (GetEdgeWeight 1 1) _ Hg eq_refl eq_refl).
Defined.

Lemma directed_edges_exact_witness :
  NoDup (vertices (after [AddEdge 1 2 one] (dynamic_graph true [1; 2])))
  ∧ directed (after [AddEdge 1 2 one] (dynamic_graph true [1; 2])) = true
  ∧ ∃ S, edges (after [AddEdge 1 2 one] (dynamic_graph true [1; 2])) = inr S
         ∧ ((1, 2, one) ∈ S
            ↔ value (get_edge_weight 1 2
                       (after [AddEdge 1 2 one] (dynamic_graph true [1; 2])))
              = inr one).
Proof.
  assert (NoDup (vertices (after [AddEdge 1 2 one] (dynamic_graph true [1; 2]))))
    as Hnd by (by apply distinct_vertices).
  split_and!; [exact Hnd|reflexivity|].
  eexists. split; [reflexivity|].
  apply (directed_edges_exact _ _ Hnd eq_refl). reflexivity.
Defined.

Lemma undirected_edges_once_witness :
  reachable (one_edge dynamic_graph one)
  ∧ NoDup (vertices (one_edge dynamic_graph one))
  ∧ directed (one_edge dynamic_graph one) = false
  ∧ ∃ S, edges (one_edge dynamic_graph one) = inr S
         ∧ ∀ x y w w', (x, y, w) ∈ S → (y, x, w') ∈ S → x = y ∧ w = w'.
Proof.
  assert (reachable (one_edge dynamic_graph one)) as Hg
    by (apply after_reachable, reach_dynamic).
  assert (NoDup (vertices (one_edge dynamic_graph one))) as Hnd
    by (by apply distinct_vertices).
  split_and!; [exact Hg|exact Hnd|reflexivity|].
  eexists. split; [reflexivity|].
  by destruct (undirected_edges_once _ _ Hg Hnd eq_refl eq_refl)
    as (_ & _ & Hone).
Defined.

Lemma graph_from_graph_witness :
  reachable (one_labelled_vertex dynamic_graph)
  ∧ NoDup (vertices (one_labelled_vertex dynamic_graph))
  ∧ ∃ S g, edges (one_labelled_vertex dynamic_graph) = inr S
           ∧ cygraph.graph atoms atoms true
               (Some (one_labelled_vertex dynamic_graph)) true [5] = inr g
           ∧ is_static g = true
           ∧ directed g = false
           ∧ vertices g = [1; 2]
           ∧ vertex_attributes g !! 1 = Some {["k" := 5]}.
Proof.
  assert (reachable (one_labelled_vertex dynamic_graph)) as Hg
    by (apply after_reachable, reach_dynamic).
  assert (NoDup (vertices (one_labelled_vertex dynamic_graph))) as Hnd
    by (by apply distinct_vertices).
  split_and!; [exact Hg|exact Hnd|].
  eexists _, _. split; [reflexivity|]. split; [reflexivity|].
  destruct (graph_from_graph atoms atoms true true [5]
              (one_labelled_vertex dynamic_graph) _ _ Hg Hnd eq_refl eq_refl)
    as (Hclass & Hdir & Hvs & _ & _ & _ & Hlook & _).
  split_and!; [exact Hclass|exact Hdir|exact Hvs|].
  exact (Hlook 1).
Defined.
End further_examples.

(** * The keys of [vertex_attributes] *)

Section attribute_keys.
Context {V K A : Type} `{Countable V, Countable K}.
Implicit Types g : AnyGraph.t V K A.

(** The keys of [vertex_attributes] after a call, returned or raised. *)
Lemma call_keys g (o : AnyGraph.op V K A) :
  dom (AnyGraph.vertex_attributes (final (AnyGraph.call o g)))
  = match o with
    | AnyGraph.AddVertex v => {[v]} ∪ dom (AnyGraph.vertex_attributes g)
    | _ => dom (AnyGraph.vertex_attributes g)
    end.
Proof.
  assert (∀ {B} (m : M (Graph.t V K A) B),
            same_keys (AnyGraph.base g) (final (m (AnyGraph.base g))) →
            dom (AnyGraph.vertex_attributes
                   (final (AnyGraph.dispatch (StaticGraph.super m)
                                             (DynamicGraph.super m) g)))
            = dom (AnyGraph.vertex_attributes g)) as Hsuper.
  { intros B m (_ & _ & Hdom). rewrite super_run.
    destruct (m (AnyGraph.base g)) as [b' ws x]. simpl in *.
    unfold AnyGraph.vertex_attributes. by rewrite base_with_base. }
  destruct o; simpl; rewrite ?final_answering.
  - destruct (add_vertex_base g v) as (_ & _ & -> & _).
    by rewrite dom_insert_L.
  - pose proof (remove_vertex_base g v) as Hb.
    unfold AnyGraph.vertex_attributes, AnyGraph.vertices in *. rewrite Hb.
    by destruct (index v _).
  - apply Hsuper. by rewrite has_vertex_final.
  - by destruct (add_edge_effect g v1 v2 weight)
      as (_ & (_ & _ & _ & ->) & _).
  - by destruct (remove_edge_effect g v1 v2) as ((_ & _ & _ & ->) & _).
  - by rewrite has_edge_run.
  - by rewrite get_edge_weight_run.
  - by rewrite get_children_run.
  - by rewrite get_parents_run.
  - apply Hsuper, set_vertex_attribute_keys.
  - apply Hsuper. by rewrite get_vertex_attribute_final.
  - apply Hsuper, set_edge_attribute_keys.
  - apply Hsuper. by rewrite get_edge_attribute_final.
  - unfold bind, gets, AnyGraph.answering, lift, ret. simpl.
    by destruct (AnyGraph.edges g).
Qed.

Lemma attributes_call g (o : AnyGraph.op V K A) :
  vertices_have_attributes g →
  vertices_have_attributes (final (AnyGraph.call o g)).
Proof.
  intros Hkeys v. destruct (call_base g o) as [_ ->]. rewrite call_keys.
  destruct o; try apply Hkeys.
  - destruct (contains v0 (AnyGraph.vertices g)).
    + intros Hv. apply elem_of_union. right. by apply Hkeys.
    + intros [Hv|Hv%list_elem_of_singleton]%elem_of_app;
        apply elem_of_union; [right; by apply Hkeys|left].
      by apply elem_of_singleton.
  - destruct (index v0 (AnyGraph.vertices g)); [|apply Hkeys].
    intros Hv%list_elem_of_delete_inv. by apply Hkeys.
Qed.

Lemma keys_new (g : AnyGraph.t V K A) dir vs :
  g = AnyGraph.Static (StaticGraph.__cinit__ dir vs)
  ∨ g = AnyGraph.Dynamic (DynamicGraph.__cinit__ dir vs) →
  keys_are_vertices g.
Proof.
  intros [->| ->]; unfold keys_are_vertices, AnyGraph.vertices,
    AnyGraph.vertex_attributes; simpl;
    rewrite dom_fresh_attributes; set_solver.
Qed.

Lemma keys_have g : keys_are_vertices g → vertices_have_attributes g.
Proof.
  unfold keys_are_vertices. intros Hkeys v Hv. rewrite Hkeys.
  by apply elem_of_list_to_set.
Qed.

(** The vertices and the vertex attributes of a graph built from a
    source graph. *)
Lemma clone_attributes (mv me : Graph.memo V K A) (static dir : bool)
    (vs : list V) g g' :
  cygraph.graph mv me static (Some g) dir vs = inr g' →
  AnyGraph.vertices g' = AnyGraph.vertices g
  ∧ AnyGraph.vertex_attributes g'
    = Graph.deepcopy_vertex_attributes mv (AnyGraph.vertex_attributes g).
Proof.
  intros Hg'.
  destruct (graph_from mv me static dir vs g) as (f0 & _ & _ & _ & Heq).
  destruct (AnyGraph.edges g) as [e|S] eqn:HS;
    [by rewrite Heq in Hg'|]. clear Heq.
  destruct (graph_from_cells mv me static dir vs g S HS)
    as (f & g'' & Hg'' & (_ & _ & Hvs & Hva) & _ & Hbase & _).
  rewrite Hg' in Hg''. injection Hg'' as <-. rewrite Hvs, Hva.
  unfold AnyGraph.vertices, AnyGraph.vertex_attributes. by rewrite Hbase.
Qed.

Lemma attributes_clone (mv me : Graph.memo V K A) (static dir : bool)
    (vs : list V) g g' :
  Graph.vertices_by_value mv →
  cygraph.graph mv me static (Some g) dir vs = inr g' →
  vertices_have_attributes g → vertices_have_attributes g'.
Proof.
  intros Hval Hg' Hkeys v.
  destruct (clone_attributes mv me static dir vs g g' Hg') as [-> ->].
  intros [d Hd]%Hkeys%elem_of_dom. apply elem_of_dom.
  pose proof (Graph.copy_vertex_inj mv) as Hinj.
  unfold Graph.deepcopy_vertex_attributes. rewrite <- (Hval v).
  rewrite lookup_kmap by done. rewrite lookup_fmap, Hd. by eexists.
Qed.

(** C3, amended. Every vertex of the vertex sequence is a key of
    [vertex_attributes], on every graph that a program can get from the
    constructors, [__copy__] and the public operations, returning or
    raising, where a graph built from a source graph has its vertex
    attributes under keys equal to the vertices (vertices compared by
    value).  The keys are exactly the vertices right after construction
    from a vertex list, and every public operation other than
    [remove_vertex] keeps that equality whether it returns or raises.
    [remove_vertex] leaves [vertex_attributes] as it was, and no public
    operation deletes a key. *)
Theorem vertex_attribute_keys g :
  AnyGraph.reachable_if Graph.vertices_by_value g →
  vertices_have_attributes g
  ∧ (∀ o : AnyGraph.op V K A,
       (∀ v, o ≠ AnyGraph.RemoveVertex v) →
       keys_are_vertices g → keys_are_vertices (final (AnyGraph.call o g)))
  ∧ (∀ dir vs,
       g = AnyGraph.Static (StaticGraph.__cinit__ dir vs)
       ∨ g = AnyGraph.Dynamic (DynamicGraph.__cinit__ dir vs) →
       keys_are_vertices g)
  ∧ (∀ v, AnyGraph.vertex_attributes (final (AnyGraph.remove_vertex v g))
          = AnyGraph.vertex_attributes g)
  ∧ (∀ o : AnyGraph.op V K A,
       dom (AnyGraph.vertex_attributes g)
       ⊆ dom (AnyGraph.vertex_attributes (final (AnyGraph.call o g)))).
Proof.
  intros Hreach. split_and!.
  - induction Hreach as [dir vs|dir vs|mv me g g' Hval _ IH Hg'
                         |mv me g g' Hval _ IH Hg'|g g' _ IH Hg'|g o _ IH].
    + eapply keys_have, keys_new. by left.
    + eapply keys_have, keys_new. by right.
    + by apply (attributes_clone mv me true false [] g g').
    + by apply (attributes_clone mv me false false [] g g').
    + apply (copy_inr (Graph.Memo id id id _ _) (Graph.Memo id id id _ _))
        in Hg' as (_ & _ & Hg').
      eapply keys_have, keys_new.
      unfold cygraph.graph, cygraph.StaticGraph, cygraph.DynamicGraph in Hg'.
      destruct (is_static g); injection Hg' as <-; [by left|by right].
    + by apply attributes_call.
  - intros o Hop Hkeys. destruct o; simpl; rewrite ?final_answering.
    + by apply keys_add_vertex.
    + by destruct (Hop v).
    + apply keys_super; [|done]. by rewrite has_vertex_final.
    + eapply keys_same_vertices; [|done]. apply add_edge_effect.
    + eapply keys_same_vertices; [|done]. apply remove_edge_effect.
    + by rewrite has_edge_run.
    + by rewrite get_edge_weight_run.
    + by rewrite get_children_run.
    + by rewrite get_parents_run.
    + apply keys_super; [|done]. apply set_vertex_attribute_keys.
    + apply keys_super; [|done]. by rewrite get_vertex_attribute_final.
    + apply keys_super; [|done]. apply set_edge_attribute_keys.
    + apply keys_super; [|done]. by rewrite get_edge_attribute_final.
    + unfold bind, gets, AnyGraph.answering, lift, ret. simpl.
      by destruct (AnyGraph.edges g).
  - apply keys_new.
  - intros v. pose proof (remove_vertex_base g v) as Hb.
    unfold AnyGraph.vertex_attributes, AnyGraph.vertices in *. rewrite Hb.
    by destruct (index v _).
  - intros o. rewrite call_keys. destruct o; try done.
    apply union_subseteq_r.
Qed.
End attribute_keys.

(** * Counting edges *)

Section edges_once.
Context {V K A : Type} `{Countable V, Countable K}.
Implicit Types g : AnyGraph.t V K A.
Implicit Types (e f : V * V * DTYPE_t) (es : list (V * V * DTYPE_t)).

(** Among pairs that share no vertex, a shared vertex means the same
    edge. *)
Lemma disjoint_share es e f :
  disjoint_pairs es → e ∈ es → f ∈ es →
  e.1.1 = f.1.1 ∨ e.1.1 = f.1.2 ∨ e.1.2 = f.1.1 ∨ e.1.2 = f.1.2 →
  e = f.
Proof.
  induction es as [|e' es IH]; simpl; intros Hd He Hf Hshare.
  - by apply elem_of_nil in He.
  - destruct Hd as [Hhead Hdisj].
    apply elem_of_cons in He as [->|He]; apply elem_of_cons in Hf as [->|Hf].
    + done.
    + destruct (Hhead f Hf) as (? & ? & ? & ?). naive_solver.
    + destruct (Hhead e He) as (? & ? & ? & ?). naive_solver.
    + by apply IH.
Qed.

(** Two edges that write the same cell share a vertex. *)
Lemma writes_share g e f (u v : nat) :
  writes g e u v → writes g f u v →
  e.1.1 = f.1.1 ∨ e.1.1 = f.1.2 ∨ e.1.2 = f.1.1 ∨ e.1.2 = f.1.2.
Proof.
  intros [[He1 He2]|(_ & He1 & He2)] [[Hf1 Hf2]|(_ & Hf1 & Hf2)].
  - left. by eapply index_inj.
  - right. left. by eapply index_inj.
  - right. left. by eapply index_inj.
  - left. by eapply index_inj.
Qed.

(** The cells after [add_edge] calls that all returned, on pairs that
    share no vertex. *)
Lemma add_all_written es : ∀ g g',
  square (storage g) →
  length (storage g) = length (AnyGraph.vertices g) →
  disjoint_pairs es →
  add_all es g = inr g' →
  same_vertices g g'
  ∧ (∀ e, e ∈ es →
          ∃ u v, index e.1.1 (AnyGraph.vertices g) = Some u
                 ∧ index e.1.2 (AnyGraph.vertices g) = Some v)
  ∧ ∀ u v, (∀ e, e ∈ es → writes g e u v →
                 get2 (storage g') u v = inr (stored g e.2))
           ∧ ((∀ e, e ∈ es → ¬ writes g e u v) →
              get2 (storage g') u v = get2 (storage g) u v).
Proof.
  induction es as [|e es IH]; intros g g' Hsq Hlen Hdisj Hall; simpl in *.
  - injection Hall as <-. split_and!; [done| |].
    + intros e He. by apply elem_of_nil in He.
    + intros u v. split; [|done]. intros e He. by apply elem_of_nil in He.
  - destruct Hdisj as [Hhead Hdisj].
    destruct (value (AnyGraph.add_edge e.1.1 e.1.2 e.2 g)) as [x|[]] eqn:Hval;
      [done|].
    destruct (add_edge_effect g e.1.1 e.1.2 e.2) as (_ & _ & Hcases).
    destruct (index e.1.1 (AnyGraph.vertices g)) as [u0|] eqn:Hu0;
      [|destruct Hcases; congruence].
    destruct (index e.1.2 (AnyGraph.vertices g)) as [v0|] eqn:Hv0;
      [|destruct Hcases; congruence].
    clear Hcases.
    destruct (add_edge_cells g e.1.1 e.1.2 e.2 u0 v0)
      as (_ & Hsame & _ & Hsq1 & Hlen1 & Hcells); [done..| | |].
    { apply index_lt in Hu0. lia. }
    { apply index_lt in Hv0. lia. }
    set (g1 := final (AnyGraph.add_edge e.1.1 e.1.2 e.2 g)) in *.
    pose proof Hsame as (Hshape & Hdir & Hvs & Hva).
    destruct (IH g1 g') as (Hsame' & Hidx' & Hcells');
      [done|by rewrite Hlen1, Hvs|done|done|].
    assert (e = (e.1.1, e.1.2, e.2)) as He by (by destruct e as [[]]).
    split_and!.
    + destruct Hsame' as (? & ? & ? & ?). unfold same_vertices.
      split_and!; congruence.
    + intros f [->|Hf]%elem_of_cons; [by exists u0, v0|].
      rewrite <- Hvs. by apply Hidx'.
    + intros u v. destruct (Hcells u v) as [Hyes Hno].
      destruct (Hcells' u v) as [Hyes' Hno']. split.
      * intros f [->|Hf]%elem_of_cons Hw.
        -- rewrite Hno'; [apply Hyes; by rewrite <- He|].
           intros f Hf Hw'%(writes_same g g1); [|done].
           destruct (Hhead f Hf) as (? & ? & ? & ?).
           destruct (writes_share g e f u v Hw Hw') as [?|[?|[?|?]]]; done.
        -- rewrite (Hyes' f Hf); [by rewrite (stored_same_shape g g1)|].
           by apply (writes_same g g1).
      * intros Hnone. rewrite Hno'.
        -- apply Hno. rewrite <- He. apply Hnone. by left.
        -- intros f Hf Hw. apply (Hnone f); [by right|].
           by apply (writes_same g g1).
Qed.

(** C9, amended. Take an undirected graph of either class whose storage
    is square with one row per vertex and holds no edge, as right after
    construction from a vertex list.  After [add_edge] calls that all
    return, on vertex pairs that share no vertex with one another and
    with weights other than NaN when the graph is a [StaticGraph],
    [edges] returns a set of exactly as many triples as there were
    calls: each added edge is there with its weight, in one of its two
    directions and never in both, and nothing else is there. *)
Theorem edges_count g es g' :
  square (storage g) →
  length (storage g) = length (AnyGraph.vertices g) →
  AnyGraph.directed g = false →
  no_edges g →
  disjoint_pairs es →
  Forall (λ e, stored g e.2 = Some e.2) es →
  add_all es g = inr g' →
  ∃ S, AnyGraph.edges g' = inr S ∧ size S = length es
       ∧ (∀ x y w, (x, y, w) ∈ es → (x, y, w) ∈ S ∨ (y, x, w) ∈ S)
       ∧ (∀ x y w, (x, y, w) ∈ S → (x, y, w) ∈ es ∨ (y, x, w) ∈ es)
       ∧ (∀ x y w w', (x, y, w) ∈ S → (y, x, w') ∈ S → x = y ∧ w = w').
Proof.
  intros Hsq Hlen Hdir Hnone Hdisj Hw Hall.
  destruct (add_all_count es g ∅ ∅) with (g' := g') as (S & HS & Hsize);
    try done.
  { intros i j w Hc. rewrite <- cell_storage in Hc. by apply Hnone in Hc. }
  { by apply edges_of_no_edges. }
  exists S. split; [done|]. split; [rewrite Hsize, size_empty; lia|].
  destruct (add_all_written es g g' Hsq Hlen Hdisj Hall)
    as ((_ & Hdir' & Hvs & _) & Hidx & Hcells).
  pose proof HS as HS'. rewrite edges_storage, Hdir', Hdir, Hvs in HS'.
  destruct (scan_undirected _ _ _ _ _ HS') as (_ & Hfrom & Hcover & Hone).
  { intros x y w w' Hin. by apply elem_of_empty in Hin. }
  (* a cell that holds an edge was written by one of the calls *)
  assert (∀ c x y w,
            holds (get2 (storage g')) (AnyGraph.vertices g) c (x, y, w) →
            (x, y, w) ∈ es ∨ (y, x, w) ∈ es) as Hback.
  { intros [u v] x y w (Hx & Hy & Hc). simpl in *.
    destruct (Hcells u v) as [Hyes Hno].
    destruct (decide (Exists (λ f, writes g f u v) es)) as [Hex|Hex].
    - apply Exists_exists in Hex as (f & Hf & Hwf).
      rewrite (Hyes f Hf Hwf) in Hc.
      rewrite (proj1 (Forall_forall _ _) Hw f Hf) in Hc.
      injection Hc as Hw'.
      destruct f as [[a b] w0]. simpl in *. subst w0.
      destruct Hwf as [[Ha Hb]|(_ & Ha & Hb)]; simpl in *.
      + apply index_Some in Ha, Hb. left. congruence.
      + apply index_Some in Ha, Hb. right. congruence.
    - rewrite Hno in Hc.
      + rewrite <- cell_storage in Hc. by apply Hnone in Hc.
      + intros f Hf Hwf. apply Hex, Exists_exists. by exists f. }
  split_and!; [| |done].
  - intros x y w Hin.
    destruct (Hidx _ Hin) as (u & v & Hu & Hv). simpl in *.
    destruct (Hcells u v) as [Hyes _].
    assert (holds (get2 (storage g')) (AnyGraph.vertices g) (u, v) (x, y, w))
      as Hh.
    { split_and!; simpl; [by apply index_Some..|].
      rewrite (Hyes _ Hin); [|left; by split].
      by rewrite (proj1 (Forall_forall _ _) Hw _ Hin). }
    destruct (Hcover (u, v) x y w) as [?|[w' Hin']]; [|done|by left|].
    { apply cells_in_bounds. simpl. split; by eapply index_lt. }
    right. destruct (Hfrom _ Hin') as [Hin''|(c & _ & Hc)];
      [by apply elem_of_empty in Hin''|].
    destruct (Hback c y x w' Hc) as [Hes|Hes].
    + assert ((y, x, w') = (x, y, w)) as Heq.
      { apply (disjoint_share es); [done..|]. simpl. by right; left. }
      injection Heq as Hyx Hxy Hww. by subst.
    + assert ((x, y, w') = (x, y, w)) as Heq.
      { apply (disjoint_share es); [done..|]. simpl. by left. }
      injection Heq as Hww. by subst.
  - intros x y w Hin.
    destruct (Hfrom _ Hin) as [Hin'|(c & _ & Hc)];
      [by apply elem_of_empty in Hin'|].
    by eapply Hback.
Qed.
End edges_once.

(** * Keys and edge counts on the example graphs *)

Section keys_and_counts.
Import AnyGraph.
Local Open Scope Z_scope.

Lemma after_reachable_if ok (os : list (op Z string Z)) (g : graph) :
  reachable_if ok g → reachable_if ok (after os g).
Proof.
  revert g. induction os as [|o os IH]; intros g Hg; simpl; [done|].
  apply IH. by apply reach_call.
Qed.

Lemma vertex_attribute_keys_witness :
  ∃ g, static_of atoms atoms
         (after [AddVertex 3; RemoveVertex 1] (dynamic_graph true [1; 2]))
       = inr g
       ∧ reachable_if Graph.vertices_by_value g
       ∧ vertices g = [2; 3]
       ∧ vertices_have_attributes g
       ∧ vertex_attributes (final (remove_vertex 2 g)) = vertex_attributes g.
Proof.
  eexists. split; [reflexivity|].
  match goal with |- reachable_if _ ?g ∧ _ =>
    assert (reachable_if Graph.vertices_by_value g) as Hg end.
  { eapply (reach_static_of atoms atoms
              (after [AddVertex 3; RemoveVertex 1] (dynamic_graph true [1; 2]))).
    - intros v. reflexivity.
    - apply after_reachable_if, reach_dynamic.
    - reflexivity. }
  split; [exact Hg|]. split; [reflexivity|].
  destruct (vertex_attribute_keys _ Hg) as (Hkeys & _ & _ & Hremove & _).
  split; [exact Hkeys|exact (Hremove 2)].
Defined.

Lemma edges_count_witness :
  disjoint_pairs two_edges
  ∧ add_all two_edges (dynamic_graph false [1; 2; 3; 4])
    = inr (after two_edges_calls (dynamic_graph false [1; 2; 3; 4]))
  ∧ ∃ S, edges (after two_edges_calls (dynamic_graph false [1; 2; 3; 4]))
         = inr S
         ∧ size S = 2%nat
         ∧ ((1, 2, one) ∈ S ∨ (2, 1, one) ∈ S)
         ∧ ((3, 4, two_and_a_half) ∈ S ∨ (4, 3, two_and_a_half) ∈ S).
Proof.
  assert (disjoint_pairs two_edges) as Hdisj.
  { simpl. split_and!; try done.
    - intros f ->%list_elem_of_singleton. simpl. done.
    - intros f Hf. by apply not_elem_of_nil in Hf. }
  assert (add_all two_edges (dynamic_graph false [1; 2; 3; 4])
          = inr (after two_edges_calls (dynamic_graph false [1; 2; 3; 4])))
    as Hall by reflexivity.
  split_and!; [exact Hdisj|exact Hall|].
  destruct (edges_count (dynamic_graph false [1; 2; 3; 4]) two_edges
              (after two_edges_calls (dynamic_graph false [1; 2; 3; 4])))
    as (S & HS & Hsize & Hin & _).
  - apply square_replicate.
  - reflexivity.
  - reflexivity.
  - apply no_edges_new_dynamic.
  - exact Hdisj.
  - repeat constructor.
  - exact Hall.
  - exists S. split_and!; [exact HS|exact Hsize|..].
    + apply Hin. left.
    + apply Hin. right. left.
Defined.
End keys_and_counts.
